(** * PetDay highlight curation and time remapping: a shallow embedding

    The development follows [backend/server.ts]: the signal normalizers
    ([normalizeMoodData], [normalizeTimeline] with [pickEvenIndices]), the
    segment merger ([mergeOverlappingSegments]), the four coverage passes
    ([ensure*InHighlights]), the two budget trims and the scenery fallback
    of [processVideo], the timeline mapper ([mapToHighlightTime],
    [mapAndFilterForHighlight]) and the rewrites of the annotations in
    [processVideo] and [migrateSessions].

    Conventions.
    - A JavaScript number is an exact rational ([Q]); [Math.floor] and
      [Math.round] are [Qfloor] and [Qfloor (x + 1/2)].
    - A time stamp in [M:SS] text form is carried by the number of seconds
      that [timeToSeconds] reads from it (an integer, [Z]).  Module
      [Text] holds the text-level [timeToSeconds] and [secondsToTime];
      [timeToSeconds_secondsToTime] shows that reading back what
      [secondsToTime] prints gives [stamp], the numeric function used
      everywhere else.
    - An optional field is an [option]; JavaScript truthiness of a string
      field is [truthy].
    - The one place where the rounding of binary floating point shows in a
      result is the interpolation of the mood curve: module [Double]
      evaluates it in IEEE 754 binary64, and the statements about the
      samples are those that hold in both arithmetics.
    - A clip whose time text [timeToSeconds] cannot read has the time NaN;
      module [Raw] carries such clips through the budget guards of
      [processVideo]. *)

From Stdlib Require Import ZArith QArith Qround Qminmax List Bool Lia Lqa.
From Stdlib Require Import String Ascii Permutation Sorted SpecFloat.
Import ListNotations.
Open Scope Z_scope.

(* ================================================================== *)
(** ** JavaScript arithmetic used by the engine *)
(* ================================================================== *)

Module JS.

(** [Math.round]: nearest integer, halves rounded up. *)
Definition round (x : Q) : Z := Qfloor (x + (1 # 2)).

(** Truncation toward zero, as done by the [%] operator. *)
Definition trunc (x : Q) : Z :=
  if Qle_bool 0 x then Qfloor x else Qceiling x.

(** [x % 60]. *)
Definition rem60 (x : Q) : Q := x - 60 * inject_Z (trunc (x / 60)).

(** [clamp(value, min, max) = Math.min(max, Math.max(min, value))]. *)
Definition clamp (value min max : Z) : Z := Z.min max (Z.max min value).

(** Strict comparison on rationals. *)
Definition Qltb (x y : Q) : bool := negb (Qle_bool y x).

(** A string-valued optional field is truthy when present and non-empty. *)
Definition truthy (o : option string) : bool :=
  match o with
  | Some s => negb (String.eqb s EmptyString)
  | None => false
  end.

(** [a || b] on optional strings. *)
Definition orElse (a b : option string) : option string :=
  if truthy a then a else b.

(** [x || d] on an optional number: a missing or zero value gives [d]. *)
Definition numOr (o : option Q) (d : Q) : Q :=
  match o with
  | Some q => if Qeq_bool q 0 then d else q
  | None => d
  end.

(** [source === s]. *)
Definition srcIs (o : option string) (s : string) : bool :=
  match o with
  | Some x => String.eqb x s
  | None => false
  end.

End JS.

(** [stamp x] is [timeToSeconds (secondsToTime x)]: the minutes are
    [floor (x / 60)], the seconds [floor (x % 60)], and the printed text
    [m:ss] reads back as [60 * m + s]. *)
Definition stamp (x : Q) : Z :=
  60 * Qfloor (x / 60) + Qfloor (JS.rem60 x).

(* ================================================================== *)
(** ** Array.prototype.sort: a stable insertion sort *)
(* ================================================================== *)

Section Sort.
Context {A : Type}.
(** [after a b] holds when the comparator is positive on [(a, b)]:
    [a] has to come after [b]. *)
Variable after : A -> A -> bool.

Fixpoint insertBy (x : A) (l : list A) : list A :=
  match l with
  | [] => [x]
  | y :: l' => if after x y then y :: insertBy x l' else x :: l
  end.

Definition sortBy (l : list A) : list A := fold_right insertBy [] l.
End Sort.

(* ================================================================== *)
(** ** Data model *)
(* ================================================================== *)

(** A highlight clip.  [start] and [end_] are the [start] and [end] texts
    of the source object, read in seconds. *)
Record Segment : Type := mkSegment {
  start : Z;
  end_ : Z;
  source : option string;
  score : option Q;
  friendName : option string;
  isHighQuality : bool;
  isNearFriend : bool
}.

Definition setEnd (s : Segment) (e : Z) : Segment :=
  mkSegment (start s) e (source s) (score s) (friendName s)
            (isHighQuality s) (isNearFriend s).

Definition setSource (s : Segment) (src : option string) : Segment :=
  mkSegment (start s) (end_ s) src (score s) (friendName s)
            (isHighQuality s) (isNearFriend s).

Definition setHighQuality (s : Segment) (b : bool) : Segment :=
  mkSegment (start s) (end_ s) (source s) (score s) (friendName s)
            b (isNearFriend s).

(** One occurrence of a recurring subject: [{ time, duration? }]. *)
Record Occurrence : Type := mkOccurrence {
  ts_time : option Z;
  ts_duration : option Q
}.

(** A recurring subject. *)
Record Friend : Type := mkFriend {
  friend_name : string;
  friend_timestamps : option (list Occurrence);
  friend_timestamp : option Z;
  friend_duration : option Q
}.

(** A scenery moment. *)
Record Scenery : Type := mkScenery {
  scene_timestamp : option Z;
  stayDuration : option Q;
  scene_isNearFriend : bool
}.

(** A feeding event. *)
Record Habit : Type := mkHabit {
  habit_timestamp : option Z
}.

(** A safety alert; [alert_type] is ["danger"] or ["warning"]. *)
Record Alert : Type := mkAlert {
  alert_timestamp : option Z;
  alert_type : string
}.

(** The part of the analysis data that the highlight engine reads. *)
Record Analysis : Type := mkAnalysis {
  highlightTimestamps : list Segment;
  friends : list Friend;
  scenery : list Scenery;
  dietaryHabits : list Habit;
  safetyAlerts : list Alert
}.

(** [t >= segStart && t <= segEnd]. *)
Definition covers (t : Z) (seg : Segment) : bool :=
  (start seg <=? t) && (t <=? end_ seg).

(** [calculateDuration]. *)
Definition calculateDuration (segs : list Segment) : Z :=
  fold_left (fun sum seg => sum + (end_ seg - start seg)) segs 0.

(** Chronological comparator [(a, b) => start a - start b]. *)
Definition byStart (a b : Segment) : bool := start b <? start a.

(* ================================================================== *)
(** ** Segment merger *)
(* ================================================================== *)

Definition getSourcePriority (src : option string) : Z :=
  if JS.srcIs src "safety" then 100
  else if JS.srcIs src "friend+scenery" then 95
  else if JS.srcIs src "friend" then 80
  else if JS.srcIs src "food" then 60
  else if JS.srcIs src "scenery" then 40
  else 10.

Definition scoreOr0 (o : option Q) : Q :=
  match o with Some q => q | None => 0%Q end.

(** [sources.includes(s)] for [sources = [a, b].filter(Boolean)]. *)
Definition sourcesInclude (a b : option string) (s : string) : bool :=
  JS.srcIs a s || JS.srcIs b s.

(** The body of the loop of [mergeOverlappingSegments] when [next] is
    merged into [current]. *)
Definition mergeInto (current next : Segment) : Segment :=
  let newEnd := if end_ current <? end_ next then end_ next else end_ current in
  let hasFriend :=
    sourcesInclude (source current) (source next) "friend"
    || sourcesInclude (source current) (source next) "friend+scenery" in
  let hasScenery :=
    sourcesInclude (source current) (source next) "scenery"
    || sourcesInclude (source current) (source next) "friend+scenery" in
  let '(src, name) :=
    if hasFriend && hasScenery then
      (Some "friend+scenery"%string,
       JS.orElse (friendName current) (friendName next))
    else if getSourcePriority (source current) <? getSourcePriority (source next) then
      (source next, JS.orElse (friendName next) (friendName current))
    else (source current, friendName current) in
  mkSegment (start current) newEnd src
            (Some (Qmax (scoreOr0 (score current)) (scoreOr0 (score next))))
            name
            (isHighQuality current || isHighQuality next)
            (isNearFriend current).

Fixpoint mergeLoop (current : Segment) (rest : list Segment) : list Segment :=
  match rest with
  | [] => [current]
  | next :: rest' =>
      if start next <=? end_ current + 2
      then mergeLoop (mergeInto current next) rest'
      else current :: mergeLoop next rest'
  end.

Definition mergeOverlappingSegments (segments : list Segment) : list Segment :=
  match segments with
  | [] => []
  | [s] => [s]
  | s :: rest => mergeLoop s rest
  end.

(* ================================================================== *)
(** ** Coverage passes *)
(* ================================================================== *)

(** The object pushed for an uncovered event: [start] and [end] go through
    [secondsToTime]; [newSegStart] is [Math.max(0, t - bufferSeconds)] and
    [newSegEnd] is [Math.min(videoDuration, t + length)]. *)
Definition newSegStart (t bufferSeconds : Z) : Z := Z.max 0 (t - bufferSeconds).

Definition newSegEnd (videoDuration : Q) (t : Z) (length : Q) : Q :=
  Qmin videoDuration (inject_Z t + length).

Definition timeOr0 (o : option Z) : Z :=
  match o with Some t => t | None => 0 end.

Definition isSome {A : Type} (o : option A) : bool :=
  match o with Some _ => true | None => false end.

(** [friend.timestamps?.length > 0 ? friend.timestamps
      : friend.timestamp ? [{ time, duration }] : []]. *)
Definition allTimestamps (friend : Friend) : list Occurrence :=
  match friend_timestamps friend with
  | Some (ts :: l) => ts :: l
  | _ =>
      match friend_timestamp friend with
      | Some t => [mkOccurrence (Some t) (friend_duration friend)]
      | None => []
      end
  end.

Definition friendDurationOf (friend : Friend) (ts : Occurrence) : Q :=
  JS.numOr (ts_duration ts) (JS.numOr (friend_duration friend) 5).

Definition friendSegment (videoDuration : Q) (bufferSeconds : Z)
    (friend : Friend) (ts : Occurrence) : Segment :=
  let friendTime := timeOr0 (ts_time ts) in
  mkSegment
    (stamp (inject_Z (newSegStart friendTime bufferSeconds)))
    (stamp (newSegEnd videoDuration friendTime
              (Qmax (friendDurationOf friend ts) (inject_Z bufferSeconds))))
    (Some "friend"%string) None (Some (friend_name friend)) false false.

Definition friendStep (videoDuration : Q) (bufferSeconds : Z) (friend : Friend)
    (segments : list Segment) (ts : Occurrence) : list Segment :=
  if existsb (covers (timeOr0 (ts_time ts))) segments then segments
  else segments ++ [friendSegment videoDuration bufferSeconds friend ts].

Definition friendsLoop (videoDuration : Q) (bufferSeconds : Z)
    (friends : list Friend) (segments : list Segment) : list Segment :=
  fold_left
    (fun segs friend =>
       fold_left (friendStep videoDuration bufferSeconds friend)
                 (allTimestamps friend) segs)
    friends segments.

Definition ensureFriendsInHighlights (friends : list Friend)
    (highlightTimestamps : list Segment) (videoDuration : Q)
    (bufferSeconds : Z) : list Segment :=
  match friends with
  | [] => highlightTimestamps
  | _ =>
      mergeOverlappingSegments
        (sortBy byStart
           (friendsLoop videoDuration bufferSeconds friends highlightTimestamps))
  end.

(** [s.stayDuration >= n && s.timestamp]. *)
Definition staysAtLeast (n : Q) (s : Scenery) : bool :=
  match stayDuration s with
  | Some d => Qle_bool n d && isSome (scene_timestamp s)
  | None => false
  end.

(** The in-place update of the first segment that covers a scenery moment. *)
Definition markScenery (isHQ : bool) (existingSeg : Segment) : Segment :=
  let seg1 :=
    if JS.srcIs (source existingSeg) "friend"
    then setSource existingSeg (Some "friend+scenery"%string)
    else if negb (JS.truthy (source existingSeg)) || JS.srcIs (source existingSeg) "ai"
    then setSource existingSeg (Some "scenery"%string)
    else existingSeg in
  if isHQ then setHighQuality seg1 true else seg1.

(** [segments.findIndex(p)] followed by an update at that index. *)
Fixpoint updateFirst (p : Segment -> bool) (f : Segment -> Segment)
    (l : list Segment) : option (list Segment) :=
  match l with
  | [] => None
  | x :: l' =>
      if p x then Some (f x :: l')
      else match updateFirst p f l' with
           | Some r => Some (x :: r)
           | None => None
           end
  end.

Definition hasNearbyFriend (segments : list Segment) (segStart0 : Z) (segEnd0 : Q)
  : bool :=
  existsb
    (fun seg =>
       if negb (JS.srcIs (source seg) "friend")
          && negb (JS.srcIs (source seg) "friend+scenery")
       then false
       else
         let gapAfter := (inject_Z (start seg) - segEnd0)%Q in
         let gapBefore := segStart0 - end_ seg in
         (Qle_bool 0 gapAfter && Qle_bool gapAfter 10)
         || ((0 <=? gapBefore) && (gapBefore <=? 10)))
    segments.

Definition sceneSegment (videoDuration : Q) (bufferSeconds : Z)
    (segments : list Segment) (sceneTime : Z) (sceneDuration : Q) : Segment :=
  let clipDuration := Qmin sceneDuration 5 in
  let s0 := newSegStart sceneTime bufferSeconds in
  let e0 := newSegEnd videoDuration sceneTime clipDuration in
  mkSegment (stamp (inject_Z s0)) (stamp e0) (Some "scenery"%string) None None
            (Qle_bool 5 sceneDuration) (hasNearbyFriend segments s0 e0).

Definition sceneStep (videoDuration : Q) (bufferSeconds : Z)
    (segments : list Segment) (scene : Scenery) : list Segment :=
  let sceneTime := timeOr0 (scene_timestamp scene) in
  let sceneDuration := JS.numOr (stayDuration scene) 5 in
  let isHQ := Qle_bool 5 sceneDuration in
  match updateFirst (covers sceneTime) (markScenery isHQ) segments with
  | Some segments' => segments'
  | None =>
      segments ++ [sceneSegment videoDuration bufferSeconds segments
                                sceneTime sceneDuration]
  end.

Definition ensureSceneryInHighlights (scenery : list Scenery)
    (highlightTimestamps : list Segment) (videoDuration : Q)
    (bufferSeconds : Z) : list Segment :=
  match scenery with
  | [] => highlightTimestamps
  | _ =>
      mergeOverlappingSegments
        (sortBy byStart
           (fold_left (sceneStep videoDuration bufferSeconds)
                      (filter (staysAtLeast 3) scenery) highlightTimestamps))
  end.

Definition plainSegment (videoDuration : Q) (bufferSeconds : Z) (t : Z)
    (clipDuration : Q) (src : string) : Segment :=
  mkSegment (stamp (inject_Z (newSegStart t bufferSeconds)))
            (stamp (newSegEnd videoDuration t clipDuration))
            (Some src) None None false false.

Definition foodStep (videoDuration : Q) (bufferSeconds : Z)
    (segments : list Segment) (habit : Habit) : list Segment :=
  match habit_timestamp habit with
  | None => segments
  | Some foodTime =>
      if existsb (covers foodTime) segments then segments
      else segments ++ [plainSegment videoDuration bufferSeconds foodTime 3 "food"]
  end.

Definition ensureFoodInHighlights (dietaryHabits : list Habit)
    (highlightTimestamps : list Segment) (videoDuration : Q)
    (bufferSeconds : Z) : list Segment :=
  match dietaryHabits with
  | [] => highlightTimestamps
  | _ =>
      mergeOverlappingSegments
        (sortBy byStart
           (fold_left (foodStep videoDuration bufferSeconds)
                      dietaryHabits highlightTimestamps))
  end.

Definition alertClip (alert : Alert) : Q :=
  if String.eqb (alert_type alert) "danger" then 4 else 3.

Definition safetyStep (videoDuration : Q) (bufferSeconds : Z)
    (segments : list Segment) (alert : Alert) : list Segment :=
  match alert_timestamp alert with
  | None => segments
  | Some alertTime =>
      if existsb (covers alertTime) segments then segments
      else segments ++ [plainSegment videoDuration bufferSeconds alertTime
                                     (alertClip alert) "safety"]
  end.

Definition ensureSafetyAlertsInHighlights (safetyAlerts : list Alert)
    (highlightTimestamps : list Segment) (videoDuration : Q)
    (bufferSeconds : Z) : list Segment :=
  match safetyAlerts with
  | [] => highlightTimestamps
  | _ =>
      mergeOverlappingSegments
        (sortBy byStart
           (fold_left (safetyStep videoDuration bufferSeconds)
                      safetyAlerts highlightTimestamps))
  end.

(* ================================================================== *)
(** ** Budget trims and scenery fallback of [processVideo] *)
(* ================================================================== *)

Definition MAX_HIGHLIGHT_DURATION : Z := 120.

(** *** Stage 1: trim of the raw candidates by enhanced score *)

(** [f.timestamps?.map(t => timeToSeconds(t.time)) || [timeToSeconds(f.timestamp)]]. *)
Definition friendTimesOf (f : Friend) : list Z :=
  match friend_timestamps f with
  | Some l => map (fun t => timeOr0 (ts_time t)) l
  | None => [timeOr0 (friend_timestamp f)]
  end.

(** [friendTimes]: the [.filter(Boolean)] drops the times equal to zero. *)
Definition friendTimes (friends : list Friend) : list Z :=
  filter (fun t => negb (t =? 0)) (flat_map friendTimesOf friends).

Definition highQualitySceneryTimes (scenery : list Scenery) : list Z :=
  map (fun s => timeOr0 (scene_timestamp s)) (filter (staysAtLeast 5) scenery).

Definition coversImportantContent (a : Analysis) (clip : Segment) : bool :=
  existsb (fun t => covers t clip) (friendTimes (friends a))
  || existsb (fun t => covers t clip) (highQualitySceneryTimes (scenery a)).

Definition getEnhancedScore (a : Analysis) (clip : Segment) : Q :=
  if coversImportantContent a clip
  then (scoreOr0 (score clip) + 50)%Q
  else scoreOr0 (score clip).

(** Comparator [(a, b) => getEnhancedScore(b) - getEnhancedScore(a)]. *)
Definition byEnhancedScore (a : Analysis) (x y : Segment) : bool :=
  JS.Qltb (getEnhancedScore a x) (getEnhancedScore a y).

Definition stage1Step (st : list Segment * Z) (clip : Segment) : list Segment * Z :=
  let '(kept, currentDuration) := st in
  let clipDuration := end_ clip - start clip in
  if currentDuration + clipDuration <=? 120
  then (kept ++ [clip], currentDuration + clipDuration)
  else st.

Definition stage1 (a : Analysis) (highlights : list Segment) : list Segment :=
  if 120 <? calculateDuration highlights then
    sortBy byStart
      (fst (fold_left stage1Step (sortBy (byEnhancedScore a) highlights) ([], 0)))
  else highlights.

(** *** Cap on unrealistic dwell values *)

Definition capStay (scene : Scenery) : Scenery :=
  match stayDuration scene with
  | Some d =>
      if JS.Qltb 15 d
      then mkScenery (scene_timestamp scene) (Some 15%Q) (scene_isNearFriend scene)
      else scene
  | None => scene
  end.

(** *** Stage 2: priority trim with compression *)

Definition getPriority (clip : Segment) : Z :=
  if JS.srcIs (source clip) "safety" then 100
  else if JS.srcIs (source clip) "friend+scenery" then 95
  else if JS.srcIs (source clip) "scenery" && isNearFriend clip then 85
  else if JS.srcIs (source clip) "friend" then 80
  else if JS.srcIs (source clip) "scenery" && isHighQuality clip then 75
  else if JS.srcIs (source clip) "food" then 60
  else if JS.srcIs (source clip) "scenery" then 50
  else if Qle_bool 15 (scoreOr0 (score clip)) then 30
  else if Qle_bool 10 (scoreOr0 (score clip)) then 20
  else 10.

(** Comparator [(a, b) => getPriority(b) - getPriority(a)]. *)
Definition byPriority (x y : Segment) : bool := getPriority x <? getPriority y.

Record TrimState : Type := mkTrimState {
  kept : list Segment;
  currentDuration : Z;
  friendsIncluded : list string
}.

(** [friendsIncluded.has(clip.friendName)]. *)
Definition hasName (names : list string) (o : option string) : bool :=
  match o with
  | Some n => existsb (String.eqb n) names
  | None => false
  end.

Definition addName (names : list string) (o : option string) : list string :=
  match o with
  | Some n => if JS.truthy o then n :: names else names
  | None => names
  end.

Definition isOnlyFriendClip (names : list string) (clip : Segment) : bool :=
  JS.srcIs (source clip) "friend" && JS.truthy (friendName clip)
  && negb (hasName names (friendName clip)).

(** [clip.end = secondsToTime(timeToSeconds(clip.start) + Math.max(3, remaining))]. *)
Definition compress (clip : Segment) (remaining : Z) : Segment :=
  setEnd clip (stamp (inject_Z (start clip + Z.max 3 remaining))).

(** One iteration of [for (const clip of sorted)]: the clip after the
    compression block and the duration it is charged for. *)
Definition compressed (st : TrimState) (clip : Segment) : Segment * Z :=
  let clipDuration := end_ clip - start clip in
  let only := isOnlyFriendClip (friendsIncluded st) clip in
  if MAX_HIGHLIGHT_DURATION <? currentDuration st + clipDuration then
    let remaining := MAX_HIGHLIGHT_DURATION - currentDuration st in
    if JS.srcIs (source clip) "safety" && (3 <=? remaining)
    then (compress clip remaining, remaining)
    else if only then
      if 3 <=? remaining then (compress clip remaining, remaining)
      else (clip, clipDuration)
    else (clip, clipDuration)
  else (clip, clipDuration).

Definition trimStep (st : TrimState) (clip : Segment) : TrimState :=
  let only := isOnlyFriendClip (friendsIncluded st) clip in
  let '(clip', clipDuration) := compressed st clip in
  if (currentDuration st + clipDuration <=? MAX_HIGHLIGHT_DURATION)
     || (only && (currentDuration st + clipDuration <=? MAX_HIGHLIGHT_DURATION + 5))
  then mkTrimState (kept st ++ [clip'])
                   (currentDuration st + clipDuration)
                   (addName (friendsIncluded st) (friendName clip'))
  else st.

Definition stage2 (highlights : list Segment) : list Segment :=
  if MAX_HIGHLIGHT_DURATION <? calculateDuration highlights then
    sortBy byStart
      (kept (fold_left trimStep (sortBy byPriority highlights)
                       (mkTrimState [] 0 [])))
  else highlights.

(** *** Scenery zero-coverage fallback *)

(** Comparator of the fallback: near-subject moments first, then the
    longest dwell. *)
Definition byBestScene (x y : Scenery) : bool :=
  if negb (Bool.eqb (scene_isNearFriend y) (scene_isNearFriend x))
  then scene_isNearFriend y && negb (scene_isNearFriend x)
  else JS.Qltb (JS.numOr (stayDuration x) 0) (JS.numOr (stayDuration y) 0).

Definition fallbackSegment (videoDuration : Q) (bestScene : Scenery)
  : Segment * Q :=
  let t := timeOr0 (scene_timestamp bestScene) in
  let clipLen := Qmin (JS.numOr (stayDuration bestScene) 3) 5 in
  let s0 := newSegStart t 2 in
  let e0 := newSegEnd videoDuration t clipLen in
  (mkSegment (stamp (inject_Z s0)) (stamp e0) (Some "scenery"%string)
             None None true false,
   (e0 - inject_Z s0)%Q).

Definition sceneryFallback (scenery : list Scenery) (videoDuration : Q)
    (highlights : list Segment) : list Segment :=
  let significantScenery := filter (staysAtLeast 3) scenery in
  let hasSceneryCoverage :=
    existsb (fun scene =>
               existsb (covers (timeOr0 (scene_timestamp scene))) highlights)
            significantScenery in
  match sortBy byBestScene significantScenery with
  | [] => highlights
  | bestScene :: _ =>
      if hasSceneryCoverage then highlights
      else
        let '(seg, len) := fallbackSegment videoDuration bestScene in
        if Qle_bool (inject_Z (calculateDuration highlights) + len)
                    (inject_Z (MAX_HIGHLIGHT_DURATION + 5))
        then sortBy byStart (highlights ++ [seg])
        else highlights
  end.

(** *** The highlight part of [processVideo] *)

(** The clip list after the four coverage passes. *)
Definition coveredHighlights (a : Analysis) (videoDuration : Q) : list Segment :=
  let h0 := stage1 a (highlightTimestamps a) in
  let scenery' := map capStay (scenery a) in
  let h1 := ensureFriendsInHighlights (friends a) h0 videoDuration 3 in
  let h2 := ensureSceneryInHighlights scenery' h1 videoDuration 2 in
  let h3 := ensureFoodInHighlights (dietaryHabits a) h2 videoDuration 1 in
  ensureSafetyAlertsInHighlights (safetyAlerts a) h3 videoDuration 1.

(** The clip list after the final budget trim. *)
Definition trimmedHighlights (a : Analysis) (videoDuration : Q) : list Segment :=
  stage2 (coveredHighlights a videoDuration).

(** The final cut stored in [analysisData.highlightTimestamps]. *)
Definition finalHighlights (a : Analysis) (videoDuration : Q) : list Segment :=
  sceneryFallback (map capStay (scenery a)) videoDuration
                  (trimmedHighlights a videoDuration).

(* ================================================================== *)
(** ** Timeline mapper *)
(* ================================================================== *)

Fixpoint mapLoop (t : Z) (highlightOffset : Z) (segs : list Segment)
  : option Z :=
  match segs with
  | [] => None
  | seg :: rest =>
      if covers t seg
      then Some (stamp (inject_Z (highlightOffset + (t - start seg))))
      else mapLoop t (highlightOffset + (end_ seg - start seg)) rest
  end.

(** [mapToHighlightTime]; [None] is [null]. *)
Definition mapToHighlightTime (originalTime : Z)
    (highlightTimestamps : list Segment) : option Z :=
  mapLoop originalTime 0 highlightTimestamps.

(** An annotation item seen through its time field, its original-time
    sibling and the [isMapped] marker; [payload] stands for the fields the
    rewrite copies unchanged. *)
Record Item (P : Type) : Type := mkItem {
  timeField : option Z;
  originalField : option Z;
  isMapped : bool;
  payload : P
}.
Arguments mkItem {P}.
Arguments timeField {P}.
Arguments originalField {P}.
Arguments isMapped {P}.
Arguments payload {P}.

(** [item[originalField] || item[timeField]] for an item whose time field
    is present. *)
Definition sourceTime {P} (item : Item P) (t : Z) : Z :=
  match originalField item with
  | Some o => o
  | None => t
  end.

Definition mapItem {P} (highlights : list Segment) (item : Item P)
  : option (Item P) :=
  match timeField item with
  | None => None
  | Some t =>
      match mapToHighlightTime (sourceTime item t) highlights with
      | None => None
      | Some mappedTime =>
          Some (mkItem (Some mappedTime) (Some (sourceTime item t)) true
                       (payload item))
      end
  end.

Fixpoint filterMap {A B} (f : A -> option B) (l : list A) : list B :=
  match l with
  | [] => []
  | x :: l' =>
      match f x with
      | Some y => y :: filterMap f l'
      | None => filterMap f l'
      end
  end.

Definition mapAndFilterForHighlight {P} (arr : list (Item P))
    (highlights : list Segment) : list (Item P) :=
  match highlights with
  | [] => []
  | _ => filterMap (mapItem highlights) arr
  end.

(* ================================================================== *)
(** ** Signal normalizer: the mood curve *)
(* ================================================================== *)

(** A number read from untrusted text: [NaN] or a finite value. *)
Inductive Num : Type :=
| NaN
| Fin (q : Q).

(** A raw mood entry.  [mood_name] is what [timeToSeconds] reads from the
    [name] text ([None] when the text is missing or empty, so that
    ["0:00"] is used); [mood_value] is [Number(value)] ([None] when the
    value is [null] or [undefined], so that 50 is used). *)
Record MoodItem : Type := mkMoodItem {
  mood_name : option Num;
  mood_value : option Num
}.

(** A cleaned control point [{ sec, value }]. *)
Record Point : Type := mkPoint {
  sec : Z;
  value : Z
}.

(** An output sample [{ name: secondsToTime(sec), value }]. *)
Record MoodSample : Type := mkMoodSample {
  sample_name : Z;
  sample_value : Z
}.

Definition safeDurationOf (videoDuration : Q) : Z :=
  Z.max 1 (JS.round videoDuration).

(** The [.map] and [.filter] of [cleaned]: an entry whose time or value is
    not finite is dropped. *)
Definition cleanItem (safeDuration : Z) (item : MoodItem) : option Point :=
  let rawSec := match mood_name item with Some n => n | None => Fin 0 end in
  let rawValue := match mood_value item with Some n => n | None => Fin 50 end in
  match rawSec, rawValue with
  | Fin s, Fin v =>
      Some (mkPoint (JS.clamp (JS.round s) 0 safeDuration)
                    (JS.clamp (JS.round v) 0 100))
  | _, _ => None
  end.

Definition bySec (a b : Point) : bool := sec b <? sec a.

Definition cleaned (safeDuration : Z) (moodData : list MoodItem) : list Point :=
  sortBy bySec (filterMap (cleanItem safeDuration) moodData).

(** [Map.prototype.set] on an insertion-ordered map. *)
Fixpoint mapSet (k v : Z) (m : list (Z * Z)) : list (Z * Z) :=
  match m with
  | [] => [(k, v)]
  | (k', v') :: m' =>
      if k' =? k then (k', v) :: m' else (k', v') :: mapSet k v m'
  end.

Definition deduped (pts : list Point) : list (Z * Z) :=
  fold_left (fun m p => mapSet (sec p) (value p) m) pts [].

Definition dedupedPoints (pts : list Point) : list Point :=
  sortBy bySec (map (fun e => mkPoint (fst e) (snd e)) (deduped pts)).

(** The lower boundary: [unshift] a point at 0 or pin the first one. *)
Definition fixFirst (points : list Point) : list Point :=
  match points with
  | [] => []
  | p :: rest =>
      if 0 <? sec p then mkPoint 0 (value p) :: p :: rest
      else mkPoint 0 (value p) :: rest
  end.

(** The upper boundary: [push] a point at [safeDuration] or pin the last. *)
Definition fixLast (safeDuration : Z) (points : list Point) : list Point :=
  match rev points with
  | [] => []
  | p :: before =>
      if sec p <? safeDuration
      then points ++ [mkPoint safeDuration (value p)]
      else rev before ++ [mkPoint safeDuration (value p)]
  end.

Definition controlPoints (safeDuration : Z) (moodData : list MoodItem)
  : list Point :=
  match dedupedPoints (cleaned safeDuration moodData) with
  | [] => [mkPoint 0 50; mkPoint safeDuration 50]
  | points => fixLast safeDuration (fixFirst points)
  end.

Fixpoint interpolateLoop (leftP : Point) (rest : list Point) (targetSec : Z) : Q :=
  match rest with
  | [] => inject_Z (value leftP)
  | rightP :: rest' =>
      if targetSec <=? sec rightP then
        let span := sec rightP - sec leftP in
        if span <=? 0 then inject_Z (value rightP)
        else
          let ratio := (inject_Z (targetSec - sec leftP) / inject_Z span)%Q in
          (inject_Z (value leftP) + inject_Z (value rightP - value leftP) * ratio)%Q
      else interpolateLoop rightP rest' targetSec
  end.

Definition interpolateMoodValue (points : list Point) (targetSec : Z) : Q :=
  match points with
  | [] => 50%Q
  | [p] => inject_Z (value p)
  | p :: rest =>
      if targetSec <=? sec p then inject_Z (value p)
      else interpolateLoop p rest targetSec
  end.

Definition targetCountOf (safeDuration : Z) : Z :=
  JS.clamp (JS.round (inject_Z safeDuration / 12)) 20 30.

(** The time of the [i]-th sample of the grid. *)
Definition gridSec (safeDuration targetCount i : Z) : Z :=
  if i =? targetCount - 1 then safeDuration
  else JS.round (inject_Z (i * safeDuration) / inject_Z (targetCount - 1)).

Definition sampleAt (points : list Point) (safeDuration targetCount : Z)
    (i : nat) : MoodSample :=
  let s := gridSec safeDuration targetCount (Z.of_nat i) in
  mkMoodSample (stamp (inject_Z s))
               (JS.clamp (JS.round (interpolateMoodValue points s)) 0 100).

Definition normalizeMoodData (moodData : list MoodItem) (videoDuration : Q)
  : list MoodSample :=
  let safeDuration := safeDurationOf videoDuration in
  let points := controlPoints safeDuration moodData in
  let targetCount := targetCountOf safeDuration in
  map (sampleAt points safeDuration targetCount)
      (seq 0 (Z.to_nat targetCount)).

(* ================================================================== *)
(** ** Time stamps as text *)
(* ================================================================== *)

Module Text.

Definition digitChar (d : Z) : ascii := ascii_of_nat (48 + Z.to_nat d).

Definition digitVal (c : ascii) : option Z :=
  let n := Z.of_nat (nat_of_ascii c) in
  if (48 <=? n) && (n <=? 57) then Some (n - 48) else None.

Fixpoint showDigits (fuel : nat) (n : Z) (acc : string) : string :=
  match fuel with
  | O => acc
  | S fuel' =>
      if n <? 10 then String (digitChar n) acc
      else showDigits fuel' (n / 10) (String (digitChar (n mod 10)) acc)
  end.

(** Decimal text of a non-negative integer. *)
Definition showNat (n : Z) : string :=
  showDigits (S (Z.to_nat (Z.log2 n))) n EmptyString.

(** [Number.prototype.toString] on an integer. *)
Definition toString (n : Z) : string :=
  if n <? 0 then String "-"%char (showNat (- n)) else showNat n.

(** [s.padStart(2, '0')]. *)
Definition padStart2 (s : string) : string :=
  match s with
  | EmptyString => "00"%string
  | String c EmptyString => String "0"%char s
  | _ => s
  end.

(** [secondsToTime]. *)
Definition secondsToTime (totalSeconds : Q) : string :=
  let m := Qfloor (totalSeconds / 60) in
  let s := Qfloor (JS.rem60 totalSeconds) in
  (toString m ++ ":" ++ padStart2 (toString s))%string.

Fixpoint readDigits (acc : Z) (s : string) : option Z :=
  match s with
  | EmptyString => Some acc
  | String c s' =>
      match digitVal c with
      | Some d => readDigits (10 * acc + d) s'
      | None => None
      end
  end.

(** [Number(text)] on the numerals that time stamps are made of: an
    optional minus sign and decimal digits; the empty text reads as 0 and
    any other text as [NaN] ([None]). *)
Definition Number (s : string) : option Z :=
  match s with
  | EmptyString => Some 0
  | String c s' =>
      if Ascii.eqb c "-"%char then
        match s' with
        | EmptyString => None
        | _ => option_map Z.opp (readDigits 0 s')
        end
      else readDigits 0 s
  end.

(** [s.split(':')]. *)
Fixpoint split (s : string) : list string :=
  match s with
  | EmptyString => [EmptyString]
  | String c s' =>
      match split s' with
      | [] => []
      | p :: ps =>
          if Ascii.eqb c ":"%char then EmptyString :: p :: ps
          else String c p :: ps
      end
  end.

(** [timeToSeconds]; [None] is [NaN]. *)
Definition timeToSeconds (timeStr : string) : option Z :=
  if String.eqb timeStr EmptyString then Some 0
  else
    match map Number (split timeStr) with
    | [Some a; Some b] => Some (a * 60 + b)
    | [_; _] => None
    | Some a :: _ => Some a
    | _ => None
    end.

(** Every character is a decimal digit. *)
Fixpoint allDigits (s : string) : bool :=
  match s with
  | EmptyString => true
  | String c s' => isSome (digitVal c) && allDigits s'
  end.

(** No character is a colon. *)
Fixpoint noColon (s : string) : bool :=
  match s with
  | EmptyString => true
  | String c s' => negb (Ascii.eqb c ":"%char) && noColon s'
  end.

End Text.

(* ================================================================== *)
(** ** Predicates on clip lists and worked inputs *)
(* ================================================================== *)

Definition startLe (a b : Segment) : Prop := start a <= start b.

(** Sorted ascending by start. *)
Definition sortedByStart (l : list Segment) : Prop := StronglySorted startLe l.

(** The spans of two clips share no instant. *)
Definition disjoint (a b : Segment) : Prop :=
  forall t, covers t a = true -> covers t b = true -> False.

Definition NonOverlapping (l : list Segment) : Prop := ForallOrdPairs disjoint l.



(** [b] starts more than 2 seconds after [a] ends. *)
Definition gapBefore (a b : Segment) : Prop := end_ a + 2 < start b.

(** A well-formed time span. *)
Definition wellFormed (s : Segment) : Prop := start s <= end_ s.

(** A raw candidate [{ start, end }]. *)
Definition candidate (s e : Z) : Segment :=
  mkSegment s e None None None false false.

(** Scenario 1 of the specification: one candidate 0:00-0:10, one
    occurrence of a recurring subject at 1:00 lasting 4 seconds. *)
Definition scenarioOne : Analysis :=
  mkAnalysis [candidate 0 10]
             [mkFriend "Rex" (Some [mkOccurrence (Some 60) (Some 4%Q)]) None None]
             [] [] [].

(** Twenty-five danger alerts, ten seconds apart, from 0:10 to 4:10. *)
Definition manyAlerts : Analysis :=
  mkAnalysis [] [] [] []
    (map (fun k => mkAlert (Some (10 * Z.of_nat k)) "danger") (seq 1 25)).


(** Eighteen danger alerts seven seconds apart from 0:01 to 2:00 and one
    scenery moment at 2:01 with a dwell of 3 seconds. *)
Definition alertsThenScenery : Analysis :=
  mkAnalysis [] []
    [mkScenery (Some 121) (Some 3%Q) false] []
    (map (fun k => mkAlert (Some (1 + 7 * Z.of_nat k)) "danger") (seq 0 18)).

(** A safety clip followed within the tolerance by a clip of subject "Rex". *)
Definition safetyClip : Segment :=
  mkSegment 11 16 (Some "safety"%string) None None false false.

Definition rexClip : Segment :=
  mkSegment 17 25 (Some "friend"%string) None (Some "Rex"%string) false false.

(** The same two clips as they arise in the pipeline: a danger alert at
    0:12 and an occurrence of "Rex" at 0:20. *)
Definition alertBeforeRex : Analysis :=
  mkAnalysis []
             [mkFriend "Rex" (Some [mkOccurrence (Some 20) (Some 5%Q)]) None None]
             [] []
             [mkAlert (Some 12) "danger"].



(** A clip list in the merger's normal form. *)
Definition Canonical (l : list Segment) : Prop :=
  sortedByStart l /\ ForallOrdPairs gapBefore l.


(** The bookkeeping invariant of the Stage 2 loop. *)
Definition trimInv (st : TrimState) : Prop :=
  calculateDuration (kept st) <= currentDuration st
  /\ currentDuration st <= MAX_HIGHLIGHT_DURATION + 5.

(** Some clip of the list spans the instant [t]. *)
Definition covered (t : Z) (l : list Segment) : Prop :=
  existsb (covers t) l = true.

(** An occurrence of "Rex" at 1:40, beyond the end of a 90-second video. *)
Definition lateRex : Friend :=
  mkFriend "Rex" (Some [mkOccurrence (Some 100) (Some 4%Q)]) None None.

(** Inputs of the three coverage passes used as a worked example: a
    subject at 1:00 for 4 seconds, a scenery moment at 0:30 with a dwell of
    4 seconds, a danger alert at 1:20. *)
Definition rexAtOneMinute : Friend :=
  mkFriend "Rex" (Some [mkOccurrence (Some 60) (Some 4%Q)]) None None.


Definition dangerAtEighty : Alert := mkAlert (Some 80) "danger".

(** The value of the last point of [pts] at second [k], if any. *)
Definition lastValue (k : Z) (pts : list Point) : option Z :=
  fold_left (fun acc p => if sec p =? k then Some (value p) else acc) pts None.

(** [Map.prototype.get]. *)
Definition mapGet (k : Z) (m : list (Z * Z)) : option Z :=
  match find (fun e => fst e =? k) m with
  | Some e => Some (snd e)
  | None => None
  end.

Definition secLe (a b : Point) : Prop := sec a <= sec b.
Definition secLt (a b : Point) : Prop := sec a < sec b.

(** Scenario 4 of the specification: one mood point of value 80 at 0:30. *)
Definition moodAtThirty : list MoodItem :=
  [mkMoodItem (Some (Fin 30)) (Some (Fin 80))].

(** A mood list whose only entry has an unreadable time. *)
Definition moodUnreadable : list MoodItem :=
  [mkMoodItem (Some NaN) (Some (Fin 80))].

(** A time text in hours form and clips used as worked examples below. *)
Definition threeFieldText : string := "1:02:03".

Definition twoOverlapping : list Segment := [candidate 0 10; candidate 8 20].

(** A feeding event at 0:40. *)
Definition feedingAtForty : Habit := mkHabit (Some 40).

(** A clip of subject "Rex" from 0:57 to 1:04, a scenery moment at 1:00
    with a dwell of 6 seconds inside it. *)
Definition rexWindow : list Segment :=
  [candidate 0 10;
   mkSegment 57 64 (Some "friend"%string) None (Some "Rex"%string) false false].

Definition viewInsideRex : Scenery := mkScenery (Some 60) (Some 6%Q) false.

(** Thirteen raw candidates of 10 seconds each, 130 seconds in all, the
    last one tagged safety. *)
Definition thirteenClips : list Segment :=
  map (fun k => candidate (20 * Z.of_nat k) (20 * Z.of_nat k + 10)) (seq 0 12)
  ++ [mkSegment 240 250 (Some "safety"%string) None None false false].

(** The span of a clip. *)
Definition span (s : Segment) : Z * Z := (start s, end_ s).

(* ================================================================== *)
(** ** Rewrites of [processVideo] and of [migrateSessions] *)
(* ================================================================== *)

(** [mapArrayNoFilter] of [migrateSessions] on one item: an item that has
    a time and no marker is mapped in place when its time is in the cut. *)
Definition migrateItem {P} (highlights : list Segment) (item : Item P)
  : Item P :=
  match timeField item with
  | None => item
  | Some t =>
      if isMapped item then item
      else match mapToHighlightTime t highlights with
           | Some mappedTime =>
               mkItem (Some mappedTime) (originalField item) true (payload item)
           | None => item
           end
  end.

Definition mapArrayNoFilter {P} (arr : list (Item P))
    (highlights : list Segment) : list (Item P) :=
  map (migrateItem highlights) arr.

(** The rewrite of a recurring subject in [processVideo]: the original
    time is kept in the sibling field, the time becomes the mapped time
    ([None] when it is not in the cut) and the marker is set. *)
Definition rewriteFriend {P} (highlights : list Segment) (item : Item P)
  : Item P :=
  mkItem (mapToHighlightTime (timeOr0 (timeField item)) highlights)
         (timeField item) true (payload item).

(** A narrative segment (a subtitle). *)
Record Narrative : Type := mkNarrative {
  narr_timestamp : option Z;
  narr_originalTime : option Z;
  narr_inHighlight : bool;
  narr_isMapped : bool;
  narr_text : string
}.

(** The rewrite of a narrative segment in [processVideo]:
    [timestamp: mappedTime || seg.timestamp]. *)
Definition rewriteNarrative (highlights : list Segment) (seg : Narrative)
  : Narrative :=
  let mappedTime := mapToHighlightTime (timeOr0 (narr_timestamp seg)) highlights in
  mkNarrative (match mappedTime with
               | Some m => Some m
               | None => narr_timestamp seg
               end)
              (narr_timestamp seg)
              (isSome mappedTime)
              true
              (narr_text seg).

(** The same rewrite in [migrateSessions], behind the marker. *)
Definition migrateNarrative (highlights : list Segment) (seg : Narrative)
  : Narrative :=
  if narr_isMapped seg then seg else rewriteNarrative highlights seg.

(** [migrateSessions] skips a session whose cut is empty. *)
Definition migrateNarratives (highlights : list Segment)
    (segs : list Narrative) : list Narrative :=
  match highlights with
  | [] => segs
  | _ => map (migrateNarrative highlights) segs
  end.

(** Worked inputs for the rewrites. *)
Definition sceneryNearTheEnd : list Scenery :=
  [mkScenery (Some 80) (Some 4%Q) false].

(* ================================================================== *)
(** ** Signal normalizer: the timeline *)
(* ================================================================== *)

Definition ALLOWED_TIMELINE_ICONS : list string :=
  ["visibility"; "pets"; "directions_walk"; "directions_run"; "favorite";
   "explore"; "speed"; "park"; "home"; "restaurant"; "bolt"; "terrain";
   "forest"; "brush"; "groups"; "stairs"; "waves"; "search"; "wb_sunny";
   "nightlight_round"; "sports_score"; "trending_up"; "trending_down";
   "straighten"; "room"; "auto_fix_high"; "grass"; "meeting_room"; "roofing";
   "south"; "error"; "timeline"]%string.

(** [ALLOWED_TIMELINE_ICONS.has(icon)]. *)
Definition allowedIcon (icon : string) : bool :=
  existsb (String.eqb icon) ALLOWED_TIMELINE_ICONS.

(** A [Set<number>], in insertion order. *)
Definition setHas (x : Z) (s : list Z) : bool := existsb (Z.eqb x) s.

Definition setAdd (x : Z) (s : list Z) : list Z :=
  if setHas x s then s else s ++ [x].

(** The comparator [(a, b) => a - b]. *)
Definition byNumber (a b : Z) : bool := b <? a.

(** The [while (result.length < target)] loop of [pickEvenIndices];
    [None] when the loop is still running after [fuel] steps. *)
Fixpoint fillLoop (fuel : nat) (cursor target : Z) (indices result : list Z)
  {struct fuel} : option (list Z) :=
  if Z.of_nat (List.length result) <? target then
    match fuel with
    | O => None
    | S fuel' =>
        if setHas cursor indices
        then fillLoop fuel' (cursor + 1) target indices result
        else fillLoop fuel' (cursor + 1) target
                      (setAdd cursor indices) (result ++ [cursor])
    end
  else Some result.

Definition evenIndex (length target i : Z) : Z :=
  JS.round (inject_Z (i * (length - 1)) / inject_Z (target - 1)).

Definition pickEvenIndices (length target : Z) : option (list Z) :=
  if (target <=? 0) || (length <=? 0) then Some []
  else if length <=? target
  then Some (map Z.of_nat (seq 0 (Z.to_nat length)))
  else
    let indices :=
      fold_left (fun s i => setAdd (evenIndex length target (Z.of_nat i)) s)
                (seq 1 (Z.to_nat (target - 2)))
                (setAdd (length - 1) [0]) in
    let result := sortBy byNumber indices in
    match fillLoop (Z.to_nat length) 0 target indices result with
    | Some result' =>
        Some (firstn (Z.to_nat target) (sortBy byNumber result'))
    | None => None
    end.

Definition timelineLabelFromMood (value : Z) : string * string :=
  if 85 <=? value then ("Zoomies Peak", "speed")%string
  else if 70 <=? value then ("Play Burst", "directions_run")%string
  else if 55 <=? value then ("Curious Patrol", "explore")%string
  else if 40 <=? value then ("Steady Cruise", "directions_walk")%string
  else ("Quiet Reset", "home")%string.

(** A raw timeline entry.  [raw_time] is what [timeToSeconds] reads from
    the [time] text ([None] when the text is missing or empty, so that
    ["0:00"] is used); [raw_label] and [raw_icon] are [None] when the field
    is missing. *)
Record RawEntry : Type := mkRawEntry {
  raw_time : option Num;
  raw_label : option string;
  raw_icon : option string
}.

(** A working entry [{ sec, label, icon }]. *)
Record Entry : Type := mkEntry {
  entry_sec : Z;
  entry_label : string;
  entry_icon : string
}.

(** An output entry [{ time: secondsToTime(sec), label, icon }]. *)
Record TimelineEntry : Type := mkTimelineEntry {
  tl_time : Z;
  tl_label : string;
  tl_icon : string
}.

Definition bySecOfEntry (a b : Entry) : bool := entry_sec b <? entry_sec a.

(** [dedupedMap.set(entry.sec, entry)] on an insertion-ordered map. *)
Fixpoint entrySet (e : Entry) (m : list Entry) : list Entry :=
  match m with
  | [] => [e]
  | x :: m' =>
      if entry_sec x =? entry_sec e then e :: m' else x :: entrySet e m'
  end.

(** [entries[i]]. *)
Definition entryAt (entries : list Entry) (i : Z) : option Entry :=
  if i <? 0 then None else nth_error entries (Z.to_nat i).

(** [indices.map(i => entries[i])]; [None] when an index has no entry. *)
Fixpoint selectAt (entries : list Entry) (indices : list Z)
  : option (list Entry) :=
  match indices with
  | [] => Some []
  | i :: indices' =>
      match entryAt entries i, selectAt entries indices' with
      | Some e, Some es => Some (e :: es)
      | _, _ => None
      end
  end.

(** [if (entries.length > 20) entries = pickEvenIndices(...).map(...)]. *)
Definition thin (entries : list Entry) : option (list Entry) :=
  if 20 <? Z.of_nat (List.length entries) then
    match pickEvenIndices (Z.of_nat (List.length entries)) 20 with
    | Some indices => selectAt entries indices
    | None => None
    end
  else Some entries.

Definition secExistsNearby (entries : list Entry) (sec threshold : Z) : bool :=
  existsb (fun e => Z.abs (entry_sec e - sec) <=? threshold) entries.

Definition interest (point : MoodSample) : Z := Z.abs (sample_value point - 50).

(** The comparator [(a, b) => interestB - interestA]. *)
Definition byInterest (a b : MoodSample) : bool := interest a <? interest b.

Definition storyBeat (entries : list Entry) : string :=
  String.append "Story Beat "%string
                (Text.toString (Z.of_nat (List.length entries) + 1)).

(** The backfill from the mood signal; the mood data is the normalized
    curve, as [processVideo] passes it. *)
Fixpoint backfill (safeDuration targetCount : Z) (candidates : list MoodSample)
    (entries : list Entry) : list Entry :=
  match candidates with
  | [] => entries
  | candidate :: rest =>
      if targetCount <=? Z.of_nat (List.length entries) then entries
      else if (sample_name candidate <? 0)
              || (safeDuration <? sample_name candidate)
      then backfill safeDuration targetCount rest entries
      else if secExistsNearby entries (sample_name candidate) 12
      then backfill safeDuration targetCount rest entries
      else
        let moodTag := timelineLabelFromMood (sample_value candidate) in
        backfill safeDuration targetCount rest
                 (entries ++ [mkEntry (sample_name candidate)
                                      (fst moodTag) (snd moodTag)])
  end.

(** The filler loop, at most 300 attempts. *)
Fixpoint fillerLoop (attemptsLeft : nat) (safeDuration fillerIndex : Z)
    (entries : list Entry) : list Entry :=
  match attemptsLeft with
  | O => entries
  | S attemptsLeft' =>
      if Z.of_nat (List.length entries) <? 15 then
        let sec := JS.round (inject_Z (fillerIndex * safeDuration) / 15) in
        if secExistsNearby entries sec 8
        then fillerLoop attemptsLeft' safeDuration (fillerIndex + 1) entries
        else fillerLoop attemptsLeft' safeDuration (fillerIndex + 1)
                        (entries ++ [mkEntry sec (storyBeat entries)
                                             "timeline"%string])
      else entries
  end.

(** The last loop, [while (entries.length < 15)]; [None] when it is still
    running after [fuel] steps. *)
Fixpoint denseLoop (fuel : nat) (safeDuration : Z) (entries : list Entry)
  {struct fuel} : option (list Entry) :=
  if Z.of_nat (List.length entries) <? 15 then
    match fuel with
    | O => None
    | S fuel' =>
        let sec := JS.clamp (Z.of_nat (List.length entries) - 1) 0 safeDuration in
        denseLoop fuel' safeDuration
                  (entries ++ [mkEntry sec (storyBeat entries)
                                       "timeline"%string])
    end
  else Some entries.

Section Timeline.

(** [String.prototype.trim]. *)
Variable trim : string -> string.

Definition labelOf (item : RawEntry) : string :=
  match trim (match raw_label item with Some l => l | None => EmptyString end)
  with
  | EmptyString => "Story Beat"%string
  | l => l
  end.

Definition iconOf (item : RawEntry) : string :=
  match raw_icon item with
  | Some icon => if allowedIcon icon then icon else "timeline"%string
  | None => "timeline"%string
  end.

Definition cleanEntry (safeDuration : Z) (item : RawEntry) : option Entry :=
  match (match raw_time item with Some n => n | None => Fin 0 end) with
  | Fin s =>
      Some (mkEntry (JS.clamp (JS.round s) 0 safeDuration)
                    (labelOf item) (iconOf item))
  | NaN => None
  end.

Definition normalizedEntries (safeDuration : Z) (timeline : list RawEntry)
  : list Entry :=
  sortBy bySecOfEntry (filterMap (cleanEntry safeDuration) timeline).

Definition dedupedEntries (safeDuration : Z) (timeline : list RawEntry)
  : list Entry :=
  sortBy bySecOfEntry
         (fold_left (fun m e => entrySet e m)
                    (normalizedEntries safeDuration timeline) []).

Definition timelineTargetOf (safeDuration : Z) : Z :=
  JS.clamp (JS.round (inject_Z safeDuration / 24)) 15 20.

Definition toTimelineEntry (item : Entry) : TimelineEntry :=
  mkTimelineEntry (stamp (inject_Z (entry_sec item)))
                  (entry_label item) (entry_icon item).

Definition normalizeTimeline (timeline : list RawEntry)
    (moodData : list MoodSample) (videoDuration : Q)
  : option (list TimelineEntry) :=
  let safeDuration := safeDurationOf videoDuration in
  let targetCount := timelineTargetOf safeDuration in
  match thin (dedupedEntries safeDuration timeline) with
  | None => None
  | Some entries =>
      let entries :=
        if Z.of_nat (List.length entries) <? 15
        then backfill safeDuration targetCount (sortBy byInterest moodData)
                      entries
        else entries in
      let entries := fillerLoop 300 safeDuration 1 entries in
      match denseLoop 15 safeDuration entries with
      | None => None
      | Some entries =>
          match thin (sortBy bySecOfEntry entries) with
          | None => None
          | Some entries => Some (map toTimelineEntry entries)
          end
      end
  end.

End Timeline.

(** What every entry of a timeline should satisfy: a time that is not
    negative, an icon of the allowed set and a label that is not empty. *)
Definition goodEntry (e : Entry) : Prop :=
  0 <= entry_sec e
  /\ allowedIcon (entry_icon e) = true
  /\ entry_label e <> EmptyString.

Definition goodTimelineEntry (e : TimelineEntry) : Prop :=
  0 <= tl_time e
  /\ allowedIcon (tl_icon e) = true
  /\ tl_label e <> EmptyString.

Definition entrySecLe (a b : Entry) : Prop := entry_sec a <= entry_sec b.

Definition timeLe (a b : TimelineEntry) : Prop := tl_time a <= tl_time b.

(** Fifteen raw timeline entries, ten seconds apart from 0:00. *)
Definition fifteenBeats : list RawEntry :=
  map (fun k => mkRawEntry (Some (Fin (inject_Z (10 * Z.of_nat k))))
                           (Some "Beat"%string) (Some "pets"%string))
      (seq 0 15).


(** The time an item is mapped from, when it has a time. *)
Definition itemSource {P} (item : Item P) : option Z :=
  match timeField item with
  | Some t => Some (sourceTime item t)
  | None => None
  end.

(** The item's source time is in the cut. *)
Definition inCut {P} (highlights : list Segment) (item : Item P) : bool :=
  match itemSource item with
  | Some t => existsb (covers t) highlights
  | None => false
  end.

(** Ordered by the given reading of the time, where both have one. *)
Definition orderedBy {P} (key : Item P -> option Z) (a b : Item P) : Prop :=
  forall x y, key a = Some x -> key b = Some y -> x <= y.

(** Three items at 0:05, 1:02 and 1:30. *)
Definition threeItems : list (Item string) :=
  [mkItem (Some 5) None false "start"%string;
   mkItem (Some 62) None false "Rex"%string;
   mkItem (Some 90) None false "end"%string].

(** A cut that spans the subject at 1:00, the feeding at 0:40 and the
    alert at 1:20. *)
Definition coveringCut : list Segment :=
  [candidate 0 10; candidate 38 44; candidate 57 64; candidate 78 84].


(** Two candidates, the second one past the end of a 90-second video, and
    an occurrence of "Rex" at 1:40, past the end as well. *)
Definition pastTheEnd : Analysis :=
  mkAnalysis [candidate 0 10; candidate 105 115] [lateRex] [] [] [].

(* ================================================================== *)
(** ** Clips whose time texts may be unreadable *)
(* ================================================================== *)

(** A clip as [processVideo] receives it.  [raw_start] and [raw_end] are
    what [timeToSeconds] reads from the two time texts: a whole number of
    seconds, or [None] for the NaN of a text it cannot read. *)
Record RawSegment : Type := mkRawSegment {
  raw_start : option Z;
  raw_end : option Z;
  raw_source : option string;
  raw_score : option Q;
  raw_friendName : option string;
  raw_isHighQuality : bool;
  raw_isNearFriend : bool
}.

(** The annotation set with such clips as its candidates. *)
Record RawAnalysis : Type := mkRawAnalysis {
  raw_highlightTimestamps : list RawSegment;
  raw_friends : list Friend;
  raw_scenery : list Scenery;
  raw_dietaryHabits : list Habit;
  raw_safetyAlerts : list Alert
}.

Module Raw.

(** The clip when both of its texts are readable. *)
Definition read (r : RawSegment) : option Segment :=
  match raw_start r, raw_end r with
  | Some s, Some e =>
      Some (mkSegment s e (raw_source r) (raw_score r) (raw_friendName r)
                      (raw_isHighQuality r) (raw_isNearFriend r))
  | _, _ => None
  end.

Definition ofSegment (s : Segment) : RawSegment :=
  mkRawSegment (Some (start s)) (Some (end_ s)) (source s) (score s)
               (friendName s) (isHighQuality s) (isNearFriend s).

Fixpoint readAll (l : list RawSegment) : option (list Segment) :=
  match l with
  | [] => Some []
  | r :: l' =>
      match read r, readAll l' with
      | Some s, Some ss => Some (s :: ss)
      | _, _ => None
      end
  end.

(** The annotation set once its candidates are read. *)
Definition asAnalysis (ra : RawAnalysis) (hs : list Segment) : Analysis :=
  mkAnalysis hs (raw_friends ra) (raw_scenery ra) (raw_dietaryHabits ra)
             (raw_safetyAlerts ra).

(** [calculateDuration]: the [reduce] over
    [timeToSeconds(seg.end) - timeToSeconds(seg.start)]; [None] is NaN,
    which every later addition keeps. *)
Definition calculateDuration (segs : list RawSegment) : option Z :=
  fold_left (fun sum seg =>
               match sum, raw_end seg, raw_start seg with
               | Some a, Some e, Some s => Some (a + (e - s))
               | _, _, _ => None
               end)
            segs (Some 0).

(** [x > n] for a number [x] that may be NaN: false on NaN. *)
Definition exceeds (x : option Z) (n : Z) : bool :=
  match x with
  | Some z => n <? z
  | None => false
  end.

(** Stage 1.  With an unreadable text the sum is NaN, the test
    [totalDuration > 120] is false and the candidates are returned as they
    are; when the test succeeds every text was read and the trim is
    [stage1]. *)
Definition stage1 (ra : RawAnalysis) (highlights : list RawSegment)
  : list RawSegment :=
  if exceeds (calculateDuration highlights) 120 then
    match readAll highlights with
    | Some hs => map ofSegment (stage1 (asAnalysis ra hs) hs)
    | None => highlights
    end
  else highlights.

(** A coverage pass.  It returns its input when the class has no event.
    Otherwise it sorts the clips by start; with an unreadable start the
    comparator returns NaN and the order that [Array.prototype.sort]
    leaves is implementation-defined: that case is not modelled
    ([None]). *)
Definition pass {E : Type} (events : list E)
    (run : list Segment -> list Segment) (highlights : list RawSegment)
  : option (list RawSegment) :=
  match events with
  | [] => Some highlights
  | _ => option_map (fun hs => map ofSegment (run hs)) (readAll highlights)
  end.

(** Stage 2, guarded by [finalDuration > MAX_HIGHLIGHT_DURATION] as
    Stage 1 is by its test. *)
Definition stage2 (highlights : list RawSegment) : list RawSegment :=
  if exceeds (calculateDuration highlights) MAX_HIGHLIGHT_DURATION then
    match readAll highlights with
    | Some hs => map ofSegment (stage2 hs)
    | None => highlights
    end
  else highlights.

(** The scenery fallback.  With an unreadable clip the budget test
    [calculateDuration(highlights) + (end - start) <= 125] is made on NaN
    and fails, so that nothing is inserted on any path. *)
Definition sceneryFallback (scenery : list Scenery) (videoDuration : Q)
    (highlights : list RawSegment) : list RawSegment :=
  match readAll highlights with
  | Some hs => map ofSegment (sceneryFallback scenery videoDuration hs)
  | None => highlights
  end.

Definition bind {A B : Type} (x : option A) (f : A -> option B) : option B :=
  match x with
  | Some a => f a
  | None => None
  end.

(** The highlight part of [processVideo] on such clips. *)
Definition finalHighlights (ra : RawAnalysis) (videoDuration : Q)
  : option (list RawSegment) :=
  let h0 := stage1 ra (raw_highlightTimestamps ra) in
  let scenery' := map capStay (raw_scenery ra) in
  bind (pass (raw_friends ra)
             (fun hs => ensureFriendsInHighlights (raw_friends ra) hs
                                                  videoDuration 3) h0)
  (fun h1 =>
  bind (pass scenery'
             (fun hs => ensureSceneryInHighlights scenery' hs videoDuration 2) h1)
  (fun h2 =>
  bind (pass (raw_dietaryHabits ra)
             (fun hs => ensureFoodInHighlights (raw_dietaryHabits ra) hs
                                               videoDuration 1) h2)
  (fun h3 =>
  bind (pass (raw_safetyAlerts ra)
             (fun hs => ensureSafetyAlertsInHighlights (raw_safetyAlerts ra) hs
                                                       videoDuration 1) h3)
  (fun h4 =>
  Some (sceneryFallback scenery' videoDuration (stage2 h4)))))).

End Raw.

(** Thirty clips of 5 seconds, ten seconds apart from 0:00, and one clip
    whose start text is unreadable; no event of any class. *)
Definition thirtyClips : list Segment :=
  map (fun k => candidate (10 * Z.of_nat k) (10 * Z.of_nat k + 5)) (seq 0 30).

Definition unreadableClip : RawSegment :=
  mkRawSegment None (Some 400) None None None false false.

Definition oneUnreadableText : RawAnalysis :=
  mkRawAnalysis (map Raw.ofSegment thirtyClips ++ [unreadableClip])
                [] [] [] [].

(** Scenario 1 with its candidate as received. *)
Definition scenarioOneRaw : RawAnalysis :=
  mkRawAnalysis (map Raw.ofSegment (highlightTimestamps scenarioOne))
                (friends scenarioOne) (scenery scenarioOne)
                (dietaryHabits scenarioOne) (safetyAlerts scenarioOne).

(* ================================================================== *)
(** ** The interpolation in double precision *)
(* ================================================================== *)

Module Double.

(** IEEE 754 binary64. *)
Definition prec : Z := 53.
Definition emax : Z := 1024.

(** An integer as a double (exact below 2^53). *)
Definition ofZ (z : Z) : spec_float := binary_normalize prec emax z 0 false.

Definition div (x y : spec_float) : spec_float := SFdiv prec emax x y.
Definition mul (x y : spec_float) : spec_float := SFmul prec emax x y.
Definition add (x y : spec_float) : spec_float := SFadd prec emax x y.

(** The rational a finite double stands for. *)
Definition toQ (x : spec_float) : option Q :=
  match x with
  | S754_zero _ => Some 0%Q
  | S754_finite s m e =>
      let q := (inject_Z (Zpos m) * Qpower 2 e)%Q in
      Some (if s then (- q)%Q else q)
  | _ => None
  end.

(** [Math.round] of a finite double. *)
Definition round (x : spec_float) : option Z := option_map JS.round (toQ x).

(** The loop of [interpolateMoodValue], as [interpolateLoop], with
    [ratio = (targetSec - left.sec) / span] and
    [left.value + (right.value - left.value) * ratio] in doubles. *)
Fixpoint interpolateLoop (leftP : Point) (rest : list Point) (targetSec : Z)
  : spec_float :=
  match rest with
  | [] => ofZ (value leftP)
  | rightP :: rest' =>
      if targetSec <=? sec rightP then
        let span := sec rightP - sec leftP in
        if span <=? 0 then ofZ (value rightP)
        else
          let ratio := div (ofZ (targetSec - sec leftP)) (ofZ span) in
          add (ofZ (value leftP)) (mul (ofZ (value rightP - value leftP)) ratio)
      else interpolateLoop rightP rest' targetSec
  end.

Definition interpolateMoodValue (points : list Point) (targetSec : Z)
  : spec_float :=
  match points with
  | [] => ofZ 50
  | [p] => ofZ (value p)
  | p :: rest =>
      if targetSec <=? sec p then ofZ (value p)
      else interpolateLoop p rest targetSec
  end.

(** [clamp(Math.round(interpolateMoodValue(points, sec)), 0, 100)]. *)
Definition sampleValue (points : list Point) (targetSec : Z) : option Z :=
  option_map (fun v => JS.clamp v 0 100)
             (round (interpolateMoodValue points targetSec)).

End Double.

(* ================================================================== *)
(** * Properties *)
(* ================================================================== *)

(** ** Arithmetic of [stamp] *)

Lemma Qfloor_unique (x : Q) (z : Z) :
  (inject_Z z <= x)%Q -> (x < inject_Z (z + 1))%Q -> Qfloor x = z.
Proof.
  intros Hlo Hhi.
  pose proof (Qfloor_le x) as H1.
  pose proof (Qlt_floor x) as H2.
  assert (Ha : (inject_Z (Qfloor x) < inject_Z (z + 1))%Q)
    by (eapply Qle_lt_trans; eauto).
  assert (Hb : (inject_Z z < inject_Z (Qfloor x + 1))%Q)
    by (eapply Qle_lt_trans; eauto).
  rewrite <- Zlt_Qlt in Ha, Hb. lia.
Qed.

Lemma trunc_ge_floor (x : Q) : Qfloor x <= JS.trunc x.
Proof.
  unfold JS.trunc. destruct (Qle_bool 0 x).
  - lia.
  - rewrite Zle_Qle. apply Qle_floor_ceiling.
Qed.

(** What [secondsToTime] prints never reads back above its argument. *)
Lemma stamp_le (x : Q) : (inject_Z (stamp x) <= x)%Q.
Proof.
  unfold stamp, JS.rem60.
  pose proof (trunc_ge_floor (x / 60)) as Hmc.
  pose proof (Qfloor_le (x - 60 * inject_Z (JS.trunc (x / 60)))) as Hf.
  rewrite Zle_Qle in Hmc.
  rewrite inject_Z_plus, inject_Z_mult.
  set (m := inject_Z (Qfloor (x / 60))) in *.
  set (c := inject_Z (JS.trunc (x / 60))) in *.
  set (f := inject_Z (Qfloor (x - 60 * c))) in *.
  change (inject_Z 60) with 60%Q.
  clearbody m c f. lra.
Qed.

(** On a non-negative number the round trip is [Math.floor]. *)
Lemma stamp_nonneg (x : Q) : (0 <= x)%Q -> stamp x = Qfloor x.
Proof.
  intros Hx. unfold stamp, JS.rem60, JS.trunc.
  assert (H60 : (0 <= x / 60)%Q).
  { unfold Qdiv. change (/ 60)%Q with (1 # 60)%Q. lra. }
  apply Qle_bool_iff in H60. rewrite H60.
  symmetry. apply Qfloor_unique.
  - pose proof (Qfloor_le (x - 60 * inject_Z (Qfloor (x / 60)))) as Hf.
    rewrite inject_Z_plus, inject_Z_mult. change (inject_Z 60) with 60%Q.
    set (m := inject_Z (Qfloor (x / 60))) in *.
    set (f := inject_Z (Qfloor (x - 60 * m))) in *.
    clearbody m f. lra.
  - pose proof (Qlt_floor (x - 60 * inject_Z (Qfloor (x / 60)))) as Hf.
    rewrite !inject_Z_plus, inject_Z_mult in *. change (inject_Z 60) with 60%Q.
    change (inject_Z 1) with 1%Q in *.
    set (m := inject_Z (Qfloor (x / 60))) in *.
    set (f := inject_Z (Qfloor (x - 60 * m))) in *.
    clearbody m f. lra.
Qed.

Lemma stamp_Z (n : Z) : 0 <= n -> stamp (inject_Z n) = n.
Proof.
  intros Hn. rewrite stamp_nonneg.
  - apply Qfloor_Z.
  - rewrite Zle_Qle in Hn. exact Hn.
Qed.

Lemma stamp_Z_le (n : Z) : stamp (inject_Z n) <= n.
Proof. rewrite Zle_Qle. apply stamp_le. Qed.

(** ** The sort *)

Section SortFacts.
Context {A : Type}.
Variable after : A -> A -> bool.

Lemma insertBy_perm (x : A) (l : list A) :
  Permutation (insertBy after x l) (x :: l).
Proof.
  induction l as [|y l IH]; simpl.
  - apply Permutation_refl.
  - destruct (after x y).
    + rewrite IH. apply perm_swap.
    + apply Permutation_refl.
Qed.

Lemma sortBy_perm (l : list A) : Permutation (sortBy after l) l.
Proof.
  induction l as [|x l IH]; simpl.
  - constructor.
  - rewrite insertBy_perm. now constructor.
Qed.

Lemma sortBy_In (l : list A) (x : A) : In x (sortBy after l) <-> In x l.
Proof.
  split; apply Permutation_in; [|symmetry]; apply sortBy_perm.
Qed.

Lemma sortBy_nil_inv (l : list A) : sortBy after l = [] -> l = [].
Proof.
  intros H. apply Permutation_nil. rewrite <- H. apply sortBy_perm.
Qed.

(** Sortedness for a comparator that decides a total preorder [R]. *)
Variable R : A -> A -> Prop.
Hypothesis R_trans : forall a b c, R a b -> R b c -> R a c.
Hypothesis after_false : forall a b, after a b = false -> R a b.
Hypothesis after_true : forall a b, after a b = true -> R b a.

Lemma insertBy_sorted (x : A) (l : list A) :
  StronglySorted R l -> StronglySorted R (insertBy after x l).
Proof.
  induction 1 as [|y l Hl IH Hy]; simpl.
  - repeat constructor.
  - destruct (after x y) eqn:E.
    + constructor; [exact IH|].
      eapply Permutation_Forall; [symmetry; apply insertBy_perm|].
      constructor; auto.
    + constructor; [constructor; assumption|].
      constructor; [auto|].
      eapply Forall_impl; [|exact Hy]. intros z Hz. eauto.
Qed.

Lemma sortBy_sorted (l : list A) : StronglySorted R (sortBy after l).
Proof.
  induction l as [|x l IH]; simpl.
  - constructor.
  - now apply insertBy_sorted.
Qed.
End SortFacts.

Lemma sortBy_byStart_sorted (l : list Segment) :
  StronglySorted (fun a b => start a <= start b) (sortBy byStart l).
Proof.
  apply sortBy_sorted; unfold byStart; intros.
  - lia.
  - apply Z.ltb_ge in H. exact H.
  - apply Z.ltb_lt in H. lia.
Qed.

(** ** Total duration *)

Lemma calculateDuration_from (segs : list Segment) (z : Z) :
  fold_left (fun sum seg => sum + (end_ seg - start seg)) segs z
  = z + calculateDuration segs.
Proof.
  unfold calculateDuration. revert z.
  induction segs as [|s segs IH]; intros z; simpl.
  - lia.
  - rewrite (IH (z + (end_ s - start s))), (IH (end_ s - start s)). lia.
Qed.

Lemma calculateDuration_cons (s : Segment) (segs : list Segment) :
  calculateDuration (s :: segs) = (end_ s - start s) + calculateDuration segs.
Proof.
  unfold calculateDuration at 1. simpl. rewrite calculateDuration_from. lia.
Qed.

Lemma calculateDuration_app (l1 l2 : list Segment) :
  calculateDuration (l1 ++ l2) = calculateDuration l1 + calculateDuration l2.
Proof.
  induction l1 as [|s l1 IH]; simpl.
  - reflexivity.
  - rewrite !calculateDuration_cons, IH. lia.
Qed.

Lemma calculateDuration_perm (l1 l2 : list Segment) :
  Permutation l1 l2 -> calculateDuration l1 = calculateDuration l2.
Proof.
  induction 1; rewrite ?calculateDuration_cons in *; lia.
Qed.

Lemma calculateDuration_sortBy (after : Segment -> Segment -> bool)
    (l : list Segment) :
  calculateDuration (sortBy after l) = calculateDuration l.
Proof. apply calculateDuration_perm, sortBy_perm. Qed.

(** ** Duration bound of the final cut *)

(** The duration a clip is charged for in Stage 2 is never below the
    duration it ends up with. *)
Lemma compressed_charge (st : TrimState) (clip : Segment) :
  end_ (fst (compressed st clip)) - start (fst (compressed st clip))
  <= snd (compressed st clip).
Proof.
  unfold compressed, compress, MAX_HIGHLIGHT_DURATION.
  set (rem := 120 - currentDuration st).
  destruct (120 <? currentDuration st + (end_ clip - start clip)); simpl; [|lia].
  destruct (3 <=? rem) eqn:E3.
  - apply Z.leb_le in E3.
    assert (Hc : stamp (inject_Z (start clip + Z.max 3 rem)) - start clip <= rem).
    { pose proof (stamp_Z_le (start clip + Z.max 3 rem)). lia. }
    destruct (JS.srcIs (source clip) "safety"); simpl; [exact Hc|].
    destruct (isOnlyFriendClip (friendsIncluded st) clip); simpl; [exact Hc|lia].
  - rewrite andb_false_r.
    destruct (isOnlyFriendClip (friendsIncluded st) clip); simpl; lia.
Qed.

Lemma trimStep_inv (st : TrimState) (clip : Segment) :
  trimInv st -> trimInv (trimStep st clip).
Proof.
  intros [Hk Hc]. unfold trimStep.
  pose proof (compressed_charge st clip) as Hch.
  destruct (compressed st clip) as [clip' d]; simpl in Hch.
  match goal with |- trimInv (if ?c then _ else _) => destruct c eqn:E end.
  - split; simpl.
    + rewrite calculateDuration_app, calculateDuration_cons.
      unfold calculateDuration at 2; simpl. lia.
    + apply orb_true_iff in E as [E|E].
      * apply Z.leb_le in E. unfold MAX_HIGHLIGHT_DURATION in *. lia.
      * apply andb_true_iff in E as [_ E]. apply Z.leb_le in E. exact E.
  - split; assumption.
Qed.

Lemma trimLoop_inv (clips : list Segment) (st : TrimState) :
  trimInv st -> trimInv (fold_left trimStep clips st).
Proof.
  revert st. induction clips as [|c clips IH]; intros st H; simpl.
  - exact H.
  - apply IH, trimStep_inv, H.
Qed.

Lemma stage2_bound (highlights : list Segment) :
  calculateDuration (stage2 highlights) <= MAX_HIGHLIGHT_DURATION + 5.
Proof.
  unfold stage2.
  destruct (MAX_HIGHLIGHT_DURATION <? calculateDuration highlights) eqn:E.
  - rewrite calculateDuration_sortBy.
    destruct (trimLoop_inv (sortBy byPriority highlights) (mkTrimState [] 0 []))
      as [H1 H2].
    + split; simpl; unfold MAX_HIGHLIGHT_DURATION; [reflexivity|lia].
    + lia.
  - apply Z.ltb_ge in E. lia.
Qed.

Lemma sceneryFallback_bound (scenery : list Scenery) (videoDuration : Q)
    (highlights : list Segment) :
  calculateDuration highlights <= MAX_HIGHLIGHT_DURATION + 5 ->
  calculateDuration (sceneryFallback scenery videoDuration highlights)
  <= MAX_HIGHLIGHT_DURATION + 5.
Proof.
  intros H. unfold sceneryFallback.
  destruct (sortBy byBestScene (filter (staysAtLeast 3) scenery))
    as [|bestScene rest]; [exact H|].
  destruct (existsb _ (filter (staysAtLeast 3) scenery)); [exact H|].
  unfold fallbackSegment.
  set (t := timeOr0 (scene_timestamp bestScene)).
  set (e0 := newSegEnd videoDuration t _).
  match goal with |- context [Qle_bool ?a ?b] => destruct (Qle_bool a b) eqn:E end;
    [|exact H].
  apply Qle_bool_iff in E.
  rewrite calculateDuration_sortBy, calculateDuration_app, calculateDuration_cons.
  unfold calculateDuration at 2; simpl.
  assert (Hs : stamp (inject_Z (newSegStart t 2)) = newSegStart t 2).
  { apply stamp_Z. unfold newSegStart. lia. }
  rewrite Hs.
  pose proof (stamp_le e0) as He.
  assert (Hq : calculateDuration highlights + stamp e0
               <= MAX_HIGHLIGHT_DURATION + 5 + newSegStart t 2).
  { rewrite Zle_Qle. rewrite !inject_Z_plus. rewrite inject_Z_plus in E.
    set (d := inject_Z (calculateDuration highlights)) in *.
    set (s := inject_Z (newSegStart t 2)) in *.
    set (e := inject_Z (stamp e0)) in *.
    set (bound := inject_Z MAX_HIGHLIGHT_DURATION) in *.
    change (inject_Z 5) with 5%Q in *.
    clearbody d s e bound e0. lra. }
  unfold MAX_HIGHLIGHT_DURATION in *. lia.
Qed.

(** On clips whose times are all read, the clips of the final cut add up
    to at most 125 seconds, whatever the events and the source duration. *)
Lemma finalHighlights_within_125 (a : Analysis) (videoDuration : Q) :
  calculateDuration (finalHighlights a videoDuration) <= 125.
Proof.
  unfold finalHighlights, trimmedHighlights.
  apply (sceneryFallback_bound _ _ _ (stage2_bound _)).
Qed.

(** ** Clips with unreadable time texts *)

Lemma read_ofSegment (s : Segment) : Raw.read (Raw.ofSegment s) = Some s.
Proof. destruct s. reflexivity. Qed.

Lemma read_inv (r : RawSegment) (s : Segment) :
  Raw.read r = Some s -> r = Raw.ofSegment s.
Proof.
  unfold Raw.read. destruct r as [[st|] [en|] src sc fn hq nf]; simpl;
    try discriminate.
  intros H. injection H as <-. reflexivity.
Qed.

Lemma readAll_map_ofSegment (l : list Segment) :
  Raw.readAll (map Raw.ofSegment l) = Some l.
Proof.
  induction l as [|s l IH]; [reflexivity|].
  change (Raw.readAll (map Raw.ofSegment (s :: l)))
    with (match Raw.read (Raw.ofSegment s),
                Raw.readAll (map Raw.ofSegment l) with
          | Some s0, Some ss => Some (s0 :: ss)
          | _, _ => None
          end).
  rewrite read_ofSegment, IH. reflexivity.
Qed.

Lemma readAll_inv (l : list RawSegment) : forall hs,
  Raw.readAll l = Some hs -> l = map Raw.ofSegment hs.
Proof.
  induction l as [|r l IH]; intros hs H; simpl in H.
  - injection H as <-. reflexivity.
  - destruct (Raw.read r) as [s|] eqn:Er; [|discriminate].
    destruct (Raw.readAll l) as [ss|]; [|discriminate].
    injection H as <-. simpl. rewrite (read_inv r s Er), (IH ss eq_refl).
    reflexivity.
Qed.

Lemma raw_duration_from (l : list Segment) : forall z,
  fold_left (fun sum seg =>
               match sum, raw_end seg, raw_start seg with
               | Some a, Some e, Some s => Some (a + (e - s))
               | _, _, _ => None
               end)
            (map Raw.ofSegment l) (Some z)
  = Some (fold_left (fun sum seg => sum + (end_ seg - start seg)) l z).
Proof.
  induction l as [|s l IH]; intros z; simpl; [reflexivity|apply IH].
Qed.

Lemma raw_duration_readable (l : list Segment) :
  Raw.calculateDuration (map Raw.ofSegment l) = Some (calculateDuration l).
Proof. apply raw_duration_from. Qed.

Lemma raw_duration_nan (l : list RawSegment) :
  fold_left (fun sum seg =>
               match sum, raw_end seg, raw_start seg with
               | Some a, Some e, Some s => Some (a + (e - s))
               | _, _, _ => None
               end) l None = None.
Proof. induction l as [|r l IH]; simpl; [reflexivity|exact IH]. Qed.

Lemma raw_duration_unreadable (l : list RawSegment) :
  Raw.readAll l = None -> Raw.calculateDuration l = None.
Proof.
  unfold Raw.calculateDuration. generalize 0.
  induction l as [|r l IH]; intros z H; simpl in H; [discriminate|].
  simpl. unfold Raw.read in H.
  destruct (raw_end r) as [e|]; destruct (raw_start r) as [s|];
    try apply raw_duration_nan.
  apply IH. destruct (Raw.readAll l); [discriminate|reflexivity].
Qed.

Lemma raw_stage1_readable (ra : RawAnalysis) (hs : list Segment) :
  Raw.stage1 ra (map Raw.ofSegment hs)
  = map Raw.ofSegment (stage1 (Raw.asAnalysis ra hs) hs).
Proof.
  unfold Raw.stage1. rewrite raw_duration_readable, readAll_map_ofSegment.
  unfold Raw.exceeds, stage1.
  destruct (120 <? calculateDuration hs); reflexivity.
Qed.

Lemma raw_stage1_unreadable (ra : RawAnalysis) (l : list RawSegment) :
  Raw.readAll l = None -> Raw.stage1 ra l = l.
Proof.
  intros H. unfold Raw.stage1. rewrite (raw_duration_unreadable l H).
  reflexivity.
Qed.

Lemma raw_stage2_readable (hs : list Segment) :
  Raw.stage2 (map Raw.ofSegment hs) = map Raw.ofSegment (stage2 hs).
Proof.
  unfold Raw.stage2. rewrite raw_duration_readable, readAll_map_ofSegment.
  unfold Raw.exceeds, stage2.
  destruct (MAX_HIGHLIGHT_DURATION <? calculateDuration hs); reflexivity.
Qed.

Lemma raw_stage2_unreadable (l : list RawSegment) :
  Raw.readAll l = None -> Raw.stage2 l = l.
Proof.
  intros H. unfold Raw.stage2. rewrite (raw_duration_unreadable l H).
  reflexivity.
Qed.

Lemma raw_pass_readable {E} (events : list E)
    (run : list Segment -> list Segment) (hs : list Segment) :
  (events = [] -> run hs = hs) ->
  Raw.pass events run (map Raw.ofSegment hs)
  = Some (map Raw.ofSegment (run hs)).
Proof.
  intros H. unfold Raw.pass. destruct events as [|e events].
  - rewrite (H eq_refl). reflexivity.
  - rewrite readAll_map_ofSegment. reflexivity.
Qed.

(** With every candidate text readable the selection on raw clips is the
    selection on the clips read. *)
Lemma raw_final_readable (ra : RawAnalysis) (videoDuration : Q)
    (hs : list Segment) :
  Raw.readAll (raw_highlightTimestamps ra) = Some hs ->
  Raw.finalHighlights ra videoDuration
  = Some (map Raw.ofSegment (finalHighlights (Raw.asAnalysis ra hs) videoDuration)).
Proof.
  intros H. apply readAll_inv in H.
  unfold Raw.finalHighlights. cbv zeta. rewrite H, raw_stage1_readable.
  rewrite raw_pass_readable
    by (intros ->; reflexivity).
  cbn [Raw.bind].
  rewrite raw_pass_readable
    by (intros E; unfold ensureSceneryInHighlights; rewrite E; reflexivity).
  cbn [Raw.bind].
  rewrite raw_pass_readable by (intros ->; reflexivity).
  cbn [Raw.bind].
  rewrite raw_pass_readable by (intros ->; reflexivity).
  cbn [Raw.bind].
  rewrite raw_stage2_readable. unfold Raw.sceneryFallback.
  rewrite readAll_map_ofSegment. reflexivity.
Qed.

(** C1 (as the code has it). When the start and end text of every
    candidate is readable as a whole number of seconds, the selection
    returns a final cut, every clip
    of which has readable times, and its clips add up to at most
    125 seconds. *)
Theorem final_duration_at_most_125 (ra : RawAnalysis) (videoDuration : Q)
    (hs : list Segment) :
  Raw.readAll (raw_highlightTimestamps ra) = Some hs ->
  exists final d,
    Raw.finalHighlights ra videoDuration = Some final
    /\ Raw.readAll final
       = Some (finalHighlights (Raw.asAnalysis ra hs) videoDuration)
    /\ Raw.calculateDuration final = Some d
    /\ d <= 125.
Proof.
  intros H. eexists. eexists.
  split; [apply raw_final_readable; exact H|].
  split; [apply readAll_map_ofSegment|].
  split; [apply raw_duration_readable|].
  apply finalHighlights_within_125.
Qed.

Lemma final_duration_at_most_125_witness :
  exists final d,
    Raw.finalHighlights scenarioOneRaw 90 = Some final
    /\ Raw.readAll final
       = Some (finalHighlights (Raw.asAnalysis scenarioOneRaw [candidate 0 10]) 90)
    /\ Raw.calculateDuration final = Some d
    /\ d <= 125.
Proof.
  apply (final_duration_at_most_125 scenarioOneRaw 90 [candidate 0 10]).
  reflexivity.
Defined.

(** C1 as stated fails when a time text is unreadable.  For thirty
    candidates of 5 seconds and one candidate whose start text is not a
    time, and no event of any class, the sum of the durations is NaN:
    neither [totalDuration > 120] nor [finalDuration > 120] holds, no pass
    has an event to act on, and the final cut is the whole input, whose
    thirty readable clips alone add up to 150 seconds. *)
Lemma unreadable_text_defeats_the_budget :
  Raw.finalHighlights oneUnreadableText 400
  = Some (raw_highlightTimestamps oneUnreadableText)
  /\ Raw.calculateDuration (raw_highlightTimestamps oneUnreadableText) = None
  /\ incl (map Raw.ofSegment thirtyClips)
          (raw_highlightTimestamps oneUnreadableText)
  /\ calculateDuration thirtyClips = 150
  /\ ~ (exists final d,
          Raw.finalHighlights oneUnreadableText 400 = Some final
          /\ Raw.calculateDuration final = Some d
          /\ d <= 125).
Proof.
  assert (Hfinal : Raw.finalHighlights oneUnreadableText 400
                   = Some (raw_highlightTimestamps oneUnreadableText))
    by (vm_compute; reflexivity).
  assert (Hnan : Raw.calculateDuration (raw_highlightTimestamps oneUnreadableText)
                 = None) by (vm_compute; reflexivity).
  split; [exact Hfinal|]. split; [exact Hnan|].
  split; [intros x Hx; apply in_or_app; left; exact Hx|].
  split; [vm_compute; reflexivity|].
  intros [final [d [H1 [H2 _]]]].
  assert (Heq : final = raw_highlightTimestamps oneUnreadableText)
    by congruence.
  rewrite Heq, Hnan in H2. discriminate.
Qed.


(** ** Safety clips in the final budget trim *)

(** With at least 3 seconds left, an overflowing safety clip is pulled back
    to the remaining budget and accepted. *)
Lemma trimStep_safety_compressed (st : TrimState) (clip : Segment) :
  JS.srcIs (source clip) "safety" = true ->
  MAX_HIGHLIGHT_DURATION < currentDuration st + (end_ clip - start clip) ->
  3 <= MAX_HIGHLIGHT_DURATION - currentDuration st ->
  trimStep st clip
  = mkTrimState
      (kept st ++ [compress clip (MAX_HIGHLIGHT_DURATION - currentDuration st)])
      MAX_HIGHLIGHT_DURATION
      (addName (friendsIncluded st) (friendName clip)).
Proof.
  intros Hs Ho Hr. unfold trimStep, compressed.
  apply Z.ltb_lt in Ho. apply Z.leb_le in Hr. rewrite Ho, Hs, Hr.
  cbv beta iota zeta. cbn [andb].
  replace (currentDuration st + (MAX_HIGHLIGHT_DURATION - currentDuration st))
    with MAX_HIGHLIGHT_DURATION by lia.
  rewrite Z.leb_refl. reflexivity.
Qed.

(** With less than 3 seconds left, an overflowing safety clip is dropped. *)
Lemma trimStep_safety_dropped (st : TrimState) (clip : Segment) :
  JS.srcIs (source clip) "safety" = true ->
  MAX_HIGHLIGHT_DURATION < currentDuration st + (end_ clip - start clip) ->
  MAX_HIGHLIGHT_DURATION - currentDuration st < 3 ->
  trimStep st clip = st.
Proof.
  intros Hs Ho Hr. unfold trimStep, compressed, isOnlyFriendClip.
  assert (Hf : JS.srcIs (source clip) "friend" = false).
  { destruct (source clip) as [x|]; simpl in *; [|reflexivity].
    apply String.eqb_eq in Hs. subst x. reflexivity. }
  rewrite Hf.
  assert (Ho' := Ho). apply Z.ltb_lt in Ho'. rewrite Ho'.
  apply Z.leb_gt in Hr. rewrite Hr, andb_false_r.
  cbv beta iota zeta. cbn [andb].
  replace (currentDuration st + (end_ clip - start clip) <=? MAX_HIGHLIGHT_DURATION)
    with false by (symmetry; apply Z.leb_gt; lia).
  reflexivity.
Qed.

(** C2. Twenty-five danger alerts ten seconds apart give twenty-five
    5-second safety clips (125 s).  The alert at 4:10 is covered before the
    final trim; the trim accepts twenty-four clips (120 s) and drops the
    twenty-fifth instead of keeping 3 seconds of it (123 s), so the alert
    at 4:10 is in no clip of the final cut. *)
Theorem safety_clip_dropped_at_full_budget :
  In (mkAlert (Some 250) "danger") (safetyAlerts manyAlerts)
  /\ existsb (covers 250) (coveredHighlights manyAlerts 300) = true
  /\ calculateDuration (coveredHighlights manyAlerts 300) = 125
  /\ existsb (covers 250) (finalHighlights manyAlerts 300) = false
  /\ calculateDuration (finalHighlights manyAlerts 300) = 120
  /\ List.length (finalHighlights manyAlerts 300) = 24%nat.
Proof.
  split; [|vm_compute; repeat split].
  unfold manyAlerts; simpl. do 24 right. left. reflexivity.
Qed.

(** ** The merger: sorted output with gaps above the tolerance *)

Lemma mergeInto_start (current next : Segment) :
  start (mergeInto current next) = start current.
Proof.
  unfold mergeInto.
  destruct ((_ || _) && (_ || _)); [reflexivity|].
  destruct (getSourcePriority _ <? getSourcePriority _); reflexivity.
Qed.

Lemma mergeInto_end (current next : Segment) :
  end_ (mergeInto current next) = Z.max (end_ current) (end_ next).
Proof.
  unfold mergeInto.
  assert (H : (if end_ current <? end_ next then end_ next else end_ current)
              = Z.max (end_ current) (end_ next)).
  { destruct (end_ current <? end_ next) eqn:E;
      [apply Z.ltb_lt in E|apply Z.ltb_ge in E]; lia. }
  destruct ((_ || _) && (_ || _)); [exact H|].
  destruct (getSourcePriority _ <? getSourcePriority _); exact H.
Qed.

(** Every clip produced by the loop starts no earlier than [current]. *)
Lemma mergeLoop_starts (rest : list Segment) : forall current,
  StronglySorted startLe rest ->
  Forall (startLe current) rest ->
  Forall (startLe current) (mergeLoop current rest).
Proof.
  induction rest as [|next rest IH]; intros current Hs Hc; simpl.
  - constructor; [unfold startLe; lia|constructor].
  - apply StronglySorted_inv in Hs as [Hs Hn].
    inversion Hc as [|? ? Hcn Hcr]; subst.
    destruct (start next <=? end_ current + 2).
    + eapply Forall_impl; [|apply IH; [exact Hs|]].
      * intros x Hx. unfold startLe in *. rewrite mergeInto_start in Hx. exact Hx.
      * eapply Forall_impl; [|exact Hcr].
        intros x Hx. unfold startLe in *. rewrite mergeInto_start. exact Hx.
    + constructor; [unfold startLe; lia|].
      eapply Forall_impl; [|apply IH; assumption].
      intros x Hx. unfold startLe in *. lia.
Qed.

Lemma mergeLoop_sorted (rest : list Segment) : forall current,
  StronglySorted startLe rest ->
  Forall (startLe current) rest ->
  StronglySorted startLe (mergeLoop current rest).
Proof.
  induction rest as [|next rest IH]; intros current Hs Hc; simpl.
  - repeat constructor.
  - assert (Hs' := Hs). apply StronglySorted_inv in Hs' as [Hsr Hn].
    inversion Hc as [|? ? Hcn Hcr]; subst.
    destruct (start next <=? end_ current + 2).
    + apply IH; [exact Hsr|].
      eapply Forall_impl; [|exact Hcr].
      intros x Hx. unfold startLe in *. rewrite mergeInto_start. exact Hx.
    + constructor; [apply IH; assumption|].
      eapply Forall_impl; [|apply mergeLoop_starts; eassumption].
      intros x Hx. unfold startLe in *. lia.
Qed.

Lemma mergeLoop_gaps (rest : list Segment) : forall current,
  StronglySorted startLe rest ->
  ForallOrdPairs gapBefore (mergeLoop current rest).
Proof.
  induction rest as [|next rest IH]; intros current Hs; simpl.
  - repeat constructor.
  - apply StronglySorted_inv in Hs as [Hsr Hn].
    destruct (start next <=? end_ current + 2) eqn:E.
    + apply IH, Hsr.
    + apply Z.leb_gt in E. constructor; [|apply IH, Hsr].
      eapply Forall_impl; [|apply mergeLoop_starts; eassumption].
      intros x Hx. unfold startLe, gapBefore in *. lia.
Qed.

Lemma merge_canonical (segments : list Segment) :
  StronglySorted startLe segments ->
  Canonical (mergeOverlappingSegments segments).
Proof.
  intros Hs. unfold mergeOverlappingSegments.
  destruct segments as [|s [|s' rest]].
  - split; constructor.
  - split; repeat constructor.
  - apply StronglySorted_inv in Hs as [Hs Hf]. split.
    + apply mergeLoop_sorted; assumption.
    + apply mergeLoop_gaps; assumption.
Qed.







(** ** The final trim keeps the clips apart *)

Section OrdPairs.
Context {A : Type}.
Variables R S : A -> A -> Prop.

Lemma FOP_inv (a : A) (l : list A) :
  ForallOrdPairs R (a :: l) -> Forall (R a) l /\ ForallOrdPairs R l.
Proof. inversion 1; subst; split; assumption. Qed.


End OrdPairs.

Lemma covers_spec (t : Z) (s : Segment) :
  covers t s = true <-> start s <= t <= end_ s.
Proof. unfold covers. rewrite andb_true_iff, !Z.leb_le. tauto. Qed.














(** The scenery fallback inserts its clip without merging: after a safety
    clip is compressed to 0:00-2:00, the clip 1:59-2:04 added for the
    scenery moment at 2:01 overlaps it. *)
Lemma fallback_inserts_overlapping_clip :
  map (fun s => (start s, end_ s)) (finalHighlights alertsThenScenery 130)
  = [(0, 120); (119, 124)]
  /\ ~ NonOverlapping (finalHighlights alertsThenScenery 130).
Proof.
  split; [vm_compute; reflexivity|].
  intros H.
  remember (finalHighlights alertsThenScenery 130) as l eqn:El.
  vm_compute in El. subst l.
  apply FOP_inv in H as [Hf _]. inversion Hf as [|? ? Hd _]; subst.
  apply (Hd 119); reflexivity.
Qed.

(** ** What a merge does to the two clips *)

(** The later end wins, the flags are OR-ed and the score is the larger of
    the two (a missing score counting as 0). *)
Lemma mergeInto_fields (current next : Segment) :
  start (mergeInto current next) = start current
  /\ end_ (mergeInto current next) = Z.max (end_ current) (end_ next)
  /\ isHighQuality (mergeInto current next)
     = isHighQuality current || isHighQuality next
  /\ score (mergeInto current next)
     = Some (Qmax (scoreOr0 (score current)) (scoreOr0 (score next))).
Proof.
  split; [apply mergeInto_start|]. split; [apply mergeInto_end|].
  unfold mergeInto.
  destruct ((_ || _) && (_ || _)); [split; reflexivity|].
  destruct (getSourcePriority _ <? getSourcePriority _); split; reflexivity.
Qed.

(** The tag of the merged clip: the combined tag when the two tags span a
    subject tag and a scenery tag, else the tag of higher rank. *)
Lemma mergeInto_source (current next : Segment) :
  let spansBoth :=
    (sourcesInclude (source current) (source next) "friend"
     || sourcesInclude (source current) (source next) "friend+scenery")
    && (sourcesInclude (source current) (source next) "scenery"
        || sourcesInclude (source current) (source next) "friend+scenery") in
  source (mergeInto current next)
  = if spansBoth then Some "friend+scenery"%string
    else if getSourcePriority (source current) <? getSourcePriority (source next)
         then source next else source current.
Proof.
  unfold mergeInto. cbv zeta.
  destruct ((_ || _) && (_ || _)); [reflexivity|].
  destruct (getSourcePriority _ <? getSourcePriority _); reflexivity.
Qed.

(** The subject name of the merged clip, branch by branch: when the tag of
    [current] is kept, the name of [next] is not looked at. *)
Lemma mergeInto_friendName (current next : Segment) :
  let spansBoth :=
    (sourcesInclude (source current) (source next) "friend"
     || sourcesInclude (source current) (source next) "friend+scenery")
    && (sourcesInclude (source current) (source next) "scenery"
        || sourcesInclude (source current) (source next) "friend+scenery") in
  friendName (mergeInto current next)
  = if spansBoth then JS.orElse (friendName current) (friendName next)
    else if getSourcePriority (source current) <? getSourcePriority (source next)
         then JS.orElse (friendName next) (friendName current)
         else friendName current.
Proof.
  unfold mergeInto. cbv zeta.
  destruct ((_ || _) && (_ || _)); [reflexivity|].
  destruct (getSourcePriority _ <? getSourcePriority _); reflexivity.
Qed.

(** C4. A safety clip 0:11-0:16 followed by the clip 0:17-0:25 of subject
    "Rex" is merged into one safety clip 0:11-0:25 that carries no subject
    name, although one side has one; in the opposite order the name is
    kept.  The same merge happens in the pipeline for a danger alert at
    0:12 and an occurrence of "Rex" at 0:20. *)
Theorem merge_loses_name_of_outranked_subject :
  friendName rexClip = Some "Rex"%string
  /\ map (fun s => (start s, end_ s, source s, friendName s))
         (mergeOverlappingSegments [safetyClip; rexClip])
     = [(11, 25, Some "safety"%string, None)]
  /\ friendName
       (mergeInto (mkSegment 11 16 (Some "friend"%string) None
                             (Some "Rex"%string) false false)
                  (mkSegment 17 25 (Some "safety"%string) None None false false))
     = Some "Rex"%string
  /\ map (fun s => (start s, end_ s, source s, friendName s))
         (finalHighlights alertBeforeRex 60)
     = [(11, 25, Some "safety"%string, None)].
Proof. vm_compute. repeat split. Qed.

(** ** Scenario 1 *)

(** C6. One candidate 0:00-0:10, one occurrence at 1:00 lasting 4 seconds,
    source duration 90 seconds: the coverage pass inserts 0:57-1:04, the cut
    totals 17 seconds, and original time 62 maps to highlight time 15; in
    text form, "1:02" is 62 seconds and 15 seconds prints as "0:15". *)
Theorem scenario_one_inserted_total_and_mapping :
  ensureFriendsInHighlights (friends scenarioOne)
                            (highlightTimestamps scenarioOne) 90 3
  = [candidate 0 10;
     mkSegment 57 64 (Some "friend"%string) None (Some "Rex"%string) false false]
  /\ map (fun s => (start s, end_ s)) (finalHighlights scenarioOne 90)
     = [(0, 10); (57, 64)]
  /\ calculateDuration (finalHighlights scenarioOne 90) = 17
  /\ mapToHighlightTime 62 (finalHighlights scenarioOne 90) = Some 15
  /\ 15 = 10 + (62 - 57)
  /\ Text.timeToSeconds "1:02" = Some 62
  /\ Text.secondsToTime 15 = "0:15"%string
  /\ Text.secondsToTime 57 = "0:57"%string
  /\ Text.secondsToTime 64 = "1:04"%string.
Proof. vm_compute. repeat split. Qed.

(** ** The timeline mapper is monotone *)

Lemma mapLoop_covered (segs : list Segment) : forall t off a,
  mapLoop t off segs = Some a ->
  exists seg, In seg segs /\ covers t seg = true.
Proof.
  induction segs as [|s segs IH]; intros t off a H; simpl in H.
  - discriminate.
  - destruct (covers t s) eqn:E.
    + exists s. split; [left; reflexivity|exact E].
    + destruct (IH _ _ _ H) as [seg [Hin Hc]].
      exists seg. split; [right; exact Hin|exact Hc].
Qed.

Lemma mapLoop_lower (segs : list Segment) : forall t off a,
  0 <= off -> Forall wellFormed segs ->
  mapLoop t off segs = Some a -> off <= a.
Proof.
  induction segs as [|s segs IH]; intros t off a Hoff Hwf H; simpl in H.
  - discriminate.
  - inversion Hwf as [|? ? Hs Hrest]; subst. unfold wellFormed in Hs.
    destruct (covers t s) eqn:E.
    + apply covers_spec in E. injection H as <-.
      rewrite stamp_Z; lia.
    + apply IH in H; [lia|lia|exact Hrest].
Qed.

Lemma mapLoop_monotone (segs : list Segment) : forall off A B a b,
  0 <= off -> sortedByStart segs -> Forall wellFormed segs -> A < B ->
  mapLoop A off segs = Some a -> mapLoop B off segs = Some b -> a <= b.
Proof.
  induction segs as [|s segs IH]; intros off A B a b Hoff Hsort Hwf HAB Ha Hb;
    simpl in Ha, Hb.
  - discriminate.
  - apply StronglySorted_inv in Hsort as [Hsort Hs].
    inversion Hwf as [|? ? Hw Hrest]; subst. unfold wellFormed in Hw.
    destruct (covers A s) eqn:EA; destruct (covers B s) eqn:EB.
    + apply covers_spec in EA, EB. injection Ha as <-. injection Hb as <-.
      rewrite !stamp_Z; lia.
    + apply covers_spec in EA. injection Ha as <-.
      apply mapLoop_lower in Hb; [|lia|exact Hrest].
      rewrite stamp_Z; lia.
    + exfalso. apply covers_spec in EB.
      destruct (mapLoop_covered _ _ _ _ Ha) as [seg [Hin Hc]].
      apply covers_spec in Hc.
      rewrite Forall_forall in Hs. specialize (Hs seg Hin). unfold startLe in Hs.
      assert (Hn : ~ (start s <= A <= end_ s))
        by (rewrite <- covers_spec; congruence).
      lia.
    + eapply (IH (off + (end_ s - start s))); try eassumption. lia.
Qed.

(** C7 (as the code has it). On a sorted list of pairwise disjoint segments
    that are all well-formed ([start <= end]), two original times [A < B]
    that both map have [map A <= map B]. *)
Theorem mapToHighlightTime_monotone (segs : list Segment) (A B a b : Z) :
  sortedByStart segs -> NonOverlapping segs -> Forall wellFormed segs ->
  A < B ->
  mapToHighlightTime A segs = Some a ->
  mapToHighlightTime B segs = Some b ->
  a <= b.
Proof.
  intros Hs _ Hwf HAB Ha Hb.
  eapply (mapLoop_monotone segs 0 A B); try eassumption. lia.
Qed.

Lemma mapToHighlightTime_monotone_witness :
  mapToHighlightTime 5 (finalHighlights scenarioOne 90) = Some 5
  /\ mapToHighlightTime 62 (finalHighlights scenarioOne 90) = Some 15
  /\ 5 <= 15.
Proof.
  assert (Hfinal : finalHighlights scenarioOne 90
                   = [candidate 0 10;
                      mkSegment 57 64 (Some "friend"%string) None
                                (Some "Rex"%string) false false])
    by (vm_compute; reflexivity).
  rewrite Hfinal.
  split; [reflexivity|]. split; [reflexivity|].
  apply (mapToHighlightTime_monotone
           [candidate 0 10;
            mkSegment 57 64 (Some "friend"%string) None
                      (Some "Rex"%string) false false] 5 62 5 15).
  - repeat constructor; unfold startLe; simpl; lia.
  - repeat constructor. intros t H1 H2.
    apply covers_spec in H1, H2. simpl in H1, H2. lia.
  - repeat constructor; unfold wellFormed; simpl; lia.
  - lia.
  - reflexivity.
  - reflexivity.
Defined.

(** C7 as stated fails on a final cut that has a clip with its end before
    its start.  For two candidates 0:00-0:10 and 1:45-1:55 and an
    occurrence of a subject at 1:40 in a 90-second video, the subject pass
    pushes the clip 1:37-1:30; the final cut 0:00-0:10, 1:37-1:30,
    1:45-1:55 is sorted by start and its spans are pairwise disjoint, the
    middle clip counts for -7 seconds, and 0:08 maps to 0:08 while 1:45
    maps to 0:03. *)
Lemma mapping_not_monotone_past_a_reversed_clip :
  map span (finalHighlights pastTheEnd 90) = [(0, 10); (97, 90); (105, 115)]
  /\ sortedByStart (finalHighlights pastTheEnd 90)
  /\ NonOverlapping (finalHighlights pastTheEnd 90)
  /\ mapToHighlightTime 8 (finalHighlights pastTheEnd 90) = Some 8
  /\ mapToHighlightTime 105 (finalHighlights pastTheEnd 90) = Some 3
  /\ ~ (forall A B a b,
          A < B ->
          mapToHighlightTime A (finalHighlights pastTheEnd 90) = Some a ->
          mapToHighlightTime B (finalHighlights pastTheEnd 90) = Some b ->
          a <= b).
Proof.
  assert (Hfinal : finalHighlights pastTheEnd 90
                   = [candidate 0 10;
                      mkSegment 97 90 (Some "friend"%string) None
                                (Some "Rex"%string) false false;
                      candidate 105 115])
    by (vm_compute; reflexivity).
  rewrite Hfinal.
  split; [reflexivity|].
  split; [repeat constructor; unfold startLe; simpl; lia|].
  split.
  { repeat constructor; intros t H1 H2;
      apply covers_spec in H1, H2; simpl in H1, H2; lia. }
  split; [reflexivity|]. split; [reflexivity|].
  intros H. specialize (H 8 105 8 3 ltac:(lia) eq_refl eq_refl). lia.
Qed.

(** ** The highlight rewrite of annotation items *)

(** A rewritten item maps to itself. *)
Lemma mapItem_fixed {P} (highlights : list Segment) (item item' : Item P) :
  mapItem highlights item = Some item' ->
  mapItem highlights item' = Some item'.
Proof.
  unfold mapItem. destruct (timeField item) as [t|]; [|discriminate].
  destruct (mapToHighlightTime (sourceTime item t) highlights) as [m|] eqn:E;
    [|discriminate].
  intros H. injection H as <-. simpl. unfold sourceTime at 1. simpl.
  rewrite E. reflexivity.
Qed.

Lemma filterMap_fixed {A} (f : A -> option A) (l : list A) :
  (forall x y, f x = Some y -> f y = Some y) ->
  filterMap f (filterMap f l) = filterMap f l.
Proof.
  intros Hf. induction l as [|x l IH]; simpl; [reflexivity|].
  destruct (f x) as [y|] eqn:E; [|exact IH].
  simpl. rewrite (Hf _ _ E), IH. reflexivity.
Qed.

Lemma mapAndFilter_twice {P} (arr : list (Item P)) (highlights : list Segment) :
  mapAndFilterForHighlight (mapAndFilterForHighlight arr highlights) highlights
  = mapAndFilterForHighlight arr highlights.
Proof.
  unfold mapAndFilterForHighlight. destruct highlights as [|h hs]; [reflexivity|].
  apply filterMap_fixed. intros x y. apply mapItem_fixed.
Qed.

Lemma filterMap_Forall {A B} (f : A -> option B) (Q : B -> Prop) (l : list A) :
  (forall x y, In x l -> f x = Some y -> Q y) -> Forall Q (filterMap f l).
Proof.
  induction l as [|x l IH]; intros H; simpl; [constructor|].
  destruct (f x) as [y|] eqn:E.
  - constructor; [apply (H x); [left; reflexivity|exact E]|].
    apply IH. intros x' y' Hin. apply H. right. exact Hin.
  - apply IH. intros x' y' Hin. apply H. right. exact Hin.
Qed.

(** C8. Any number of further applications of the rewrite gives what one
    application gives; every rewritten item carries the marker, its
    original-time field holds the time the input item was given (its own
    original-time field when it had one, else its time field), and its time
    field is the image of that time in the cut. *)
Theorem highlight_rewrite_idempotent {P} (arr : list (Item P))
    (highlights : list Segment) (n : nat) :
  Nat.iter (S n) (fun x => mapAndFilterForHighlight x highlights) arr
  = mapAndFilterForHighlight arr highlights
  /\ Forall
       (fun item' =>
          isMapped item' = true
          /\ exists item t,
               In item arr /\ timeField item = Some t
               /\ originalField item'
                  = Some (match originalField item with
                          | Some o => o
                          | None => t
                          end)
               /\ timeField item'
                  = mapToHighlightTime (match originalField item with
                                        | Some o => o
                                        | None => t
                                        end) highlights
               /\ payload item' = payload item)
       (Nat.iter (S n) (fun x => mapAndFilterForHighlight x highlights) arr).
Proof.
  assert (Hiter : Nat.iter (S n) (fun x => mapAndFilterForHighlight x highlights) arr
                  = mapAndFilterForHighlight arr highlights).
  { induction n as [|n IH]; [reflexivity|].
    change (Nat.iter (S (S n)) (fun x => mapAndFilterForHighlight x highlights) arr)
      with (mapAndFilterForHighlight
              (Nat.iter (S n) (fun x => mapAndFilterForHighlight x highlights) arr)
              highlights).
    rewrite IH. apply mapAndFilter_twice. }
  split; [exact Hiter|]. rewrite Hiter.
  unfold mapAndFilterForHighlight. destruct highlights as [|h hs]; [constructor|].
  apply filterMap_Forall. intros item item' Hin Hm.
  unfold mapItem in Hm. destruct (timeField item) as [t|] eqn:Et; [|discriminate].
  destruct (mapToHighlightTime (sourceTime item t) (h :: hs)) as [m|] eqn:E;
    [|discriminate].
  injection Hm as <-. simpl. split; [reflexivity|].
  exists item, t. unfold sourceTime in E. rewrite E.
  repeat split; try assumption; reflexivity.
Qed.

(** ** Coverage passes *)

Lemma covered_iff (t : Z) (l : list Segment) :
  covered t l <-> exists x, In x l /\ covers t x = true.
Proof. unfold covered. apply existsb_exists. Qed.

Lemma covered_app (t : Z) (l1 l2 : list Segment) :
  covered t (l1 ++ l2) <-> covered t l1 \/ covered t l2.
Proof. unfold covered. rewrite existsb_app, orb_true_iff. tauto. Qed.

(** The merger never uncovers an instant. *)
Lemma mergeLoop_covers (rest : list Segment) : forall current t,
  StronglySorted startLe rest ->
  Forall (startLe current) rest ->
  covered t (current :: rest) ->
  covered t (mergeLoop current rest).
Proof.
  induction rest as [|next rest IH]; intros current t Hs Hc H; simpl.
  - exact H.
  - apply StronglySorted_inv in Hs as [Hs Hn].
    inversion Hc as [|? ? Hcn Hcr]; subst. unfold startLe in Hcn.
    apply covered_iff in H as [x [Hin Hx]].
    destruct (start next <=? end_ current + 2).
    + apply IH; [exact Hs| |].
      * eapply Forall_impl; [|exact Hcr].
        intros y Hy. unfold startLe in *. rewrite mergeInto_start. exact Hy.
      * apply covered_iff.
        destruct Hin as [<-|[<-|Hin]].
        -- exists (mergeInto current next). split; [left; reflexivity|].
           apply covers_spec in Hx. apply covers_spec.
           rewrite mergeInto_start, mergeInto_end. lia.
        -- exists (mergeInto current next). split; [left; reflexivity|].
           apply covers_spec in Hx. apply covers_spec.
           rewrite mergeInto_start, mergeInto_end. lia.
        -- exists x. split; [right; exact Hin|exact Hx].
    + apply covered_iff. destruct Hin as [<-|Hin].
      * exists current. split; [left; reflexivity|exact Hx].
      * assert (Hc' : covered t (mergeLoop next rest)).
        { apply IH; [exact Hs|exact Hn|].
          apply covered_iff. exists x. split; assumption. }
        apply covered_iff in Hc' as [y [Hy1 Hy2]].
        exists y. split; [right; exact Hy1|exact Hy2].
Qed.

Lemma merge_sort_covers (t : Z) (l : list Segment) :
  covered t l -> covered t (mergeOverlappingSegments (sortBy byStart l)).
Proof.
  intros H.
  assert (Hs : covered t (sortBy byStart l)).
  { apply covered_iff in H as [x [Hin Hx]]. apply covered_iff.
    exists x. split; [apply sortBy_In; exact Hin|exact Hx]. }
  pose proof (sortBy_byStart_sorted l) as Hsorted.
  unfold mergeOverlappingSegments.
  destruct (sortBy byStart l) as [|s [|s' rest]]; try exact Hs.
  apply StronglySorted_inv in Hsorted as [Hsorted Hf].
  apply mergeLoop_covers; assumption.
Qed.

(** A synthesized clip spans its event when the event lies in the video. *)
Lemma newSeg_spans (videoDuration : Q) (t bufferSeconds : Z) (len : Q) :
  0 <= t -> (inject_Z t <= videoDuration)%Q -> 0 <= bufferSeconds ->
  (0 <= len)%Q ->
  stamp (inject_Z (newSegStart t bufferSeconds)) = Z.max 0 (t - bufferSeconds)
  /\ stamp (newSegEnd videoDuration t len)
     = Qfloor (Qmin videoDuration (inject_Z t + len))
  /\ Z.max 0 (t - bufferSeconds) <= t
     <= Qfloor (Qmin videoDuration (inject_Z t + len)).
Proof.
  intros Ht HD Hb Hlen. unfold newSegStart, newSegEnd.
  assert (Ht' : (0 <= inject_Z t)%Q) by (rewrite Zle_Qle in Ht; exact Ht).
  assert (Hmin : (inject_Z t <= Qmin videoDuration (inject_Z t + len))%Q).
  { apply Q.min_glb; [exact HD|]. set (x := inject_Z t) in *. clearbody x. lra. }
  split; [apply stamp_Z; lia|].
  split; [apply stamp_nonneg; eapply Qle_trans; eassumption|].
  split; [lia|].
  rewrite <- (Qfloor_Z t) at 1. apply Qfloor_resp_le. exact Hmin.
Qed.

Section LoopCoverage.
Context {E : Type}.
Variable step : list Segment -> E -> list Segment.
Variable timeOf : E -> Z.
Variable inRange : E -> Prop.
Hypothesis step_keeps :
  forall segs e u, covered u segs -> covered u (step segs e).
Hypothesis step_covers :
  forall segs e, inRange e -> covered (timeOf e) (step segs e).

Lemma loop_keeps (events : list E) : forall segs u,
  covered u segs -> covered u (fold_left step events segs).
Proof.
  induction events as [|e events IH]; intros segs u H; simpl; auto.
Qed.

End LoopCoverage.


(** *** Recurring subjects *)

Lemma friendStep_keeps D b f segs ts u :
  covered u segs -> covered u (friendStep D b f segs ts).
Proof.
  intros H. unfold friendStep. destruct (existsb _ segs); [exact H|].
  apply covered_app. left. exact H.
Qed.




(** *** Scenery *)

Lemma markScenery_span (isHQ : bool) (seg : Segment) :
  start (markScenery isHQ seg) = start seg
  /\ end_ (markScenery isHQ seg) = end_ seg.
Proof.
  unfold markScenery.
  destruct (JS.srcIs (source seg) "friend"); [destruct isHQ; split; reflexivity|].
  destruct (negb _ || _); destruct isHQ; split; reflexivity.
Qed.

Lemma updateFirst_covers (t : Z) (f : Segment -> Segment) (l : list Segment) :
  (forall x, start (f x) = start x /\ end_ (f x) = end_ x) ->
  match updateFirst (covers t) f l with
  | Some l' => covered t l' /\ forall u, covered u l -> covered u l'
  | None => existsb (covers t) l = false
  end.
Proof.
  intros Hf. induction l as [|x l IH]; simpl; [reflexivity|].
  assert (Hcov : forall u, covers u (f x) = covers u x).
  { intros u. unfold covers. destruct (Hf x) as [-> ->]. reflexivity. }
  destruct (covers t x) eqn:E.
  - split.
    + unfold covered. simpl. rewrite Hcov, E. reflexivity.
    + intros u. unfold covered. simpl. rewrite Hcov. auto.
  - destruct (updateFirst (covers t) f l) as [l'|].
    + destruct IH as [H1 H2]. split.
      * unfold covered in *. simpl. rewrite H1. apply orb_true_r.
      * intros u. unfold covered in *. simpl. rewrite !orb_true_iff.
        intros [H|H]; [left; exact H|right; apply H2; exact H].
    + exact IH.
Qed.





(** *** Safety alerts *)






Lemma updateFirst_pointwise (p : Segment -> bool) (f : Segment -> Segment)
    (R : Segment -> Segment -> Prop) (l l' : list Segment) :
  (forall x, R x x) -> (forall x, R x (f x)) ->
  updateFirst p f l = Some l' -> Forall2 R l l'.
Proof.
  intros Hrefl Hf. revert l'. induction l as [|x l IH]; intros l' H; simpl in H.
  - discriminate.
  - destruct (p x).
    + injection H as <-. constructor; [apply Hf|].
      clear IH. induction l; constructor; auto.
    + destruct (updateFirst p f l) as [r|]; [|discriminate].
      injection H as <-. constructor; [apply Hrefl|]. apply IH. reflexivity.
Qed.

(** *** What a pass pushes *)

Section PushLoop.
Context {E : Type}.
Variable timeOf : E -> option Z.
Variable seg : E -> Z -> Segment.
Variable step : list Segment -> E -> list Segment.
Hypothesis step_eq : forall segs e,
  step segs e
  = match timeOf e with
    | None => segs
    | Some t =>
        if existsb (covers t) segs then segs else segs ++ [seg e t]
    end.

End PushLoop.
















(** ** Mood normalizer: cleaning and deduplication *)

Lemma safeDuration_pos (videoDuration : Q) : 1 <= safeDurationOf videoDuration.
Proof. unfold safeDurationOf. lia. Qed.

Lemma clamp_range (v lo hi : Z) : lo <= hi -> lo <= JS.clamp v lo hi <= hi.
Proof. unfold JS.clamp. lia. Qed.

Lemma cleanItem_range (safeDuration : Z) (item : MoodItem) (p : Point) :
  0 <= safeDuration -> cleanItem safeDuration item = Some p ->
  0 <= sec p <= safeDuration /\ 0 <= value p <= 100.
Proof.
  intros Hs. unfold cleanItem.
  destruct (match mood_name item with Some n => n | None => Fin 0 end);
    [discriminate|].
  destruct (match mood_value item with Some n => n | None => Fin 50 end);
    [discriminate|].
  intros H. injection H as <-. simpl.
  split; apply clamp_range; lia.
Qed.

Lemma cleaned_range (safeDuration : Z) (moodData : list MoodItem) :
  0 <= safeDuration ->
  Forall (fun p => 0 <= sec p <= safeDuration /\ 0 <= value p <= 100)
         (cleaned safeDuration moodData).
Proof.
  intros Hs. unfold cleaned.
  eapply Permutation_Forall; [symmetry; apply sortBy_perm|].
  apply filterMap_Forall. intros x y _. apply cleanItem_range, Hs.
Qed.

Lemma mapGet_mapSet (k k' v : Z) (m : list (Z * Z)) :
  mapGet k (mapSet k' v m) = if k' =? k then Some v else mapGet k m.
Proof.
  unfold mapGet. induction m as [|[k1 v1] m IH]; simpl.
  - destruct (k' =? k); reflexivity.
  - destruct (k1 =? k') eqn:E1; simpl.
    + apply Z.eqb_eq in E1. subst k1. destruct (k' =? k); reflexivity.
    + destruct (k1 =? k) eqn:E2.
      * apply Z.eqb_eq in E2. subst k1. rewrite Z.eqb_sym, E1. reflexivity.
      * exact IH.
Qed.

Lemma mapSet_keys (k0 k v : Z) (m : list (Z * Z)) :
  In k0 (map fst (mapSet k v m)) <-> k0 = k \/ In k0 (map fst m).
Proof.
  induction m as [|[k1 v1] m IH]; simpl.
  - intuition.
  - destruct (k1 =? k) eqn:E; simpl.
    + apply Z.eqb_eq in E. subst k1. intuition.
    + rewrite IH. intuition.
Qed.

Lemma mapSet_NoDup (k v : Z) (m : list (Z * Z)) :
  NoDup (map fst m) -> NoDup (map fst (mapSet k v m)).
Proof.
  induction m as [|[k1 v1] m IH]; simpl; intros H.
  - repeat constructor. intros [].
  - inversion H as [|? ? Hn Hm]; subst.
    destruct (k1 =? k) eqn:E; simpl.
    + constructor; assumption.
    + constructor; [|auto].
      rewrite mapSet_keys. intros [->|Hin]; [|contradiction].
      rewrite Z.eqb_refl in E. discriminate.
Qed.

Lemma dedupe_get (pts : list Point) : forall (m : list (Z * Z)) (k : Z),
  mapGet k (fold_left (fun m p => mapSet (sec p) (value p) m) pts m)
  = fold_left (fun acc p => if sec p =? k then Some (value p) else acc)
              pts (mapGet k m).
Proof.
  induction pts as [|p pts IH]; intros m k; simpl; [reflexivity|].
  rewrite IH, mapGet_mapSet. reflexivity.
Qed.

Lemma dedupe_NoDup (pts : list Point) : forall (m : list (Z * Z)),
  NoDup (map fst m) ->
  NoDup (map fst (fold_left (fun m p => mapSet (sec p) (value p) m) pts m)).
Proof.
  induction pts as [|p pts IH]; intros m H; simpl; [exact H|].
  apply IH, mapSet_NoDup, H.
Qed.

Lemma dedupe_keys (pts : list Point) : forall (m : list (Z * Z)) (k : Z),
  In k (map fst (fold_left (fun m p => mapSet (sec p) (value p) m) pts m))
  <-> In k (map fst m) \/ In k (map sec pts).
Proof.
  induction pts as [|p pts IH]; intros m k; simpl.
  - intuition.
  - rewrite IH, mapSet_keys. intuition.
Qed.

Lemma mapGet_In (k v : Z) (m : list (Z * Z)) :
  NoDup (map fst m) -> In (k, v) m -> mapGet k m = Some v.
Proof.
  unfold mapGet. induction m as [|[k1 v1] m IH]; simpl; intros Hn Hin.
  - destruct Hin.
  - inversion Hn as [|? ? Hk Hm]; subst.
    destruct Hin as [Heq|Hin].
    + injection Heq as -> ->. rewrite Z.eqb_refl. reflexivity.
    + destruct (k1 =? k) eqn:E.
      * apply Z.eqb_eq in E. subst k1. exfalso. apply Hk.
        apply (in_map fst) in Hin. exact Hin.
      * apply IH; assumption.
Qed.

Lemma dedupedPoints_In (pts : list Point) (p : Point) :
  In p (dedupedPoints pts) <-> In (sec p, value p) (deduped pts).
Proof.
  unfold dedupedPoints. rewrite sortBy_In, in_map_iff. split.
  - intros [[k v] [<- Hin]]. exact Hin.
  - intros H. exists (sec p, value p). split; [destruct p; reflexivity|exact H].
Qed.

Lemma dedupedPoints_secs (pts : list Point) :
  Permutation (map sec (dedupedPoints pts)) (map fst (deduped pts)).
Proof.
  unfold dedupedPoints.
  rewrite (Permutation_map sec (sortBy_perm bySec _)).
  rewrite map_map. simpl. apply Permutation_refl.
Qed.

(** One point per second survives, it carries the value of the last point
    at that second, and every second of the input survives. *)
Lemma dedupedPoints_spec (pts : list Point) :
  NoDup (map sec (dedupedPoints pts))
  /\ Forall (fun p => lastValue (sec p) pts = Some (value p)) (dedupedPoints pts)
  /\ Forall (fun q => In (sec q) (map sec (dedupedPoints pts))) pts
  /\ Forall (fun p => In p pts) (dedupedPoints pts).
Proof.
  assert (Hnd : NoDup (map fst (deduped pts)))
    by (apply dedupe_NoDup; constructor).
  assert (Hlast : Forall (fun p => lastValue (sec p) pts = Some (value p))
                         (dedupedPoints pts)).
  { apply Forall_forall. intros p Hp. apply dedupedPoints_In in Hp.
    apply (mapGet_In _ _ _ Hnd) in Hp. unfold deduped in Hp.
    rewrite dedupe_get in Hp. exact Hp. }
  split; [eapply Permutation_NoDup; [symmetry; apply dedupedPoints_secs|exact Hnd]|].
  split; [exact Hlast|]. split.
  - apply Forall_forall. intros q Hq.
    eapply Permutation_in; [symmetry; apply dedupedPoints_secs|].
    unfold deduped. apply dedupe_keys. right. apply in_map. exact Hq.
  - rewrite Forall_forall in *. intros p Hp. specialize (Hlast p Hp).
    unfold lastValue in Hlast. clear Hp.
    assert (Hgen : forall l acc,
               fold_left (fun acc q => if sec q =? sec p then Some (value q) else acc)
                         l acc = Some (value p) ->
               acc = Some (value p) \/ In p l).
    { induction l as [|q l IH]; intros acc H; simpl in H; [left; exact H|].
      destruct (IH _ H) as [Hacc|Hin]; [|right; right; exact Hin].
      destruct (sec q =? sec p) eqn:E; [|left; exact Hacc].
      right. left. apply Z.eqb_eq in E. injection Hacc as Hv.
      destruct p, q; simpl in *; congruence. }
    destruct (Hgen _ _ Hlast) as [H|H]; [discriminate|exact H].
Qed.



(** ** Mood normalizer: boundary points *)

Lemma sortBy_bySec_sorted (l : list Point) : StronglySorted secLe (sortBy bySec l).
Proof.
  apply sortBy_sorted; unfold bySec, secLe; intros.
  - lia.
  - apply Z.ltb_ge in H. exact H.
  - apply Z.ltb_lt in H. lia.
Qed.

Lemma sorted_NoDup_strict (l : list Point) :
  StronglySorted secLe l -> NoDup (map sec l) -> StronglySorted secLt l.
Proof.
  induction 1 as [|a l Hl IH Ha]; intros Hn; [constructor|].
  simpl in Hn. inversion Hn as [|? ? Hnin Hn']; subst.
  constructor; [auto|].
  rewrite Forall_forall in *. intros x Hx.
  specialize (Ha x Hx). unfold secLe, secLt in *.
  assert (sec a <> sec x); [|lia].
  intros E. apply Hnin. rewrite E. apply in_map. exact Hx.
Qed.

Lemma dedupedPoints_sorted (pts : list Point) :
  StronglySorted secLt (dedupedPoints pts).
Proof.
  apply sorted_NoDup_strict.
  - apply sortBy_bySec_sorted.
  - apply dedupedPoints_spec.
Qed.

Lemma sorted_snoc (l : list Point) (q : Point) :
  StronglySorted secLt l -> Forall (fun x => sec x < sec q) l ->
  StronglySorted secLt (l ++ [q]).
Proof.
  induction 1 as [|a l Hl IH Ha]; intros Hq; simpl.
  - repeat constructor.
  - inversion Hq as [|? ? Haq Hlq]; subst.
    constructor; [auto|].
    apply Forall_app. split; [exact Ha|]. repeat constructor. exact Haq.
Qed.

Lemma sorted_snoc_inv (l : list Point) (q : Point) :
  StronglySorted secLt (l ++ [q]) ->
  StronglySorted secLt l /\ Forall (fun x => sec x < sec q) l.
Proof.
  induction l as [|a l IH]; simpl; intros H.
  - split; constructor.
  - apply StronglySorted_inv in H as [H Ha].
    destruct (IH H) as [Hl Hq].
    apply Forall_app in Ha as [Ha Haq]. inversion Haq; subst.
    split; constructor; assumption.
Qed.

Lemma filter_all {A} (f : A -> bool) (l : list A) :
  Forall (fun x => f x = true) l -> filter f l = l.
Proof.
  induction 1 as [|x l Hx Hl IH]; simpl; [reflexivity|].
  rewrite Hx, IH. reflexivity.
Qed.

Lemma last_cons_default {A} (a d : A) (l : list A) :
  last (a :: l) d = last l a.
Proof.
  revert a d. induction l as [|b l IH]; intros a d; [reflexivity|].
  change (last (a :: b :: l) d) with (last (b :: l) d).
  rewrite (IH b d), (IH b a). reflexivity.
Qed.

Lemma last_nonempty_default {A} (d d' : A) (l : list A) :
  l <> [] -> last l d = last l d'.
Proof.
  destruct l as [|a l]; [congruence|]. intros _.
  rewrite !last_cons_default. reflexivity.
Qed.

(** Shape of the list after both boundary fixes, for a first point pinned
    at 0 and later points inside (0, D]. *)
Lemma fixLast_shape (safeDuration v0 : Z) (tl : list Point) :
  1 <= safeDuration ->
  StronglySorted secLt tl ->
  Forall (fun x => 0 < sec x <= safeDuration) tl ->
  exists mid,
    fixLast safeDuration (mkPoint 0 v0 :: tl)
    = mkPoint 0 v0 :: mid
      ++ [mkPoint safeDuration (value (last tl (mkPoint 0 v0)))]
    /\ StronglySorted secLt mid
    /\ Forall (fun x => 0 < sec x < safeDuration) mid
    /\ mid = filter (fun x => sec x <? safeDuration) tl.
Proof.
  intros HD Hs Hr. unfold fixLast.
  destruct tl as [|t0 tl0] eqn:Etl.
  - exists []. simpl. replace (0 <? safeDuration) with true
      by (symmetry; apply Z.ltb_lt; lia).
    repeat split; constructor.
  - rewrite <- Etl in *.
    destruct (exists_last (l := tl)) as [t' [q Eq]]; [rewrite Etl; discriminate|].
    rewrite Eq in *. clear Etl t0 tl0.
    replace (rev (mkPoint 0 v0 :: t' ++ [q]))
      with (q :: rev t' ++ [mkPoint 0 v0])
      by (simpl; rewrite rev_app_distr; reflexivity).
    rewrite last_last.
    apply sorted_snoc_inv in Hs as [Hs Hq].
    apply Forall_app in Hr as [Hr Hrq]. inversion Hrq as [|? ? Hq0 _]; subst.
    destruct (sec q <? safeDuration) eqn:E.
    + apply Z.ltb_lt in E. exists (t' ++ [q]). split; [|split; [|split]].
      * simpl. rewrite <- app_assoc. reflexivity.
      * apply sorted_snoc; assumption.
      * apply Forall_app. split; [|repeat constructor; lia].
        rewrite Forall_forall in *. intros x Hx.
        specialize (Hr x Hx). specialize (Hq x Hx). lia.
      * symmetry. apply filter_all. apply Forall_app. split.
        -- rewrite Forall_forall in *. intros x Hx. specialize (Hq x Hx).
           apply Z.ltb_lt. lia.
        -- repeat constructor. apply Z.ltb_lt. exact E.
    + apply Z.ltb_ge in E. exists t'. split; [|split; [|split]].
      * rewrite rev_app_distr, rev_involutive. reflexivity.
      * exact Hs.
      * rewrite Forall_forall in *. intros x Hx.
        specialize (Hr x Hx). specialize (Hq x Hx). lia.
      * rewrite filter_app. simpl.
        replace (sec q <? safeDuration) with false
          by (symmetry; apply Z.ltb_ge; exact E).
        rewrite app_nil_r. symmetry. apply filter_all.
        rewrite Forall_forall in *. intros x Hx. specialize (Hq x Hx).
        apply Z.ltb_lt. lia.
Qed.

(** The control points run from second 0 to second [safeDuration]; the
    boundary values are those of the nearest surviving point, or 50 when
    nothing survives. *)
Lemma controlPoints_shape (safeDuration : Z) (moodData : list MoodItem) :
  1 <= safeDuration ->
  exists v0 mid v1,
    controlPoints safeDuration moodData
    = mkPoint 0 v0 :: mid ++ [mkPoint safeDuration v1]
    /\ StronglySorted secLt mid
    /\ Forall (fun x => 0 < sec x < safeDuration) mid
    /\ mid = filter (fun x => (0 <? sec x) && (sec x <? safeDuration))
                    (dedupedPoints (cleaned safeDuration moodData))
    /\ match dedupedPoints (cleaned safeDuration moodData) with
       | [] => v0 = 50 /\ v1 = 50
       | p :: rest => v0 = value p /\ v1 = value (last rest p)
       end.
Proof.
  intros HD. unfold controlPoints.
  pose proof (dedupedPoints_sorted (cleaned safeDuration moodData)) as Hs.
  assert (Hr : Forall (fun p => 0 <= sec p <= safeDuration)
                      (dedupedPoints (cleaned safeDuration moodData))).
  { destruct (dedupedPoints_spec (cleaned safeDuration moodData))
      as [_ [_ [_ Hin]]].
    rewrite Forall_forall in *. intros p Hp.
    pose proof (cleaned_range safeDuration moodData ltac:(lia)) as Hc.
    rewrite Forall_forall in Hc. apply Hc, Hin, Hp. }
  destruct (dedupedPoints (cleaned safeDuration moodData)) as [|p rest].
  - exists 50, [], 50. repeat split; constructor.
  - apply StronglySorted_inv in Hs as [Hs Hp].
    inversion Hr as [|? ? Hp0 Hrest]; subst.
    assert (Hrest' : Forall (fun x => 0 < sec x <= safeDuration) rest).
    { rewrite Forall_forall in *. intros x Hx.
      specialize (Hp x Hx). specialize (Hrest x Hx). unfold secLt in Hp. lia. }
    unfold fixFirst. destruct (0 <? sec p) eqn:E.
    + apply Z.ltb_lt in E.
      destruct (fixLast_shape safeDuration (value p) (p :: rest) HD)
        as [mid [Heq [Hm1 [Hm2 Hm3]]]].
      * constructor; assumption.
      * constructor; [lia|exact Hrest'].
      * exists (value p), mid, (value (last rest p)).
        rewrite Heq, last_cons_default. repeat split; try assumption.
        rewrite Hm3. apply filter_ext_in. intros x Hx.
        assert (H0 : 0 < sec x).
        { destruct Hx as [<-|Hx]; [exact E|].
          rewrite Forall_forall in Hrest'. apply Hrest', Hx. }
        apply Z.ltb_lt in H0. rewrite H0. reflexivity.
    + destruct (fixLast_shape safeDuration (value p) rest HD Hs Hrest')
        as [mid [Heq [Hm1 [Hm2 Hm3]]]].
      exists (value p), mid, (value (last rest p)).
      rewrite Heq. split; [|split; [|split; [|split]]]; try assumption.
      * do 4 f_equal. destruct rest as [|r rest']; [reflexivity|].
        f_equal. apply last_nonempty_default. discriminate.
      * simpl. rewrite E. simpl. rewrite Hm3. apply filter_ext_in. intros x Hx.
        rewrite Forall_forall in Hrest'. specialize (Hrest' x Hx).
        replace (0 <? sec x) with true by (symmetry; apply Z.ltb_lt; lia).
        reflexivity.
      * split; reflexivity.
Qed.


(** ** Mood normalizer: interpolation and sampling *)



Lemma targetCount_range (safeDuration : Z) :
  20 <= targetCountOf safeDuration <= 30.
Proof. unfold targetCountOf. apply clamp_range. lia. Qed.

Lemma round_nonneg (x : Q) : (0 <= x)%Q -> 0 <= JS.round x.
Proof.
  intros H. unfold JS.round. rewrite <- (Qfloor_Z 0).
  apply Qfloor_resp_le. change (inject_Z 0) with 0%Q. lra.
Qed.

Lemma gridSec_nonneg (safeDuration targetCount i : Z) :
  0 <= safeDuration -> 1 < targetCount -> 0 <= i ->
  0 <= gridSec safeDuration targetCount i.
Proof.
  intros HD Hn Hi. unfold gridSec.
  destruct (i =? targetCount - 1); [exact HD|].
  apply round_nonneg. unfold Qdiv. apply Qmult_le_0_compat.
  - change 0%Q with (inject_Z 0). rewrite <- Zle_Qle. nia.
  - apply Qinv_le_0_compat. change 0%Q with (inject_Z 0).
    rewrite <- Zle_Qle. lia.
Qed.

Lemma gridSec_first (safeDuration targetCount : Z) :
  1 < targetCount -> gridSec safeDuration targetCount 0 = 0.
Proof.
  intros Hn. unfold gridSec.
  replace (0 =? targetCount - 1) with false by (symmetry; apply Z.eqb_neq; lia).
  simpl. unfold JS.round, Qdiv.
  rewrite (Qfloor_comp _ (1 # 2)); [reflexivity|].
  change (inject_Z 0) with 0%Q. rewrite Qmult_0_l. reflexivity.
Qed.

Lemma gridSec_last (safeDuration targetCount : Z) :
  gridSec safeDuration targetCount (targetCount - 1) = safeDuration.
Proof. unfold gridSec. rewrite Z.eqb_refl. reflexivity. Qed.


Lemma inject_Z_sub (a b : Z) : (inject_Z (a - b) == inject_Z a - inject_Z b)%Q.
Proof.
  unfold Z.sub. rewrite inject_Z_plus, inject_Z_opp. reflexivity.
Qed.

Lemma interpolateLoop_hull (lo hi t : Z) (rest : list Point) : forall leftP,
  sec leftP < t ->
  lo <= value leftP <= hi ->
  Forall (fun p => lo <= value p <= hi) rest ->
  (inject_Z lo <= interpolateLoop leftP rest t <= inject_Z hi)%Q.
Proof.
  induction rest as [|rightP rest IH]; intros leftP Hlt Hl Hr; simpl.
  - rewrite <- !Zle_Qle. exact Hl.
  - inversion Hr as [|? ? Hv Hrest]; subst.
    destruct (t <=? sec rightP) eqn:Et.
    + apply Z.leb_le in Et.
      destruct (sec rightP - sec leftP <=? 0) eqn:Es.
      * rewrite <- !Zle_Qle. exact Hv.
      * apply Z.leb_gt in Es.
        set (ratio := (inject_Z (t - sec leftP)
                       / inject_Z (sec rightP - sec leftP))%Q).
        assert (Hden : (0 < inject_Z (sec rightP - sec leftP))%Q).
        { change 0%Q with (inject_Z 0). rewrite <- Zlt_Qlt. exact Es. }
        assert (H0 : (0 <= ratio)%Q).
        { apply Qle_shift_div_l; [exact Hden|]. rewrite Qmult_0_l.
          change 0%Q with (inject_Z 0). rewrite <- Zle_Qle. lia. }
        assert (H1 : (ratio <= 1)%Q).
        { apply Qle_shift_div_r; [exact Hden|]. rewrite Qmult_1_l.
          rewrite <- Zle_Qle. lia. }
        rewrite inject_Z_sub.
        assert (Ha : (inject_Z lo <= inject_Z (value leftP) <= inject_Z hi)%Q)
          by (rewrite <- !Zle_Qle; exact Hl).
        assert (Hb : (inject_Z lo <= inject_Z (value rightP) <= inject_Z hi)%Q)
          by (rewrite <- !Zle_Qle; exact Hv).
        set (a := inject_Z (value leftP)) in *.
        set (b := inject_Z (value rightP)) in *.
        set (L := inject_Z lo) in *. set (H := inject_Z hi) in *.
        clearbody a b L H ratio. split; nra.
    + apply Z.leb_gt in Et. apply IH; [exact Et|exact Hv|exact Hrest].
Qed.

Lemma round_between (x : Q) (lo hi : Z) :
  (inject_Z lo <= x <= inject_Z hi)%Q -> lo <= JS.round x <= hi.
Proof.
  intros [Hl Hh]. unfold JS.round. split.
  - rewrite <- (Qfloor_Z lo). apply Qfloor_resp_le. lra.
  - assert (Hlt : Qfloor (x + (1 # 2)) < hi + 1); [|lia].
    rewrite Zlt_Qlt, inject_Z_plus.
    pose proof (Qfloor_le (x + (1 # 2))) as Hf.
    change (inject_Z 1) with 1%Q.
    set (f := inject_Z (Qfloor (x + (1 # 2)))) in *.
    set (h := inject_Z hi) in *. clearbody f h. lra.
Qed.

Lemma last_In_cons {A} (l : list A) : forall d, In (last l d) (d :: l).
Proof.
  induction l as [|a l IH]; intros d; [left; reflexivity|].
  right. rewrite last_cons_default. apply IH.
Qed.

Lemma controlPoints_values (safeDuration lo hi : Z) (moodData : list MoodItem) :
  1 <= safeDuration ->
  cleaned safeDuration moodData <> [] ->
  Forall (fun p => lo <= value p <= hi) (cleaned safeDuration moodData) ->
  Forall (fun p => lo <= value p <= hi) (controlPoints safeDuration moodData).
Proof.
  intros HD Hne Hv.
  destruct (dedupedPoints_spec (cleaned safeDuration moodData))
    as [_ [_ [Hkeys Hsub]]].
  destruct (controlPoints_shape safeDuration moodData HD)
    as [v0 [mid [v1 [Hcp [_ [_ [Hmid Hends]]]]]]].
  rewrite Forall_forall in Hv, Hsub.
  assert (Hdp : forall p, In p (dedupedPoints (cleaned safeDuration moodData))
                          -> lo <= value p <= hi)
    by (intros p Hp; apply Hv, Hsub, Hp).
  rewrite Hcp.
  destruct (dedupedPoints (cleaned safeDuration moodData)) as [|p rest] eqn:Edp.
  - exfalso. destruct (cleaned safeDuration moodData) as [|q cl];
      [congruence|].
    inversion Hkeys as [|? ? Hq _]; subst. exact Hq.
  - destruct Hends as [-> ->].
    constructor; [simpl; apply Hdp; left; reflexivity|].
    apply Forall_app. split.
    + apply Forall_forall. intros x Hx. rewrite Hmid in Hx.
      apply filter_In in Hx as [Hx _]. apply Hdp, Hx.
    + constructor; [|constructor]. simpl. apply Hdp, last_In_cons.
Qed.

Lemma round_mono (x y : Q) : (x <= y)%Q -> JS.round x <= JS.round y.
Proof. intros H. unfold JS.round. apply Qfloor_resp_le. lra. Qed.

Lemma round_Z (n : Z) : JS.round (inject_Z n) = n.
Proof.
  pose proof (round_between (inject_Z n) n n) as H.
  assert (Hn : (inject_Z n <= inject_Z n <= inject_Z n)%Q)
    by (split; apply Qle_refl).
  apply H in Hn. lia.
Qed.

Lemma gridSec_mono (safeDuration targetCount i j : Z) :
  0 <= safeDuration -> 1 < targetCount ->
  0 <= i <= j -> j <= targetCount - 1 ->
  gridSec safeDuration targetCount i <= gridSec safeDuration targetCount j.
Proof.
  intros HD Hn Hij Hj.
  assert (Hden : (0 < inject_Z (targetCount - 1))%Q).
  { change 0%Q with (inject_Z 0). rewrite <- Zlt_Qlt. lia. }
  assert (Hstep : forall a b, a <= b ->
            (inject_Z a / inject_Z (targetCount - 1)
             <= inject_Z b / inject_Z (targetCount - 1))%Q).
  { intros a b Hab. unfold Qdiv. apply Qmult_le_compat_r.
    - rewrite <- Zle_Qle. exact Hab.
    - apply Qinv_le_0_compat, Qlt_le_weak, Hden. }
  unfold gridSec.
  destruct (j =? targetCount - 1) eqn:Ej.
  - destruct (i =? targetCount - 1); [lia|].
    rewrite <- (round_Z safeDuration) at 2. apply round_mono.
    apply Qle_shift_div_r; [exact Hden|].
    rewrite <- inject_Z_mult, <- Zle_Qle. nia.
  - apply Z.eqb_neq in Ej.
    replace (i =? targetCount - 1) with false
      by (symmetry; apply Z.eqb_neq; lia).
    apply round_mono, Hstep. nia.
Qed.

Lemma sorted_map_seq {A} (R : A -> A -> Prop) (f : nat -> A) (n : nat) :
  (forall i j, (i < j < n)%nat -> R (f i) (f j)) ->
  forall len start, (start + len <= n)%nat ->
  StronglySorted R (map f (seq start len)).
Proof.
  intros HR. induction len as [|len IH]; intros start Hb; simpl;
    constructor.
  - apply IH. lia.
  - apply Forall_map, Forall_forall. intros j Hj. apply in_seq in Hj.
    apply HR. lia.
Qed.







(** Where the arithmetic shows.  For the two mood entries (0:00, 0) and
    (0:10, 45) and a 10-second video, the sample at 0:07 is 31 in double
    precision ([45 * (7 / 10)] is 31.499999999999996) and 32 with exact
    numbers ([63 / 2] rounds up); both lie between 0 and 45. *)
Lemma interpolation_rounding_in_doubles :
  controlPoints (safeDurationOf 10)
                [mkMoodItem (Some (Fin 0)) (Some (Fin 0));
                 mkMoodItem (Some (Fin 10)) (Some (Fin 45))]
  = [mkPoint 0 0; mkPoint 10 45]
  /\ gridSec 10 (targetCountOf 10) 13 = 7
  /\ Double.interpolateMoodValue [mkPoint 0 0; mkPoint 10 45] 7
     = S754_finite false 8866461766385663 (-48)
  /\ Double.sampleValue [mkPoint 0 0; mkPoint 10 45] 7 = Some 31
  /\ (interpolateMoodValue [mkPoint 0 0; mkPoint 10 45] 7 == 63 # 2)%Q
  /\ JS.clamp (JS.round (interpolateMoodValue [mkPoint 0 0; mkPoint 10 45] 7))
              0 100 = 32.
Proof. vm_compute. repeat split. Qed.

(** ** Mood normalizer: nothing usable in the input *)

Lemma filterMap_none {A B} (f : A -> option B) (l : list A) :
  Forall (fun x => f x = None) l -> filterMap f l = [].
Proof.
  induction 1 as [|x l Hx Hl IH]; simpl; [reflexivity|].
  rewrite Hx. exact IH.
Qed.

Lemma interpolate_flat (safeDuration t : Z) :
  1 <= safeDuration ->
  (interpolateMoodValue [mkPoint 0 50; mkPoint safeDuration 50] t == 50)%Q.
Proof.
  intros HD. unfold interpolateMoodValue. simpl.
  destruct (t <=? 0); [reflexivity|].
  destruct (t <=? safeDuration); [|reflexivity].
  replace (safeDuration - 0 <=? 0) with false
    by (symmetry; apply Z.leb_gt; lia).
  change (inject_Z (50 - 50)) with 0%Q. rewrite Qmult_0_l.
  reflexivity.
Qed.

(** C10 (as the code has it). When every entry of the mood list is
    discarded (in particular when the list is empty), the result is the
    full grid of [clamp(round(D / 12), 20, 30)] samples for [D] the source
    duration rounded to whole seconds and at least 1; the first sample is
    at 0:00, the last at [D], and every value is 50. *)
Theorem mood_default_curve (moodData : list MoodItem) (videoDuration : Q) :
  let D := safeDurationOf videoDuration in
  let n := targetCountOf D in
  Forall (fun item => cleanItem D item = None) moodData ->
  normalizeMoodData moodData videoDuration
  = map (fun i => mkMoodSample (gridSec D n (Z.of_nat i)) 50) (seq 0 (Z.to_nat n))
  /\ List.length (normalizeMoodData moodData videoDuration) = Z.to_nat n
  /\ n = JS.clamp (JS.round (inject_Z D / 12)) 20 30
  /\ D = Z.max 1 (JS.round videoDuration)
  /\ gridSec D n 0 = 0
  /\ gridSec D n (n - 1) = D
  /\ Forall (fun s => sample_value s = 50) (normalizeMoodData moodData videoDuration).
Proof.
  intros D n Hall.
  pose proof (safeDuration_pos videoDuration) as HD. fold D in HD.
  pose proof (targetCount_range D) as Hn. fold n in Hn.
  assert (Hcp : controlPoints D moodData = [mkPoint 0 50; mkPoint D 50]).
  { unfold controlPoints, cleaned. rewrite (filterMap_none _ _ Hall). reflexivity. }
  assert (Heq : normalizeMoodData moodData videoDuration
                = map (fun i => mkMoodSample (gridSec D n (Z.of_nat i)) 50)
                      (seq 0 (Z.to_nat n))).
  { unfold normalizeMoodData. fold D. fold n. rewrite Hcp.
    apply map_ext. intros i. unfold sampleAt. f_equal.
    - apply stamp_Z, gridSec_nonneg; lia.
    - unfold JS.round.
      rewrite (Qfloor_comp _ (50 + (1 # 2))%Q);
        [reflexivity|rewrite (interpolate_flat D _ HD); reflexivity]. }
  split; [exact Heq|].
  split; [rewrite Heq, length_map, length_seq; reflexivity|].
  split; [reflexivity|]. split; [reflexivity|].
  split; [apply gridSec_first; lia|]. split; [apply gridSec_last|].
  rewrite Heq. apply Forall_forall. intros s Hs.
  apply in_map_iff in Hs as [i [<- _]]. reflexivity.
Qed.

Lemma mood_default_curve_witness :
  List.length (normalizeMoodData moodUnreadable 60) = 20%nat
  /\ Forall (fun s => sample_value s = 50) (normalizeMoodData moodUnreadable 60).
Proof.
  destruct (mood_default_curve moodUnreadable 60) as [_ [Hlen [_ [_ [_ [_ Hall]]]]]].
  - repeat constructor.
  - split; [exact Hlen|exact Hall].
Defined.

(** C10 as stated fails for a source duration of 245.6 seconds and an empty
    mood list: 21 samples are returned, the last at 4:06, whereas
    [clamp(round(245.6 / 12), 20, 30) = 20]. *)
Lemma mood_default_count_rounds_duration_first :
  List.length (normalizeMoodData [] (2456 # 10)) = 21%nat
  /\ JS.clamp (JS.round ((2456 # 10) / 12)) 20 30 = 20
  /\ List.length (normalizeMoodData [] (2456 # 10))
     <> Z.to_nat (JS.clamp (JS.round ((2456 # 10) / 12)) 20 30)
  /\ sample_name (last (normalizeMoodData [] (2456 # 10)) (mkMoodSample 0 0))
     = 246
  /\ Forall (fun s => sample_value s = 50) (normalizeMoodData [] (2456 # 10)).
Proof.
  split; [vm_compute; reflexivity|]. split; [vm_compute; reflexivity|].
  split; [vm_compute; discriminate|]. split; [vm_compute; reflexivity|].
  vm_compute. repeat constructor.
Qed.
(** ** Time stamps as text: reading back what is printed *)

Lemma digitVal_digitChar (d : Z) :
  0 <= d <= 9 -> Text.digitVal (Text.digitChar d) = Some d.
Proof.
  intros H.
  assert (Hd : d = 0 \/ d = 1 \/ d = 2 \/ d = 3 \/ d = 4 \/ d = 5 \/ d = 6
               \/ d = 7 \/ d = 8 \/ d = 9) by lia.
  repeat (destruct Hd as [->|Hd]; [reflexivity|]). subst d. reflexivity.
Qed.

Lemma digit_not_colon (c : ascii) :
  isSome (Text.digitVal c) = true ->
  Ascii.eqb c ":"%char = false /\ Ascii.eqb c "-"%char = false.
Proof.
  intros H. split; destruct (Ascii.eqb c _) eqn:E; try reflexivity;
    apply Ascii.eqb_eq in E; subst c; discriminate H.
Qed.

Lemma readDigits_cons (a : Z) (c : ascii) (s : string) :
  Text.readDigits a (String c s)
  = match Text.digitVal c with
    | Some d => Text.readDigits (10 * a + d) s
    | None => None
    end.
Proof. reflexivity. Qed.

Lemma allDigits_cons (c : ascii) (s : string) :
  Text.allDigits (String c s) = isSome (Text.digitVal c) && Text.allDigits s.
Proof. reflexivity. Qed.

Lemma showDigits_read (fuel : nat) : forall n acc,
  0 <= n < 10 ^ Z.of_nat fuel ->
  Text.readDigits 0 (Text.showDigits fuel n acc) = Text.readDigits n acc.
Proof.
  induction fuel as [|fuel IH]; intros n acc Hn.
  - simpl in *. assert (n = 0) as -> by lia. reflexivity.
  - simpl Text.showDigits. destruct (n <? 10) eqn:E.
    + apply Z.ltb_lt in E. rewrite readDigits_cons.
      rewrite digitVal_digitChar by lia. reflexivity.
    + apply Z.ltb_ge in E. rewrite IH.
      * rewrite readDigits_cons.
        rewrite digitVal_digitChar by (pose proof (Z.mod_pos_bound n 10); lia).
        f_equal. pose proof (Z.div_mod n 10). lia.
      * rewrite Nat2Z.inj_succ, Z.pow_succ_r in Hn by lia.
        split; [apply Z.div_pos; lia|].
        apply Z.div_lt_upper_bound; lia.
Qed.

Lemma showDigits_allDigits (fuel : nat) : forall n acc,
  0 <= n -> Text.allDigits acc = true ->
  Text.allDigits (Text.showDigits fuel n acc) = true.
Proof.
  induction fuel as [|fuel IH]; intros n acc Hn Hacc; [exact Hacc|].
  simpl Text.showDigits. destruct (n <? 10) eqn:E.
  - apply Z.ltb_lt in E. rewrite allDigits_cons.
    rewrite digitVal_digitChar by lia. exact Hacc.
  - apply IH; [apply Z.div_pos; lia|]. rewrite allDigits_cons.
    rewrite digitVal_digitChar by (pose proof (Z.mod_pos_bound n 10); lia).
    exact Hacc.
Qed.

Lemma showDigits_nonempty (fuel : nat) : forall n acc,
  Text.showDigits fuel n acc = EmptyString -> acc = EmptyString.
Proof.
  induction fuel as [|fuel IH]; intros n acc H; [exact H|].
  simpl Text.showDigits in H.
  destruct (n <? 10); [discriminate|].
  apply IH in H. discriminate.
Qed.

Lemma showNat_spec (n : Z) :
  0 <= n ->
  Text.allDigits (Text.showNat n) = true
  /\ Text.showNat n <> EmptyString
  /\ Text.readDigits 0 (Text.showNat n) = Some n.
Proof.
  intros Hn. unfold Text.showNat. split; [|split].
  - apply showDigits_allDigits; [exact Hn|reflexivity].
  - simpl Text.showDigits. destruct (n <? 10); [discriminate|].
    intros H. apply showDigits_nonempty in H. discriminate.
  - rewrite showDigits_read; [reflexivity|].
    split; [exact Hn|].
    rewrite Nat2Z.inj_succ, Z2Nat.id by apply Z.log2_nonneg.
    destruct (Z.eq_dec n 0) as [->|Hne]; [reflexivity|].
    pose proof (Z.log2_spec n ltac:(lia)) as [_ Hlt].
    eapply Z.lt_le_trans; [exact Hlt|].
    apply Z.pow_le_mono_l. pose proof (Z.log2_nonneg n). lia.
Qed.

Lemma allDigits_noColon (s : string) :
  Text.allDigits s = true -> Text.noColon s = true.
Proof.
  induction s as [|c s IH]; simpl; [reflexivity|].
  intros H. apply andb_true_iff in H as [Hc Hs].
  destruct (digit_not_colon c Hc) as [-> _]. simpl. auto.
Qed.

Lemma Number_digits (s : string) :
  Text.allDigits s = true -> s <> EmptyString ->
  Text.Number s = Text.readDigits 0 s.
Proof.
  destruct s as [|c s]; [congruence|]. simpl. intros H _.
  apply andb_true_iff in H as [Hc _].
  destruct (digit_not_colon c Hc) as [_ ->]. reflexivity.
Qed.

Lemma toString_spec (z : Z) :
  Text.noColon (Text.toString z) = true
  /\ Text.Number (Text.toString z) = Some z
  /\ Text.noColon (Text.padStart2 (Text.toString z)) = true
  /\ Text.Number (Text.padStart2 (Text.toString z)) = Some z.
Proof.
  unfold Text.toString. destruct (z <? 0) eqn:E.
  - apply Z.ltb_lt in E.
    destruct (showNat_spec (- z) ltac:(lia)) as [Hd [Hne Hr]].
    assert (Hnum : Text.Number (String "-" (Text.showNat (- z))) = Some z).
    { simpl. destruct (Text.showNat (- z)) as [|c s] eqn:Es; [congruence|].
      rewrite Hr. simpl. f_equal. lia. }
    assert (Hnc : Text.noColon (String "-" (Text.showNat (- z))) = true).
    { simpl. apply allDigits_noColon, Hd. }
    assert (Hpad : Text.padStart2 (String "-" (Text.showNat (- z)))
                   = String "-" (Text.showNat (- z))).
    { simpl. destruct (Text.showNat (- z)); [congruence|reflexivity]. }
    rewrite Hpad. repeat split; assumption.
  - apply Z.ltb_ge in E.
    destruct (showNat_spec z E) as [Hd [Hne Hr]].
    assert (Hnum : Text.Number (Text.showNat z) = Some z).
    { rewrite Number_digits; assumption. }
    split; [apply allDigits_noColon, Hd|]. split; [exact Hnum|].
    destruct (Text.showNat z) as [|c [|c' s]] eqn:Es; [congruence| |].
    + simpl in Hd. apply andb_true_iff in Hd as [Hc _].
      split.
      * simpl. destruct (digit_not_colon c Hc) as [-> _]. reflexivity.
      * simpl. simpl in Hr. exact Hr.
    + simpl Text.padStart2. split; [apply allDigits_noColon, Hd|exact Hnum].
Qed.

Lemma split_noColon (s : string) :
  Text.noColon s = true -> Text.split s = [s].
Proof.
  induction s as [|c s IH]; simpl; [reflexivity|].
  intros H. apply andb_true_iff in H as [Hc Hs].
  rewrite (IH Hs). apply negb_true_iff in Hc. rewrite Hc. reflexivity.
Qed.

Lemma split_colon (a b : string) :
  Text.noColon a = true -> Text.noColon b = true ->
  Text.split (a ++ String ":" b) = [a; b].
Proof.
  intros Ha Hb. induction a as [|c a IH]; simpl.
  - rewrite (split_noColon b Hb). reflexivity.
  - simpl in Ha. apply andb_true_iff in Ha as [Hc Ha].
    rewrite (IH Ha). apply negb_true_iff in Hc. rewrite Hc. reflexivity.
Qed.

(** Reading back the text printed by [secondsToTime] gives [stamp]. *)
Lemma timeToSeconds_secondsToTime (x : Q) :
  Text.timeToSeconds (Text.secondsToTime x) = Some (stamp x).
Proof.
  unfold Text.timeToSeconds, Text.secondsToTime, stamp.
  set (m := Qfloor (x / 60)). set (s := Qfloor (JS.rem60 x)).
  destruct (toString_spec m) as [Hm1 [Hm2 _]].
  destruct (toString_spec s) as [_ [_ [Hs1 Hs2]]].
  replace (String.eqb _ EmptyString) with false.
  - change (":" ++ Text.padStart2 (Text.toString s))%string
      with (String ":" (Text.padStart2 (Text.toString s))).
    rewrite (split_colon _ _ Hm1 Hs1). cbn [map]. rewrite Hm2, Hs2.
    f_equal. lia.
  - symmetry. apply String.eqb_neq. intros H.
    destruct (Text.toString m); discriminate H.
Qed.

(* ================================================================== *)
(** * Further properties of the engine *)
(* ================================================================== *)

(** ** Time stamps as text *)

(** Whatever the number, negative ones included, the text that
    [secondsToTime] prints is readable and never reads back above the
    number; on a non-negative number it reads back as the whole seconds of
    the number. *)
Theorem text_round_trip (x : Q) :
  exists z,
    Text.timeToSeconds (Text.secondsToTime x) = Some z
    /\ (inject_Z z <= x)%Q
    /\ ((0 <= x)%Q -> z = Qfloor x).
Proof.
  exists (stamp x). split; [apply timeToSeconds_secondsToTime|].
  split; [apply stamp_le|apply stamp_nonneg].
Qed.

Lemma split_first_field (a rest : string) :
  Text.noColon a = true ->
  Text.split (a ++ String ":" rest) = a :: Text.split rest.
Proof.
  intros Ha. induction a as [|c a IH].
  - simpl. destruct (Text.split rest) eqn:E; [|reflexivity].
    exfalso. clear -E. induction rest as [|c r IHr]; simpl in E; [discriminate|].
    destruct (Text.split r); [auto|]. destruct (Ascii.eqb c ":"); discriminate.
  - simpl in Ha. apply andb_true_iff in Ha as [Hc Ha].
    simpl. rewrite (IH Ha). apply negb_true_iff in Hc. rewrite Hc. reflexivity.
Qed.

(** A text with three fields, as in [H:MM:SS], is read as its first field
    alone, and a text without a colon as a plain number of seconds. *)
Theorem timeToSeconds_other_field_counts (a b c : string) :
  Text.noColon a = true -> Text.noColon b = true -> Text.noColon c = true ->
  Text.timeToSeconds (a ++ String ":" (b ++ String ":" c)) = Text.Number a
  /\ Text.timeToSeconds a = Text.Number a.
Proof.
  intros Ha Hb Hc. split.
  - unfold Text.timeToSeconds.
    replace (String.eqb _ EmptyString) with false
      by (symmetry; apply String.eqb_neq; destruct a; discriminate).
    rewrite (split_first_field a _ Ha), (split_colon b c Hb Hc). cbn [map].
    destruct (Text.Number a), (Text.Number b), (Text.Number c); reflexivity.
  - unfold Text.timeToSeconds. destruct (String.eqb a EmptyString) eqn:E.
    + apply String.eqb_eq in E. subst a. reflexivity.
    + rewrite (split_noColon a Ha). cbn [map].
      destruct (Text.Number a); reflexivity.
Qed.

Lemma timeToSeconds_other_field_counts_witness :
  Text.timeToSeconds threeFieldText = Some 1
  /\ Text.timeToSeconds "75" = Some 75.
Proof.
  destruct (timeToSeconds_other_field_counts "1" "02" "03") as [H1 _];
    try reflexivity.
  destruct (timeToSeconds_other_field_counts "75" "" "") as [_ H2];
    try reflexivity.
  split; [exact H1|exact H2].
Defined.

(** ** The merger on its own *)



(** On a sorted list the merger never uncovers an instant. *)
Theorem merger_never_uncovers (segments : list Segment) (t : Z) :
  sortedByStart segments -> covered t segments ->
  covered t (mergeOverlappingSegments segments).
Proof.
  intros Hs Hc. unfold mergeOverlappingSegments.
  destruct segments as [|s [|s' rest]]; try exact Hc.
  apply StronglySorted_inv in Hs as [Hs Hf].
  apply mergeLoop_covers; assumption.
Qed.

Lemma merger_never_uncovers_witness :
  covered 9 (mergeOverlappingSegments twoOverlapping).
Proof.
  apply (merger_never_uncovers twoOverlapping 9).
  - repeat constructor; unfold startLe; simpl; lia.
  - reflexivity.
Defined.

Lemma mergeLoop_boundaries (rest : list Segment) : forall current (pool : list Segment),
  incl rest pool ->
  (exists a b, In a pool /\ In b pool
               /\ start current = start a /\ end_ current = end_ b) ->
  Forall (fun o => exists a b, In a pool /\ In b pool
                               /\ start o = start a /\ end_ o = end_ b)
         (mergeLoop current rest).
Proof.
  induction rest as [|next rest IH]; intros current pool Hincl Hc; simpl.
  - repeat constructor. exact Hc.
  - assert (Hn : In next pool) by (apply Hincl; left; reflexivity).
    assert (Hr : incl rest pool) by (intros x Hx; apply Hincl; right; exact Hx).
    destruct (start next <=? end_ current + 2).
    + apply IH; [exact Hr|].
      destruct Hc as [a [b [Ha [Hb [Hsa Heb]]]]].
      rewrite mergeInto_start, mergeInto_end.
      destruct (Z.max_spec (end_ current) (end_ next)) as [[_ ->]|[_ ->]].
      * exists a, next. repeat split; assumption.
      * exists a, b. repeat split; assumption.
    + constructor; [exact Hc|].
      apply IH; [exact Hr|]. exists next, next. repeat split; assumption.
Qed.

(** The merger invents no boundary: every clip it returns starts where
    some input clip starts and ends where some input clip ends. *)
Theorem merger_boundaries_from_input (segments : list Segment) :
  Forall (fun o => exists a b, In a segments /\ In b segments
                               /\ start o = start a /\ end_ o = end_ b)
         (mergeOverlappingSegments segments).
Proof.
  unfold mergeOverlappingSegments. destruct segments as [|s [|s' rest]].
  - constructor.
  - repeat constructor. exists s, s. repeat split; left; reflexivity.
  - apply mergeLoop_boundaries.
    + intros x Hx. right. exact Hx.
    + exists s, s. repeat split; left; reflexivity.
Qed.

Lemma mergeLoop_apart (rest : list Segment) : forall current,
  ForallOrdPairs gapBefore (current :: rest) ->
  mergeLoop current rest = current :: rest.
Proof.
  induction rest as [|next rest IH]; intros current H; [reflexivity|].
  apply FOP_inv in H as [Hc Hr]. inversion Hc as [|? ? Hcn _]; subst.
  unfold gapBefore in Hcn. simpl.
  replace (start next <=? end_ current + 2) with false
    by (symmetry; apply Z.leb_gt; exact Hcn).
  rewrite (IH next Hr). reflexivity.
Qed.

(** Merging is idempotent on sorted input: a merged list is left as it
    is by a second merge. *)
Theorem merger_idempotent (segments : list Segment) :
  sortedByStart segments ->
  mergeOverlappingSegments (mergeOverlappingSegments segments)
  = mergeOverlappingSegments segments.
Proof.
  intros Hs. destruct (merge_canonical segments Hs) as [_ Hg].
  destruct (mergeOverlappingSegments segments) as [|o [|o' rest]];
    try reflexivity.
  unfold mergeOverlappingSegments. apply mergeLoop_apart. exact Hg.
Qed.

Lemma merger_idempotent_witness :
  mergeOverlappingSegments (mergeOverlappingSegments twoOverlapping)
  = mergeOverlappingSegments twoOverlapping.
Proof.
  apply (merger_idempotent twoOverlapping).
  repeat constructor; unfold startLe; simpl; lia.
Defined.

(** ** Coverage passes: feeding, and what no pass does *)





Lemma friendsLoop_keeps D b (friends : list Friend) : forall segs u,
  covered u segs -> covered u (friendsLoop D b friends segs).
Proof.
  unfold friendsLoop. intros segs u H.
  apply (loop_keeps
           (fun segs f => fold_left (friendStep D b f) (allTimestamps f) segs));
    [|exact H].
  intros s0 e v Hv. apply loop_keeps; [|exact Hv].
  intros; apply friendStep_keeps; assumption.
Qed.



(** ** Scenery found inside an existing clip *)

Lemma markScenery_rank (isHQ : bool) (seg : Segment) :
  getSourcePriority (source seg) <= getSourcePriority (source (markScenery isHQ seg))
  /\ isHighQuality seg || isHighQuality (markScenery isHQ seg)
     = isHighQuality (markScenery isHQ seg).
Proof.
  unfold markScenery.
  destruct (JS.srcIs (source seg) "friend") eqn:Ef.
  - assert (Hp : getSourcePriority (source seg) = 80).
    { destruct (source seg) as [x|]; [|discriminate]. simpl in Ef.
      apply String.eqb_eq in Ef. subst x. reflexivity. }
    rewrite Hp. destruct isHQ; simpl; split;
      try (unfold getSourcePriority; simpl; lia);
      destruct (isHighQuality seg); reflexivity.
  - destruct (negb (JS.truthy (source seg)) || JS.srcIs (source seg) "ai") eqn:Ea.
    + assert (Hp : getSourcePriority (source seg) = 10).
      { destruct (source seg) as [x|]; [|reflexivity].
        apply orb_true_iff in Ea as [Ea|Ea]; simpl in Ea.
        - apply negb_true_iff, negb_false_iff, String.eqb_eq in Ea.
          subst x. reflexivity.
        - apply String.eqb_eq in Ea. subst x. reflexivity. }
      rewrite Hp. destruct isHQ; simpl; split;
        try (unfold getSourcePriority; simpl; lia);
        destruct (isHighQuality seg); reflexivity.
    + destruct isHQ; simpl; split; try lia;
        destruct (isHighQuality seg); reflexivity.
Qed.

Lemma updateFirst_find (p : Segment -> bool) (f : Segment -> Segment)
    (l : list Segment) :
  (forall x, p (f x) = p x) ->
  match updateFirst p f l with
  | Some l' => find p l' = option_map f (find p l) /\ find p l <> None
  | None => find p l = None
  end.
Proof.
  intros Hp. induction l as [|x l IH]; simpl; [reflexivity|].
  destruct (p x) eqn:E.
  - simpl. rewrite Hp, E. split; [reflexivity|discriminate].
  - destruct (updateFirst p f l) as [r|].
    + simpl. rewrite E. exact IH.
    + exact IH.
Qed.

(** When a scenery moment lies inside an existing clip, the step of the
    scenery pass adds no clip and changes no span; the first clip spanning
    the moment is re-tagged (a subject clip becomes the combined tag, an
    untagged or ai clip becomes scenery); no clip loses rank or its
    high-quality flag. *)
Theorem scenery_inside_existing_clip (videoDuration : Q) (b : Z)
    (segments : list Segment) (scene : Scenery) :
  covered (timeOr0 (scene_timestamp scene)) segments ->
  let sceneTime := timeOr0 (scene_timestamp scene) in
  let isHQ := Qle_bool 5 (JS.numOr (stayDuration scene) 5) in
  let result := sceneStep videoDuration b segments scene in
  map span result = map span segments
  /\ find (covers sceneTime) result
     = option_map (markScenery isHQ) (find (covers sceneTime) segments)
  /\ Forall2 (fun old new =>
                getSourcePriority (source old) <= getSourcePriority (source new)
                /\ isHighQuality old || isHighQuality new = isHighQuality new)
             segments result
  /\ (forall x,
        source (markScenery isHQ x)
        = if JS.srcIs (source x) "friend" then Some "friend+scenery"%string
          else if negb (JS.truthy (source x)) || JS.srcIs (source x) "ai"
               then Some "scenery"%string
               else source x).
Proof.
  intros Hcov sceneTime isHQ result. subst result. unfold sceneStep.
  fold sceneTime. fold isHQ.
  pose proof (updateFirst_covers sceneTime (markScenery isHQ) segments
                (markScenery_span isHQ)) as Hu.
  assert (Hcovers : forall x, covers sceneTime (markScenery isHQ x)
                              = covers sceneTime x).
  { intros x. unfold covers. destruct (markScenery_span isHQ x) as [-> ->].
    reflexivity. }
  pose proof (updateFirst_find (covers sceneTime) (markScenery isHQ) segments
                Hcovers) as Hfind.
  destruct (updateFirst (covers sceneTime) (markScenery isHQ) segments)
    as [l'|] eqn:E.
  - split; [|split; [|split]].
    + apply (updateFirst_pointwise _ _ (fun a b => span a = span b)) in E.
      * clear -E. induction E; simpl; [reflexivity|]. congruence.
      * reflexivity.
      * intros x. unfold span. destruct (markScenery_span isHQ x) as [-> ->].
        reflexivity.
    + apply Hfind.
    + eapply updateFirst_pointwise; [| |exact E].
      * intros x. split; [lia|apply orb_diag].
      * intros x. apply markScenery_rank.
    + intros x. unfold markScenery.
      destruct (JS.srcIs (source x) "friend");
        [destruct isHQ; reflexivity|].
      destruct (negb (JS.truthy (source x)) || JS.srcIs (source x) "ai");
        destruct isHQ; reflexivity.
  - exfalso. unfold covered in Hcov. fold sceneTime in Hcov.
    rewrite Hu in Hcov. discriminate.
Qed.

Lemma scenery_inside_existing_clip_witness :
  map span (sceneStep 90 2 rexWindow viewInsideRex) = [(0, 10); (57, 64)]
  /\ option_map source (find (covers 60) (sceneStep 90 2 rexWindow viewInsideRex))
     = Some (Some "friend+scenery"%string).
Proof.
  destruct (scenery_inside_existing_clip 90 2 rexWindow viewInsideRex)
    as [H1 [H2 _]]; [reflexivity|].
  split; [rewrite H1; reflexivity|].
  cbv zeta in H2. change (timeOr0 (scene_timestamp viewInsideRex)) with 60 in H2.
  rewrite H2. reflexivity.
Defined.

(** ** Stage 1: the trim of the raw candidates *)

Lemma stage1Loop_inv (clips : list Segment) : forall (pool : list Segment) st,
  incl clips pool ->
  incl (fst st) pool -> calculateDuration (fst st) = snd st -> snd st <= 120 ->
  let st' := fold_left stage1Step clips st in
  incl (fst st') pool /\ calculateDuration (fst st') = snd st' /\ snd st' <= 120.
Proof.
  induction clips as [|c clips IH]; intros pool [kept0 cur] Hc Hk Hd Hb; simpl.
  - repeat split; assumption.
  - simpl in Hk, Hd, Hb.
    assert (Hc' : incl clips pool) by (intros x Hx; apply Hc; right; exact Hx).
    destruct (cur + (end_ c - start c) <=? 120) eqn:E.
    + apply Z.leb_le in E. apply IH; simpl; try assumption.
      * apply incl_app; [exact Hk|].
        intros x [<-|[]]. apply Hc. left. reflexivity.
      * rewrite calculateDuration_app, calculateDuration_cons, Hd.
        unfold calculateDuration; simpl. lia.
    + apply IH; simpl; assumption.
Qed.

Lemma stage1_bound (a : Analysis) (highlights : list Segment) :
  calculateDuration (stage1 a highlights) <= 120
  /\ incl (stage1 a highlights) highlights.
Proof.
  unfold stage1. destruct (120 <? calculateDuration highlights) eqn:E.
  - destruct (stage1Loop_inv (sortBy (byEnhancedScore a) highlights)
                             highlights ([], 0)) as [H1 [H2 H3]];
      simpl; try reflexivity; try lia.
    + intros x Hx. apply sortBy_In in Hx. exact Hx.
    + intros x [].
    + split.
      * rewrite calculateDuration_sortBy, H2. exact H3.
      * intros x Hx. apply sortBy_In in Hx. apply H1, Hx.
  - apply Z.ltb_ge in E. split; [exact E|apply incl_refl].
Qed.

(** When every candidate's start and end text is readable as a whole
    number of seconds, the list after Stage 1 adds up to at most
    120 seconds; in every case it contains
    only clips of the input, unchanged; and when some text is unreadable,
    so that the sum is NaN and the test [totalDuration > 120] is false,
    Stage 1 returns every candidate. *)
Theorem stage1_within_budget (ra : RawAnalysis) (highlights : list RawSegment) :
  (Raw.readAll highlights <> None ->
   exists d, Raw.calculateDuration (Raw.stage1 ra highlights) = Some d
             /\ d <= 120)
  /\ incl (Raw.stage1 ra highlights) highlights
  /\ (Raw.readAll highlights = None -> Raw.stage1 ra highlights = highlights).
Proof.
  destruct (Raw.readAll highlights) as [hs|] eqn:E.
  - apply readAll_inv in E. subst highlights.
    rewrite raw_stage1_readable.
    destruct (stage1_bound (Raw.asAnalysis ra hs) hs)
      as [Hd Hincl].
    split; [|split].
    + intros _. eexists. split; [apply raw_duration_readable|exact Hd].
    + apply incl_map, Hincl.
    + discriminate.
  - rewrite (raw_stage1_unreadable ra highlights E).
    split; [congruence|]. split; [apply incl_refl|reflexivity].
Qed.

(** ** Stage 2: what the final trim does to a clip *)

Lemma compressed_cases (st : TrimState) (clip : Segment) :
  fst (compressed st clip) = clip
  \/ exists e, fst (compressed st clip) = setEnd clip e
               /\ e < end_ clip
               /\ (start clip < 0 \/ start clip + 3 <= e).
Proof.
  unfold compressed, compress, MAX_HIGHLIGHT_DURATION.
  set (rem := 120 - currentDuration st).
  destruct (120 <? currentDuration st + (end_ clip - start clip)) eqn:Eo;
    [|left; reflexivity].
  apply Z.ltb_lt in Eo.
  destruct (3 <=? rem) eqn:E3.
  - apply Z.leb_le in E3.
    assert (Hc : exists e,
               setEnd clip (stamp (inject_Z (start clip + Z.max 3 rem)))
               = setEnd clip e
               /\ e < end_ clip /\ (start clip < 0 \/ start clip + 3 <= e)).
    { exists (stamp (inject_Z (start clip + Z.max 3 rem))).
      split; [reflexivity|].
      pose proof (stamp_Z_le (start clip + Z.max 3 rem)) as Hle.
      split; [lia|].
      destruct (Z_lt_le_dec (start clip) 0) as [Hneg|Hpos]; [left; exact Hneg|].
      right. rewrite stamp_Z; lia. }
    destruct (JS.srcIs (source clip) "safety"); simpl; [right; exact Hc|].
    destruct (isOnlyFriendClip (friendsIncluded st) clip); simpl;
      [right; exact Hc|left; reflexivity].
  - rewrite andb_false_r.
    destruct (isOnlyFriendClip (friendsIncluded st) clip); left; reflexivity.
Qed.

Lemma trimLoop_kept_from (P : Segment -> Prop) (clips : list Segment) :
  forall st,
    (forall st clip, In clip clips -> P (fst (compressed st clip))) ->
    Forall P (kept st) ->
    Forall P (kept (fold_left trimStep clips st)).
Proof.
  induction clips as [|c clips IH]; intros st Hstep Hk; simpl; [exact Hk|].
  apply IH.
  - intros st' clip Hin. apply Hstep. right. exact Hin.
  - unfold trimStep.
    pose proof (Hstep st c (or_introl eq_refl)) as Hc.
    destruct (compressed st c) as [clip' d]; simpl in Hc.
    match goal with |- context [if ?c then _ else _] => destruct c end;
      [|exact Hk].
    simpl. apply Forall_app. split; [exact Hk|]. repeat constructor. exact Hc.
Qed.

(** The final trim invents nothing and lengthens nothing: every clip it
    returns is a clip of its input, either unchanged or with its end pulled
    back; a clip that starts at a non-negative time keeps at least its
    first 3 seconds. *)
Theorem stage2_only_shortens (highlights : list Segment) :
  Forall (fun clip' =>
            exists clip, In clip highlights
              /\ (clip' = clip
                  \/ exists e, clip' = setEnd clip e /\ e < end_ clip
                               /\ (start clip < 0 \/ start clip + 3 <= e)))
         (stage2 highlights).
Proof.
  unfold stage2.
  destruct (MAX_HIGHLIGHT_DURATION <? calculateDuration highlights).
  - eapply Permutation_Forall; [symmetry; apply sortBy_perm|].
    apply trimLoop_kept_from; [|constructor].
    intros st clip Hin. exists clip. split; [apply sortBy_In in Hin; exact Hin|].
    apply compressed_cases.
  - apply Forall_forall. intros c Hc. exists c. split; [exact Hc|left; reflexivity].
Qed.

Lemma trimStep_no_friend (st : TrimState) (clip : Segment) :
  JS.srcIs (source clip) "friend" = false ->
  calculateDuration (kept st) <= currentDuration st ->
  currentDuration st <= MAX_HIGHLIGHT_DURATION ->
  calculateDuration (kept (trimStep st clip)) <= currentDuration (trimStep st clip)
  /\ currentDuration (trimStep st clip) <= MAX_HIGHLIGHT_DURATION.
Proof.
  intros Hf Hk Hc. unfold trimStep.
  pose proof (compressed_charge st clip) as Hch.
  unfold isOnlyFriendClip. rewrite Hf. simpl.
  destruct (compressed st clip) as [clip' d]; simpl in Hch.
  rewrite orb_false_r.
  destruct (currentDuration st + d <=? MAX_HIGHLIGHT_DURATION) eqn:E.
  - apply Z.leb_le in E. simpl. split; [|exact E].
    rewrite calculateDuration_app, calculateDuration_cons.
    unfold calculateDuration at 2; simpl. lia.
  - split; assumption.
Qed.

Lemma stage2_bound_without_subject (highlights : list Segment) :
  Forall (fun clip => JS.srcIs (source clip) "friend" = false) highlights ->
  calculateDuration (stage2 highlights) <= 120.
Proof.
  intros Hnf. unfold stage2.
  destruct (MAX_HIGHLIGHT_DURATION <? calculateDuration highlights) eqn:E.
  - rewrite calculateDuration_sortBy.
    assert (Hs : Forall (fun clip => JS.srcIs (source clip) "friend" = false)
                        (sortBy byPriority highlights))
      by (eapply Permutation_Forall; [symmetry; apply sortBy_perm|exact Hnf]).
    assert (Hgen : forall clips st,
               Forall (fun clip => JS.srcIs (source clip) "friend" = false) clips ->
               calculateDuration (kept st) <= currentDuration st ->
               currentDuration st <= MAX_HIGHLIGHT_DURATION ->
               calculateDuration (kept (fold_left trimStep clips st))
               <= MAX_HIGHLIGHT_DURATION).
    { induction clips as [|c clips IH]; intros st Hcl Hk Hc; simpl; [lia|].
      inversion Hcl as [|? ? Hc0 Hrest]; subst.
      destruct (trimStep_no_friend st c Hc0 Hk Hc) as [Hk' Hc'].
      apply IH; assumption. }
    apply Hgen; simpl; try assumption; unfold MAX_HIGHLIGHT_DURATION.
    + reflexivity.
    + lia.
  - apply Z.ltb_ge in E. exact E.
Qed.

(** The 5 seconds of overage are only ever granted to a clip tagged as a
    recurring subject: when no clip has that tag and every start and end
    text is readable as a whole number of seconds, the final trim returns
    at most 120 seconds; when
    some text is unreadable, so that the sum is NaN and the test
    [finalDuration > 120] is false, it returns every clip. *)
Theorem stage2_no_overage_without_subject (highlights : list RawSegment) :
  Forall (fun clip => JS.srcIs (raw_source clip) "friend" = false) highlights ->
  (Raw.readAll highlights <> None ->
   exists d, Raw.calculateDuration (Raw.stage2 highlights) = Some d
             /\ d <= 120)
  /\ (Raw.readAll highlights = None -> Raw.stage2 highlights = highlights).
Proof.
  intros Hnf. destruct (Raw.readAll highlights) as [hs|] eqn:E.
  - apply readAll_inv in E. subst highlights.
    rewrite raw_stage2_readable. split.
    + intros _. eexists. split; [apply raw_duration_readable|].
      apply stage2_bound_without_subject.
      apply Forall_map in Hnf. exact Hnf.
    + discriminate.
  - split; [congruence|]. intros _. apply raw_stage2_unreadable. exact E.
Qed.

Lemma stage2_no_overage_without_subject_witness :
  (Raw.readAll (map Raw.ofSegment thirteenClips) <> None ->
   exists d, Raw.calculateDuration (Raw.stage2 (map Raw.ofSegment thirteenClips))
             = Some d
             /\ d <= 120)
  /\ (Raw.readAll (map Raw.ofSegment thirteenClips) = None ->
      Raw.stage2 (map Raw.ofSegment thirteenClips)
      = map Raw.ofSegment thirteenClips).
Proof.
  apply (stage2_no_overage_without_subject (map Raw.ofSegment thirteenClips)).
  repeat constructor.
Defined.

Lemma getPriority_max (clip : Segment) :
  getPriority clip <= 100
  /\ (getPriority clip = 100 -> JS.srcIs (source clip) "safety" = true).
Proof.
  unfold getPriority.
  destruct (JS.srcIs (source clip) "safety"); [split; [lia|reflexivity]|].
  repeat match goal with
         | |- context [if ?c then _ else _] => destruct c
         end; split; lia.
Qed.

Lemma sortBy_byPriority_sorted (l : list Segment) :
  StronglySorted (fun a b => getPriority b <= getPriority a) (sortBy byPriority l).
Proof.
  apply sortBy_sorted; unfold byPriority; intros.
  - lia.
  - apply Z.ltb_ge in H. exact H.
  - apply Z.ltb_lt in H. lia.
Qed.

Lemma trimLoop_kept_grows (clips : list Segment) : forall st x,
  In x (kept st) -> In x (kept (fold_left trimStep clips st)).
Proof.
  induction clips as [|c clips IH]; intros st x H; simpl; [exact H|].
  apply IH. unfold trimStep. destruct (compressed st c) as [clip' d].
  match goal with |- context [if ?c then _ else _] => destruct c end;
    [|exact H].
  simpl. apply in_or_app. left. exact H.
Qed.

Lemma trimStep_first_safety (clip : Segment) :
  JS.srcIs (source clip) "safety" = true ->
  exists clip', kept (trimStep (mkTrimState [] 0 []) clip) = [clip']
                /\ JS.srcIs (source clip') "safety" = true.
Proof.
  intros Hs. unfold trimStep, compressed, compress. simpl currentDuration.
  rewrite Hs. unfold MAX_HIGHLIGHT_DURATION.
  destruct (120 <? 0 + (end_ clip - start clip)) eqn:E.
  - replace (3 <=? 120 - 0) with true by reflexivity. cbn [andb].
    replace (0 + (120 - 0) <=? 120) with true by reflexivity. cbn [orb].
    eexists. split; [reflexivity|exact Hs].
  - apply Z.ltb_ge in E.
    replace (0 + (end_ clip - start clip) <=? 120) with true
      by (symmetry; apply Z.leb_le; exact E).
    cbn [orb]. eexists. split; [reflexivity|exact Hs].
Qed.

(** The final trim never removes every safety clip: when its input has a
    safety clip, so has its output. *)
Theorem stage2_keeps_a_safety_clip (highlights : list Segment) :
  Exists (fun clip => JS.srcIs (source clip) "safety" = true) highlights ->
  Exists (fun clip => JS.srcIs (source clip) "safety" = true) (stage2 highlights).
Proof.
  intros Hex. unfold stage2.
  destruct (MAX_HIGHLIGHT_DURATION <? calculateDuration highlights);
    [|exact Hex].
  apply Exists_exists in Hex as [c [Hin Hc]].
  pose proof (sortBy_byPriority_sorted highlights) as Hsorted.
  assert (Hin' : In c (sortBy byPriority highlights))
    by (apply sortBy_In; exact Hin).
  destruct (sortBy byPriority highlights) as [|h tl]; [destruct Hin'|].
  assert (Hh : JS.srcIs (source h) "safety" = true).
  { apply getPriority_max.
    assert (Hpc : getPriority c = 100) by (unfold getPriority; rewrite Hc; reflexivity).
    pose proof (proj1 (getPriority_max h)) as Hle.
    destruct Hin' as [->|Hin']; [exact Hpc|].
    apply StronglySorted_inv in Hsorted as [_ Hf].
    rewrite Forall_forall in Hf. specialize (Hf c Hin'). lia. }
  destruct (trimStep_first_safety h Hh) as [h' [Hk Hs]].
  apply Exists_exists. exists h'. split; [|exact Hs].
  apply sortBy_In. simpl. apply trimLoop_kept_grows. rewrite Hk. left. reflexivity.
Qed.

Lemma stage2_keeps_a_safety_clip_witness :
  Exists (fun clip => JS.srcIs (source clip) "safety" = true)
         (stage2 thirteenClips).
Proof.
  apply (stage2_keeps_a_safety_clip thirteenClips).
  apply Exists_exists.
  exists (mkSegment 240 250 (Some "safety"%string) None None false false).
  split; [|reflexivity].
  unfold thirteenClips. apply in_or_app. right. left. reflexivity.
Defined.

(** ** The scenery fallback *)

(** The fallback removes and alters nothing and adds at most one clip,
    tagged scenery and high quality. *)
Theorem fallback_adds_at_most_one (scenery : list Scenery) (videoDuration : Q)
    (highlights : list Segment) :
  exists extra,
    Permutation (sceneryFallback scenery videoDuration highlights)
                (highlights ++ extra)
    /\ (List.length extra <= 1)%nat
    /\ Forall (fun s => source s = Some "scenery"%string
                        /\ isHighQuality s = true) extra.
Proof.
  unfold sceneryFallback.
  assert (Hsame : exists extra,
             Permutation highlights (highlights ++ extra)
             /\ (List.length extra <= 1)%nat
             /\ Forall (fun s => source s = Some "scenery"%string
                                 /\ isHighQuality s = true) extra).
  { exists []. rewrite app_nil_r. repeat split; [apply Permutation_refl|
      simpl; lia|constructor]. }
  destruct (sortBy byBestScene (filter (staysAtLeast 3) scenery))
    as [|bestScene rest]; [exact Hsame|].
  destruct (existsb _ (filter (staysAtLeast 3) scenery)); [exact Hsame|].
  unfold fallbackSegment.
  match goal with |- context [Qle_bool ?a ?b] => destruct (Qle_bool a b) end;
    [|exact Hsame].
  eexists [_]. split; [apply sortBy_perm|].
  split; [simpl; lia|]. repeat constructor.
Qed.

Lemma staysAtLeast_fallback_clip (scene : Scenery) :
  staysAtLeast 3 scene = true ->
  (0 <= Qmin (JS.numOr (stayDuration scene) 3) 5)%Q.
Proof.
  unfold staysAtLeast, JS.numOr. destruct (stayDuration scene) as [d|];
    [|discriminate].
  intros H. apply andb_true_iff in H as [H _]. apply Qle_bool_iff in H.
  apply Q.min_glb; [|lra]. destruct (Qeq_bool d 0); lra.
Qed.

(** With 7 seconds of headroom under the 125-second ceiling, and the
    significant scenery moments lying within the source video, the cut
    after the fallback spans some significant scenery moment. *)
Theorem fallback_covers_with_headroom (scenery : list Scenery)
    (videoDuration : Q) (highlights : list Segment) :
  filter (staysAtLeast 3) scenery <> [] ->
  Forall (fun scene =>
            0 <= timeOr0 (scene_timestamp scene)
            /\ (inject_Z (timeOr0 (scene_timestamp scene)) <= videoDuration)%Q)
         (filter (staysAtLeast 3) scenery) ->
  calculateDuration highlights + 7 <= 125 ->
  Exists (fun scene =>
            staysAtLeast 3 scene = true
            /\ covered (timeOr0 (scene_timestamp scene))
                       (sceneryFallback scenery videoDuration highlights))
         scenery.
Proof.
  intros Hne Hrange Hroom. unfold sceneryFallback.
  set (sig := filter (staysAtLeast 3) scenery) in *.
  pose proof (sortBy_perm byBestScene sig) as Hperm.
  destruct (sortBy byBestScene sig) as [|bestScene rest] eqn:Es.
  - exfalso. apply Hne. apply Permutation_nil. exact Hperm.
  - destruct (existsb (fun scene =>
                         existsb (covers (timeOr0 (scene_timestamp scene)))
                                 highlights) sig) eqn:Ec.
    + apply existsb_exists in Ec as [scene [Hin Hcov]].
      apply Exists_exists. exists scene.
      apply filter_In in Hin as [Hin Hsig]. repeat split; assumption.
    + assert (Hbest : In bestScene sig).
      { eapply Permutation_in; [exact Hperm|left; reflexivity]. }
      rewrite Forall_forall in Hrange. destruct (Hrange _ Hbest) as [Ht HD].
      apply filter_In in Hbest as [Hin Hsig].
      set (t := timeOr0 (scene_timestamp bestScene)) in *.
      pose proof (staysAtLeast_fallback_clip bestScene Hsig) as Hlen.
      destruct (newSeg_spans videoDuration t 2 _ Ht HD ltac:(lia) Hlen)
        as [Hs0 [He0 Hspan]].
      unfold fallbackSegment. fold t.
      set (clipLen := Qmin (JS.numOr (stayDuration bestScene) 3) 5) in *.
      assert (Hfit : Qle_bool
                       (inject_Z (calculateDuration highlights)
                        + (newSegEnd videoDuration t clipLen
                           - inject_Z (newSegStart t 2)))
                       (inject_Z (MAX_HIGHLIGHT_DURATION + 5)) = true).
      { apply Qle_bool_iff.
        assert (He : (newSegEnd videoDuration t clipLen <= inject_Z t + 5)%Q).
        { unfold newSegEnd. eapply Qle_trans; [apply Q.le_min_r|].
          pose proof (Q.le_min_r (JS.numOr (stayDuration bestScene) 3) 5) as H5.
          fold clipLen in H5. set (x := inject_Z t). clearbody x. lra. }
        assert (Hs : (inject_Z t <= inject_Z (newSegStart t 2) + 2)%Q).
        { change 2%Q with (inject_Z 2). rewrite <- inject_Z_plus, <- Zle_Qle.
          unfold newSegStart. lia. }
        assert (Hd : (inject_Z (calculateDuration highlights) + 7
                      <= inject_Z (MAX_HIGHLIGHT_DURATION + 5))%Q).
        { change 7%Q with (inject_Z 7). rewrite <- inject_Z_plus, <- Zle_Qle.
          unfold MAX_HIGHLIGHT_DURATION. lia. }
        set (d := inject_Z (calculateDuration highlights)) in *.
        set (e := newSegEnd videoDuration t clipLen) in *.
        set (s := inject_Z (newSegStart t 2)) in *.
        set (x := inject_Z t) in *.
        set (bound := inject_Z (MAX_HIGHLIGHT_DURATION + 5)) in *.
        clearbody d e s x bound. lra. }
      rewrite Hfit.
      apply Exists_exists. exists bestScene. repeat split; try assumption.
      apply covered_iff. eexists. split.
      * apply sortBy_In. apply in_or_app. right. left. reflexivity.
      * apply covers_spec. simpl. unfold newSegStart, newSegEnd in *.
        fold clipLen. rewrite Hs0, He0. exact Hspan.
Qed.

Lemma fallback_covers_with_headroom_witness :
  Exists (fun scene =>
            staysAtLeast 3 scene = true
            /\ covered (timeOr0 (scene_timestamp scene))
                       (sceneryFallback sceneryNearTheEnd 90 [candidate 0 10]))
         sceneryNearTheEnd.
Proof.
  apply (fallback_covers_with_headroom sceneryNearTheEnd 90 [candidate 0 10]).
  - discriminate.
  - repeat constructor; simpl; try lia. unfold Qle. simpl. lia.
  - vm_compute. discriminate.
Defined.

(** ** The timeline mapper *)

Lemma mapLoop_none_iff (segs : list Segment) : forall t off,
  mapLoop t off segs = None <-> existsb (covers t) segs = false.
Proof.
  induction segs as [|s segs IH]; intros t off; simpl; [tauto|].
  destruct (covers t s); simpl; [split; discriminate|apply IH].
Qed.

Lemma mapLoop_offset (pre : list Segment) : forall t off seg post,
  existsb (covers t) pre = false -> covers t seg = true ->
  mapLoop t off (pre ++ seg :: post)
  = Some (stamp (inject_Z (off + calculateDuration pre + (t - start seg)))).
Proof.
  induction pre as [|p pre IH]; intros t off seg post Hpre Hseg; simpl.
  - rewrite Hseg. unfold calculateDuration. simpl. do 3 f_equal. lia.
  - simpl in Hpre. apply orb_false_iff in Hpre as [Hp Hpre].
    rewrite Hp, (IH _ _ _ _ Hpre Hseg), calculateDuration_cons.
    do 3 f_equal. lia.
Qed.

Lemma calculateDuration_nonneg (segs : list Segment) :
  Forall wellFormed segs -> 0 <= calculateDuration segs.
Proof.
  induction 1 as [|s segs Hs Hrest IH].
  - unfold calculateDuration. simpl. lia.
  - rewrite calculateDuration_cons. unfold wellFormed in Hs. lia.
Qed.

(** A time spanned by a segment, and by none of the well-formed segments
    before it, maps to the total duration of those earlier segments plus
    its distance from the start of its segment. *)
Theorem mapper_offset_formula (pre post : list Segment) (seg : Segment) (t : Z) :
  Forall wellFormed pre ->
  existsb (covers t) pre = false -> covers t seg = true ->
  mapToHighlightTime t (pre ++ seg :: post)
  = Some (calculateDuration pre + (t - start seg)).
Proof.
  intros Hwf Hpre Hseg. unfold mapToHighlightTime.
  rewrite (mapLoop_offset pre t 0 seg post Hpre Hseg).
  pose proof (calculateDuration_nonneg pre Hwf) as Hd.
  apply covers_spec in Hseg.
  rewrite stamp_Z by lia. f_equal.
Qed.

Lemma mapper_offset_formula_witness :
  mapToHighlightTime 62 ([candidate 0 10] ++ candidate 57 64 :: [candidate 70 80])
  = Some (calculateDuration [candidate 0 10] + (62 - 57)).
Proof.
  apply (mapper_offset_formula [candidate 0 10] [candidate 70 80]
                               (candidate 57 64) 62).
  - repeat constructor. unfold wellFormed. simpl. lia.
  - reflexivity.
  - reflexivity.
Defined.

Lemma mapLoop_upper (segs : list Segment) : forall t off m,
  0 <= off -> Forall wellFormed segs ->
  mapLoop t off segs = Some m -> m <= off + calculateDuration segs.
Proof.
  induction segs as [|s segs IH]; intros t off m Hoff Hwf H; simpl in H.
  - discriminate.
  - inversion Hwf as [|? ? Hs Hrest]; subst. unfold wellFormed in Hs.
    rewrite calculateDuration_cons.
    pose proof (calculateDuration_nonneg segs Hrest) as Hd.
    destruct (covers t s) eqn:E.
    + apply covers_spec in E. injection H as <-. rewrite stamp_Z; lia.
    + apply IH in H; [lia|lia|exact Hrest].
Qed.

(** On well-formed segments a mapped time lies between 0 and the total
    duration of the cut. *)
Theorem mapper_result_within_cut (t m : Z) (segs : list Segment) :
  Forall wellFormed segs ->
  mapToHighlightTime t segs = Some m ->
  0 <= m <= calculateDuration segs.
Proof.
  intros Hwf H. unfold mapToHighlightTime in H. split.
  - apply (mapLoop_lower segs t 0 m); [lia|exact Hwf|exact H].
  - apply (mapLoop_upper segs t 0 m) in H; [lia|lia|exact Hwf].
Qed.

Lemma mapper_result_within_cut_witness :
  0 <= 15 <= calculateDuration (finalHighlights scenarioOne 90).
Proof.
  apply (mapper_result_within_cut 62 15 (finalHighlights scenarioOne 90)).
  - vm_compute. repeat constructor; discriminate.
  - vm_compute. reflexivity.
Defined.

(** ** Rewrites of the annotations *)

Lemma migrateItem_fixed {P} (hs hs' : list Segment) (item : Item P) :
  migrateItem hs (migrateItem hs item) = migrateItem hs item
  /\ (isMapped item = true -> migrateItem hs' item = item).
Proof.
  split.
  - assert (Hcases : migrateItem hs item = item
                     \/ isMapped (migrateItem hs item) = true).
    { unfold migrateItem. destruct (timeField item); [|left; reflexivity].
      destruct (isMapped item); [left; reflexivity|].
      destruct (mapToHighlightTime _ hs); [right|left]; reflexivity. }
    destruct Hcases as [Hsame|Hm].
    + rewrite !Hsame. reflexivity.
    + generalize dependent (migrateItem hs item). intros it Hm.
      unfold migrateItem. rewrite Hm. destruct (timeField it); reflexivity.
  - intros Hm. unfold migrateItem. rewrite Hm.
    destruct (timeField item); reflexivity.
Qed.

(** The migration of [migrateSessions] drops no item and touches neither
    the payload nor the original-time field; run again on the same cut it
    changes nothing, and an item that carries the marker, such as a subject
    rewritten by [processVideo], is left as it is whatever the cut. *)
Theorem migration_is_idempotent {P} (arr : list (Item P))
    (hs hs' : list Segment) :
  mapArrayNoFilter (mapArrayNoFilter arr hs) hs = mapArrayNoFilter arr hs
  /\ List.length (mapArrayNoFilter arr hs) = List.length arr
  /\ map payload (mapArrayNoFilter arr hs) = map payload arr
  /\ map originalField (mapArrayNoFilter arr hs) = map originalField arr
  /\ mapArrayNoFilter (map (rewriteFriend hs) arr) hs'
     = map (rewriteFriend hs) arr.
Proof.
  unfold mapArrayNoFilter. split; [|split; [|split; [|split]]].
  - rewrite map_map. apply map_ext. intros x. apply (migrateItem_fixed hs hs x).
  - apply length_map.
  - rewrite map_map. apply map_ext. intros x. unfold migrateItem.
    destruct (timeField x); [|reflexivity].
    destruct (isMapped x); [reflexivity|].
    destruct (mapToHighlightTime _ hs); reflexivity.
  - rewrite map_map. apply map_ext. intros x. unfold migrateItem.
    destruct (timeField x); [|reflexivity].
    destruct (isMapped x); [reflexivity|].
    destruct (mapToHighlightTime _ hs); reflexivity.
  - rewrite map_map. apply map_ext. intros x.
    apply (migrateItem_fixed hs hs' (rewriteFriend hs x)). reflexivity.
Qed.

(** The narrative rewrite keeps every segment; it stores the time it was
    given in the original-time field, flags the segment as in the
    highlight exactly when some clip spans that time, and leaves the time
    itself unchanged when none does.  The migration leaves a segment that
    was already rewritten as it is, whatever the cut. *)
Theorem narrative_rewrite_keeps_everything (segs : list Narrative)
    (hs hs' : list Segment) :
  List.length (map (rewriteNarrative hs) segs) = List.length segs
  /\ Forall2 (fun old new =>
                narr_originalTime new = narr_timestamp old
                /\ narr_text new = narr_text old
                /\ narr_isMapped new = true
                /\ narr_inHighlight new
                   = existsb (covers (timeOr0 (narr_timestamp old))) hs
                /\ narr_timestamp new
                   = (if narr_inHighlight new
                      then mapToHighlightTime (timeOr0 (narr_timestamp old)) hs
                      else narr_timestamp old))
             segs (map (rewriteNarrative hs) segs)
  /\ migrateNarratives hs' (map (rewriteNarrative hs) segs)
     = map (rewriteNarrative hs) segs
  /\ migrateNarratives hs (migrateNarratives hs segs)
     = migrateNarratives hs segs
  /\ List.length (migrateNarratives hs segs) = List.length segs.
Proof.
  split; [apply length_map|]. split; [|split; [|split]];
    [| | |unfold migrateNarratives; destruct hs;
           [reflexivity|apply length_map]].
  - induction segs as [|s segs IH]; simpl; constructor; [|exact IH].
    unfold rewriteNarrative. simpl.
    pose proof (mapLoop_none_iff hs (timeOr0 (narr_timestamp s)) 0) as Habs.
    fold (mapToHighlightTime (timeOr0 (narr_timestamp s)) hs) in Habs.
    destruct (mapToHighlightTime (timeOr0 (narr_timestamp s)) hs) as [m|] eqn:E;
      simpl.
    + repeat split; try reflexivity.
      destruct (existsb (covers (timeOr0 (narr_timestamp s))) hs);
        [reflexivity|].
      destruct Habs as [_ Hback]. discriminate (Hback eq_refl).
    + repeat split; try reflexivity.
      symmetry. apply Habs. reflexivity.
  - unfold migrateNarratives. destruct hs'; [reflexivity|].
    rewrite map_map. apply map_ext. intros x. reflexivity.
  - unfold migrateNarratives. destruct hs; [reflexivity|].
    rewrite map_map. apply map_ext. intros x. unfold migrateNarrative.
    destruct (narr_isMapped x) eqn:Em; [rewrite Em; reflexivity|reflexivity].
Qed.

(** ** The mood curve *)

(** The interpolant never leaves the range of the control values: with
    every control value between [lo] and [hi], so is the interpolated
    value at any time. *)
Theorem interpolation_within_control_values (points : list Point)
    (lo hi t : Z) :
  points <> [] ->
  Forall (fun p => lo <= value p <= hi) points ->
  (inject_Z lo <= interpolateMoodValue points t <= inject_Z hi)%Q.
Proof.
  intros Hne Hv. destruct points as [|p [|q rest]]; [congruence| |].
  - inversion Hv; subst. simpl. rewrite <- !Zle_Qle. assumption.
  - inversion Hv as [|? ? Hp Hrest]; subst.
    unfold interpolateMoodValue.
    destruct (t <=? sec p) eqn:Et.
    + rewrite <- !Zle_Qle. exact Hp.
    + apply Z.leb_gt in Et. apply interpolateLoop_hull; assumption.
Qed.

Lemma interpolation_within_control_values_witness :
  (inject_Z 20 <= interpolateMoodValue [mkPoint 0 20; mkPoint 60 80] 45
   <= inject_Z 80)%Q.
Proof.
  apply (interpolation_within_control_values [mkPoint 0 20; mkPoint 60 80]
                                             20 80 45).
  - discriminate.
  - repeat constructor; simpl; lia.
Defined.

(** The samples never leave the range of the readable input values: when
    some entry is readable and every cleaned value lies between [lo] and
    [hi], so does every sample of the normalized curve.  In particular a
    constant input gives a flat curve. *)
Theorem mood_samples_within_input_range (moodData : list MoodItem)
    (videoDuration : Q) (lo hi : Z) :
  cleaned (safeDurationOf videoDuration) moodData <> [] ->
  Forall (fun p => lo <= value p <= hi)
         (cleaned (safeDurationOf videoDuration) moodData) ->
  Forall (fun s => lo <= sample_value s <= hi)
         (normalizeMoodData moodData videoDuration).
Proof.
  intros Hne Hv.
  pose proof (safeDuration_pos videoDuration) as HD.
  pose proof (controlPoints_values _ lo hi moodData HD Hne Hv) as Hcp.
  pose proof (cleaned_range (safeDurationOf videoDuration) moodData
                            ltac:(lia)) as Hr.
  assert (Hbox : lo <= 100 /\ 0 <= hi).
  { destruct (cleaned (safeDurationOf videoDuration) moodData) as [|q cl];
      [congruence|].
    inversion Hr as [|? ? [_ Hq] _]; inversion Hv as [|? ? Hq' _]; subst. lia. }
  unfold normalizeMoodData. apply Forall_map, Forall_forall. intros i _.
  unfold sampleAt. simpl.
  assert (Hcpne : controlPoints (safeDurationOf videoDuration) moodData <> []).
  { destruct (controlPoints_shape _ moodData HD) as [v0 [mid [v1 [-> _]]]].
    discriminate. }
  assert (Hin : (inject_Z lo
                 <= interpolateMoodValue
                      (controlPoints (safeDurationOf videoDuration) moodData)
                      (gridSec (safeDurationOf videoDuration)
                               (targetCountOf (safeDurationOf videoDuration))
                               (Z.of_nat i))
                 <= inject_Z hi)%Q).
  { destruct (controlPoints (safeDurationOf videoDuration) moodData)
      as [|p [|q rest]] eqn:E; [congruence| |].
    - inversion Hcp; subst. simpl. rewrite <- !Zle_Qle. assumption.
    - inversion Hcp as [|? ? Hp Hrest]; subst. unfold interpolateMoodValue.
      match goal with |- context [?t <=? sec p] =>
        destruct (t <=? sec p) eqn:Et end.
      + rewrite <- !Zle_Qle. exact Hp.
      + apply Z.leb_gt in Et. apply interpolateLoop_hull; assumption. }
  apply round_between in Hin. unfold JS.clamp. lia.
Qed.

Lemma mood_samples_within_input_range_witness :
  Forall (fun s => 80 <= sample_value s <= 80)
         (normalizeMoodData moodAtThirty 60).
Proof.
  apply (mood_samples_within_input_range moodAtThirty 60 80 80).
  - vm_compute. discriminate.
  - vm_compute. repeat constructor; discriminate.
Defined.

(** The samples of the normalized curve are ordered in time, start at
    second 0 and end at the rounded duration; every sample lies within the
    video and has a value in [0, 100]. *)
Theorem mood_samples_ordered_within_video (moodData : list MoodItem)
    (videoDuration : Q) :
  let D := safeDurationOf videoDuration in
  let samples := normalizeMoodData moodData videoDuration in
  StronglySorted (fun a b => sample_name a <= sample_name b) samples
  /\ Forall (fun s => 0 <= sample_name s <= D /\ 0 <= sample_value s <= 100)
            samples
  /\ (exists first rest, samples = first :: rest /\ sample_name first = 0)
  /\ (exists before final, samples = before ++ [final] /\ sample_name final = D).
Proof.
  intros D samples.
  pose proof (safeDuration_pos videoDuration) as HD. fold D in HD.
  pose proof (targetCount_range D) as Hn.
  set (n := targetCountOf D) in *.
  assert (Hname : forall i, (i < Z.to_nat n)%nat ->
            sample_name (sampleAt (controlPoints D moodData) D n i)
            = gridSec D n (Z.of_nat i)).
  { intros i Hi. unfold sampleAt. simpl. apply stamp_Z.
    apply gridSec_nonneg; lia. }
  assert (Hsamples : samples
                     = map (sampleAt (controlPoints D moodData) D n)
                           (seq 0 (Z.to_nat n))) by reflexivity.
  split; [|split; [|split]].
  - rewrite Hsamples. apply (sorted_map_seq _ _ (Z.to_nat n)); [|lia].
    intros i j Hij. rewrite !Hname by lia. apply gridSec_mono; lia.
  - rewrite Hsamples. apply Forall_map, Forall_forall. intros i Hi.
    apply in_seq in Hi. split.
    + rewrite Hname by lia. split; [apply gridSec_nonneg; lia|].
      rewrite <- (gridSec_last D n) at 2. apply gridSec_mono; lia.
    + unfold sampleAt. simpl. apply clamp_range. lia.
  - rewrite Hsamples. destruct (Z.to_nat n) as [|m] eqn:Em; [lia|].
    simpl. eexists. eexists. split; [reflexivity|].
    rewrite Hname by lia. apply gridSec_first. lia.
  - rewrite Hsamples. destruct (Z.to_nat n) as [|m] eqn:Em; [lia|].
    rewrite seq_S, map_app. simpl. eexists. eexists. split; [reflexivity|].
    rewrite Hname by lia. replace (Z.of_nat m) with (n - 1) by lia.
    apply gridSec_last.
Qed.

(** ** Even thinning *)

Lemma setHas_spec (x : Z) (s : list Z) : setHas x s = true <-> In x s.
Proof.
  unfold setHas. rewrite existsb_exists. split.
  - intros [y [Hy E]]. apply Z.eqb_eq in E. subst. exact Hy.
  - intros H. exists x. split; [exact H|apply Z.eqb_refl].
Qed.

Lemma setAdd_In (x y : Z) (s : list Z) :
  In y (setAdd x s) <-> y = x \/ In y s.
Proof.
  unfold setAdd. destruct (setHas x s) eqn:E.
  - apply setHas_spec in E. split; [auto|]. intros [->|H]; assumption.
  - rewrite in_app_iff. simpl. intuition.
Qed.

Lemma setAdd_NoDup (x : Z) (s : list Z) : NoDup s -> NoDup (setAdd x s).
Proof.
  intros H. unfold setAdd. destruct (setHas x s) eqn:E; [exact H|].
  apply NoDup_app; [exact H|repeat constructor; intros []|].
  intros y Hy [<-|[]]. apply setHas_spec in Hy. congruence.
Qed.

Lemma setAdd_length (x : Z) (s : list Z) :
  (List.length (setAdd x s) <= S (List.length s))%nat.
Proof.
  unfold setAdd. destruct (setHas x s); [lia|].
  rewrite length_app. simpl. lia.
Qed.

Lemma round_le_Z (x : Q) (n : Z) : (x <= inject_Z n)%Q -> JS.round x <= n.
Proof.
  intros H. unfold JS.round.
  assert (Hlt : Qfloor (x + (1 # 2)) < n + 1); [|lia].
  rewrite Zlt_Qlt, inject_Z_plus.
  pose proof (Qfloor_le (x + (1 # 2))) as Hf.
  change (inject_Z 1) with 1%Q.
  set (f := inject_Z (Qfloor (x + (1 # 2)))) in *.
  set (h := inject_Z n) in *. clearbody f h. lra.
Qed.

Lemma evenIndex_range (length target i : Z) :
  1 < target -> 0 < length -> 0 <= i <= target - 1 ->
  0 <= evenIndex length target i < length.
Proof.
  intros Ht Hl Hi. unfold evenIndex.
  assert (Hden : (0 < inject_Z (target - 1))%Q).
  { change 0%Q with (inject_Z 0). rewrite <- Zlt_Qlt. lia. }
  split.
  - apply round_nonneg. apply Qle_shift_div_l; [exact Hden|].
    rewrite Qmult_0_l. change 0%Q with (inject_Z 0). rewrite <- Zle_Qle. nia.
  - assert (H : JS.round (inject_Z (i * (length - 1)) / inject_Z (target - 1))
                <= length - 1); [|lia].
    apply round_le_Z. apply Qle_shift_div_r; [exact Hden|].
    rewrite <- inject_Z_mult, <- Zle_Qle. nia.
Qed.

Lemma evenIndices_inv (length target : Z) (steps : list nat) :
  0 < length ->
  Forall (fun i => 1 < target /\ (i <= Z.to_nat (target - 1))%nat) steps ->
  forall s,
    NoDup s -> (forall x, In x s -> 0 <= x < length) ->
    let s' := fold_left (fun s i => setAdd (evenIndex length target (Z.of_nat i)) s)
                        steps s in
    NoDup s' /\ (forall x, In x s' -> 0 <= x < length)
    /\ (forall x, In x s -> In x s')
    /\ (List.length s' <= List.length s + List.length steps)%nat.
Proof.
  intros Hl. induction steps as [|i steps IH]; intros Hsteps s Hnd Hr; simpl.
  - split; [exact Hnd|]. split; [exact Hr|]. split; [auto|lia].
  - inversion Hsteps as [|? ? [Ht Hi] Hrest]; subst.
    destruct (IH Hrest (setAdd (evenIndex length target (Z.of_nat i)) s))
      as [H1 [H2 [H3 H4]]].
    + apply setAdd_NoDup, Hnd.
    + intros x Hx. apply setAdd_In in Hx as [->|Hx]; [|apply Hr, Hx].
      apply evenIndex_range; lia.
    + split; [exact H1|]. split; [exact H2|]. split.
      * intros x Hx. apply H3, setAdd_In. right. exact Hx.
      * pose proof (setAdd_length (evenIndex length target (Z.of_nat i)) s).
        lia.
Qed.

Lemma range_length (length : Z) (s : list Z) :
  0 <= length -> NoDup s ->
  (forall x, 0 <= x < length -> In x s) ->
  length <= Z.of_nat (List.length s).
Proof.
  intros Hl Hnd Hall.
  assert (H : (List.length (map Z.of_nat (seq 0 (Z.to_nat length)))
               <= List.length s)%nat).
  { apply NoDup_incl_length.
    - apply Finite.Injective_map_NoDup; [|apply seq_NoDup].
      intros a b Hab. lia.
    - intros x Hx. apply in_map_iff in Hx as [n [<- Hn]].
      apply in_seq in Hn. apply Hall. lia. }
  rewrite length_map, length_seq in H. lia.
Qed.

Lemma fillLoop_spec (length target : Z) (fuel : nat) :
  forall cursor indices result,
    0 <= cursor -> cursor + Z.of_nat fuel = length -> target < length ->
    NoDup indices ->
    (forall x, In x indices -> 0 <= x < length) ->
    (forall x, 0 <= x < cursor -> In x indices) ->
    Permutation result indices ->
    exists r,
      fillLoop fuel cursor target indices result = Some r
      /\ NoDup r
      /\ (forall x, In x r -> 0 <= x < length)
      /\ (forall x, In x result -> In x r)
      /\ target <= Z.of_nat (List.length r)
      /\ Z.of_nat (List.length r) <= Z.max target (Z.of_nat (List.length result)).
Proof.
  induction fuel as [|fuel IH];
    intros cursor indices result Hc Hfuel Ht Hnd Hr Hbelow Hperm.
  - simpl. destruct (Z.of_nat (List.length result) <? target) eqn:E.
    + exfalso. apply Z.ltb_lt in E.
      pose proof (range_length length indices ltac:(lia) Hnd) as Hlen.
      rewrite (Permutation_length Hperm) in E.
      assert (length <= Z.of_nat (List.length indices)); [|lia].
      apply Hlen. intros x Hx. apply Hbelow. lia.
    + apply Z.ltb_ge in E. exists result.
      split; [reflexivity|]. split.
      { eapply Permutation_NoDup; [symmetry; exact Hperm|exact Hnd]. }
      split.
      { intros x Hx. apply Hr. eapply Permutation_in; eauto. }
      split; [auto|]. split; lia.
  - cbn [fillLoop]. destruct (Z.of_nat (List.length result) <? target) eqn:E.
    + apply Z.ltb_lt in E.
      destruct (setHas cursor indices) eqn:Eh.
      * apply setHas_spec in Eh.
        destruct (IH (cursor + 1) indices result) as [r Hrr]; try lia; auto.
        { intros x Hx. destruct (Z.eq_dec x cursor) as [->|Hne]; [exact Eh|].
          apply Hbelow. lia. }
        exists r. exact Hrr.
      * assert (Hnot : ~ In cursor indices).
        { intros Hin. apply setHas_spec in Hin. congruence. }
        assert (Hadd : setAdd cursor indices = indices ++ [cursor]).
        { unfold setAdd. rewrite Eh. reflexivity. }
        assert (Hcl : cursor < length).
        { destruct (Z_lt_le_dec cursor length) as [Hlt|Hge]; [exact Hlt|].
          exfalso.
          pose proof (range_length length indices ltac:(lia) Hnd) as Hlen.
          rewrite (Permutation_length Hperm) in E.
          assert (length <= Z.of_nat (List.length indices)); [|lia].
          apply Hlen. intros x Hx. apply Hbelow. lia. }
        destruct (IH (cursor + 1) (setAdd cursor indices) (result ++ [cursor]))
          as [r [H1 [H2 [H3 [H4 [H5 H6]]]]]]; try lia.
        { apply setAdd_NoDup, Hnd. }
        { intros x Hx. apply setAdd_In in Hx as [->|Hx]; [lia|apply Hr, Hx]. }
        { intros x Hx. apply setAdd_In.
          destruct (Z.eq_dec x cursor) as [->|Hne]; [left; reflexivity|].
          right. apply Hbelow. lia. }
        { rewrite Hadd. apply Permutation_app_tail, Hperm. }
        exists r. split; [exact H1|]. split; [exact H2|].
        split; [exact H3|]. split.
        { intros x Hx. apply H4, in_or_app. left. exact Hx. }
        rewrite length_app in H6. simpl in H6. lia.
    + apply Z.ltb_ge in E. exists result.
      split; [reflexivity|]. split.
      { eapply Permutation_NoDup; [symmetry; exact Hperm|exact Hnd]. }
      split.
      { intros x Hx. apply Hr. eapply Permutation_in; eauto. }
      split; [auto|]. split; lia.
Qed.

Lemma sortBy_byNumber_sorted (l : list Z) :
  StronglySorted Z.le (sortBy byNumber l).
Proof.
  apply sortBy_sorted; unfold byNumber; intros.
  - lia.
  - apply Z.ltb_ge in H. exact H.
  - apply Z.ltb_lt in H. lia.
Qed.

Lemma sorted_strict (l : list Z) :
  StronglySorted Z.le l -> NoDup l -> StronglySorted Z.lt l.
Proof.
  induction 1 as [|x l Hl IH Hx]; intros Hnd; constructor;
    inversion Hnd as [|? ? Hnot Hnd']; subst.
  - apply IH, Hnd'.
  - rewrite Forall_forall in *. intros y Hy.
    specialize (Hx y Hy). assert (x <> y) by (intros ->; exact (Hnot Hy)). lia.
Qed.

Lemma sorted_firstn {A} (R : A -> A -> Prop) (l : list A) : forall n,
  StronglySorted R l -> StronglySorted R (firstn n l).
Proof.
  induction l as [|x l IH]; intros [|n] H; simpl; try constructor.
  - apply IH. inversion H; assumption.
  - inversion H as [|? ? _ Hx]; subst. apply Forall_forall. intros y Hy.
    rewrite Forall_forall in Hx. apply Hx.
    rewrite <- (firstn_skipn n l). apply in_or_app. left. exact Hy.
Qed.

Lemma firstn_In {A} (l : list A) (n : nat) (x : A) :
  In x (firstn n l) -> In x l.
Proof.
  intros H. rewrite <- (firstn_skipn n l). apply in_or_app. left. exact H.
Qed.

Lemma sorted_head (l : list Z) (m : Z) :
  StronglySorted Z.le l -> In m l -> (forall x, In x l -> m <= x) ->
  hd_error l = Some m.
Proof.
  intros Hs Hin Hmin. destruct l as [|x l]; [destruct Hin|]. simpl. f_equal.
  inversion Hs as [|? ? _ Hx]; subst. rewrite Forall_forall in Hx.
  pose proof (Hmin x (or_introl eq_refl)).
  destruct Hin as [->|Hin]; [reflexivity|]. specialize (Hx m Hin). lia.
Qed.

Lemma sorted_last (l : list Z) (m d : Z) :
  StronglySorted Z.le l -> In m l -> (forall x, In x l -> x <= m) ->
  last l d = m.
Proof.
  intros Hs. revert d. induction Hs as [|x l Hl IH Hx]; intros d Hin Hmax.
  - destruct Hin.
  - destruct l as [|y l']; [destruct Hin as [->|[]]; reflexivity|].
    change (last (x :: y :: l') d) with (last (y :: l') d).
    apply IH; [|intros z Hz; apply Hmax; right; exact Hz].
    destruct Hin as [<-|Hin]; [|exact Hin].
    rewrite Forall_forall in Hx.
    pose proof (Hx y (or_introl eq_refl)).
    pose proof (Hmax y (or_intror (or_introl eq_refl))).
    left. lia.
Qed.

Lemma pickEvenIndices_shape (length target : Z) :
  0 < length -> 0 < target ->
  exists picked,
    pickEvenIndices length target = Some picked
    /\ Z.of_nat (List.length picked) = Z.min target length
    /\ StronglySorted Z.lt picked
    /\ Forall (fun i => 0 <= i < length) picked
    /\ hd_error picked = Some 0
    /\ (2 <= target -> last picked 0 = length - 1).
Proof.
  intros Hl Ht. unfold pickEvenIndices.
  replace ((target <=? 0) || (length <=? 0)) with false
    by (symmetry; apply orb_false_iff; split; apply Z.leb_gt; lia).
  destruct (length <=? target) eqn:E.
  - apply Z.leb_le in E. eexists. split; [reflexivity|].
    split; [rewrite length_map, length_seq; lia|].
    split; [apply (sorted_map_seq _ _ (Z.to_nat length)); [|lia];
            intros i j Hij; lia|].
    split; [apply Forall_map, Forall_forall; intros i Hi;
            apply in_seq in Hi; lia|].
    destruct (Z.to_nat length) as [|n] eqn:En; [lia|].
    split; [reflexivity|]. intros _.
    rewrite seq_S, map_app. cbn [map]. rewrite last_last. lia.
  - apply Z.leb_gt in E.
    set (steps := seq 1 (Z.to_nat (target - 2))).
    assert (Hsteps : Forall (fun i => 1 < target
                                      /\ (i <= Z.to_nat (target - 1))%nat)
                            steps).
    { apply Forall_forall. intros i Hi. apply in_seq in Hi. lia. }
    assert (Hfirst : setAdd (length - 1) [0] = [0; length - 1]).
    { unfold setAdd, setHas. simpl.
      replace (length - 1 =? 0) with false
        by (symmetry; apply Z.eqb_neq; lia).
      reflexivity. }
    rewrite Hfirst.
    destruct (evenIndices_inv length target steps Hl Hsteps [0; length - 1])
      as [Hnd [Hr [Hkeep Hlen]]].
    { repeat constructor; simpl; intuition lia. }
    { intros x [<-|[<-|[]]]; lia. }
    set (indices := fold_left _ steps [0; length - 1]) in *.
    destruct (fillLoop_spec length target (Z.to_nat length) 0 indices
                            (sortBy byNumber indices)
                            ltac:(lia) ltac:(lia) E Hnd Hr
                            ltac:(intros; lia) (sortBy_perm _ _))
      as [r [Hfill [Hndr [Hrr [Hsub [Hge Hle]]]]]].
    rewrite Hfill. eexists. split; [reflexivity|].
    pose proof (sortBy_byNumber_sorted r) as Hsorted.
    pose proof (sortBy_perm byNumber r) as Hperm.
    assert (Hstrict : StronglySorted Z.lt (sortBy byNumber r)).
    { apply sorted_strict; [exact Hsorted|].
      eapply Permutation_NoDup; [symmetry; exact Hperm|exact Hndr]. }
    assert (Hin : forall x, In x (sortBy byNumber r) -> 0 <= x < length).
    { intros x Hx. apply Hrr. apply (sortBy_In byNumber). exact Hx. }
    assert (Hhas : forall x, In x [0; length - 1] -> In x (sortBy byNumber r)).
    { intros x Hx. apply (sortBy_In byNumber), Hsub, (sortBy_In byNumber), Hkeep.
      exact Hx. }
    split.
    { rewrite length_firstn, (Permutation_length Hperm). lia. }
    split; [apply sorted_firstn, Hstrict|].
    split.
    { apply Forall_forall. intros x Hx. apply Hin. eapply firstn_In, Hx. }
    split.
    { assert (Hhd : hd_error (sortBy byNumber r) = Some 0).
      { apply sorted_head; [exact Hsorted| |].
        - apply Hhas. left. reflexivity.
        - intros x Hx. apply Hin in Hx. lia. }
      destruct (sortBy byNumber r) as [|x l]; [discriminate|].
      destruct (Z.to_nat target) as [|n] eqn:En; [lia|]. exact Hhd. }
    intros H2. rewrite firstn_all2.
    + apply sorted_last; [exact Hsorted| |].
      * apply Hhas. right. left. reflexivity.
      * intros x Hx. apply Hin in Hx. lia.
    + rewrite (Permutation_length Hperm).
      rewrite (Permutation_length (sortBy_perm byNumber indices)) in Hle.
      unfold steps in Hlen. rewrite length_seq in Hlen. simpl in Hlen. lia.
Qed.

(** ** The timeline normalizer *)

(** For positive arguments the thinning returns [min(target, length)]
    indices, strictly increasing and within range, the first of them 0;
    with a target of at least 2 the last is [length - 1]. *)
Theorem pickEvenIndices_spec (length target : Z) :
  0 < length -> 0 < target ->
  exists picked,
    pickEvenIndices length target = Some picked
    /\ Z.of_nat (List.length picked) = Z.min target length
    /\ StronglySorted Z.lt picked
    /\ Forall (fun i => 0 <= i < length) picked
    /\ hd_error picked = Some 0
    /\ (2 <= target -> last picked 0 = length - 1).
Proof. apply pickEvenIndices_shape. Qed.

Lemma pickEvenIndices_spec_witness :
  exists picked,
    pickEvenIndices 25 20 = Some picked
    /\ Z.of_nat (List.length picked) = Z.min 20 25
    /\ StronglySorted Z.lt picked
    /\ Forall (fun i => 0 <= i < 25) picked
    /\ hd_error picked = Some 0
    /\ (2 <= 20 -> last picked 0 = 25 - 1).
Proof. apply (pickEvenIndices_spec 25 20); lia. Defined.

Lemma sorted_nth {A} (R : A -> A -> Prop) (l : list A) :
  StronglySorted R l ->
  forall i j a b, (i < j)%nat ->
    nth_error l i = Some a -> nth_error l j = Some b -> R a b.
Proof.
  induction 1 as [|x l Hl IH Hx]; intros i j a b Hij Hi Hj.
  - destruct i; discriminate.
  - destruct j as [|j]; [lia|]. simpl in Hj. destruct i as [|i].
    + simpl in Hi. injection Hi as <-. rewrite Forall_forall in Hx.
      apply Hx. eapply nth_error_In, Hj.
    + simpl in Hi. apply (IH i j); [lia|assumption|assumption].
Qed.

Lemma selectAt_spec (entries : list Entry) (indices : list Z) :
  Forall (fun i => 0 <= i < Z.of_nat (List.length entries)) indices ->
  exists r,
    selectAt entries indices = Some r
    /\ Forall2 (fun i e => nth_error entries (Z.to_nat i) = Some e) indices r.
Proof.
  induction 1 as [|i indices Hi Hrest [r [Hr HF]]]; simpl.
  - exists []. split; [reflexivity|constructor].
  - unfold entryAt. replace (i <? 0) with false
      by (symmetry; apply Z.ltb_ge; lia).
    destruct (nth_error entries (Z.to_nat i)) as [e|] eqn:E.
    + rewrite Hr. exists (e :: r). split; [reflexivity|].
      constructor; assumption.
    + apply nth_error_None in E. lia.
Qed.

Lemma selected_sorted (R : Entry -> Entry -> Prop) (entries : list Entry) :
  StronglySorted R entries ->
  forall indices r,
    Forall (fun i => 0 <= i) indices ->
    StronglySorted Z.lt indices ->
    Forall2 (fun i e => nth_error entries (Z.to_nat i) = Some e) indices r ->
    StronglySorted R r.
Proof.
  intros Hs indices r Hpos Hsorted HF.
  induction HF as [|i e indices r Hie HF IH]; constructor.
  - apply IH; [inversion Hpos; assumption|inversion Hsorted; assumption].
  - inversion Hsorted as [|? ? _ Hi]; subst.
    inversion Hpos as [|? ? Hi0 Hpos']; subst.
    clear IH Hsorted Hpos. induction HF as [|j e' indices r Hje HF IH];
      constructor.
    + inversion Hi as [|? ? Hij _]; inversion Hpos' as [|? ? Hj0 _]; subst.
      apply (sorted_nth R entries Hs (Z.to_nat i) (Z.to_nat j)); [lia|assumption|assumption].
    + apply IH; [inversion Hi; assumption|inversion Hpos'; assumption].
Qed.

Lemma thin_spec (entries : list Entry) :
  exists r,
    thin entries = Some r
    /\ List.length r = Nat.min (List.length entries) 20
    /\ (forall P, Forall P entries -> Forall P r)
    /\ (forall R, StronglySorted R entries -> StronglySorted R r)
    /\ ((List.length entries <= 20)%nat -> r = entries).
Proof.
  unfold thin. destruct (20 <? Z.of_nat (List.length entries)) eqn:E.
  - apply Z.ltb_lt in E.
    destruct (pickEvenIndices_shape (Z.of_nat (List.length entries)) 20)
      as [picked [Hp [Hlen [Hsorted [Hrange _]]]]]; [lia|lia|].
    rewrite Hp. destruct (selectAt_spec entries picked Hrange) as [r [Hr HF]].
    exists r. split; [exact Hr|].
    split; [apply Forall2_length in HF; lia|].
    split; [|split].
    + intros P HP. rewrite Forall_forall in HP. clear -HF HP.
      induction HF; constructor; auto. apply HP. eapply nth_error_In; eauto.
    + intros R HR. apply (selected_sorted R entries HR picked r);
        [|exact Hsorted|exact HF].
      eapply Forall_impl; [|exact Hrange]. simpl. intros; lia.
    + lia.
  - apply Z.ltb_ge in E. exists entries. split; [reflexivity|].
    split; [lia|]. auto.
Qed.

Lemma allowed_timeline : allowedIcon "timeline" = true.
Proof. reflexivity. Qed.

Lemma storyBeat_nonempty (entries : list Entry) :
  storyBeat entries <> EmptyString.
Proof. unfold storyBeat. discriminate. Qed.

Lemma cleanEntry_good (trim : string -> string) (safeDuration : Z)
    (item : RawEntry) (e : Entry) :
  0 <= safeDuration -> cleanEntry trim safeDuration item = Some e -> goodEntry e.
Proof.
  intros HD H. unfold cleanEntry in H.
  destruct (match raw_time item with Some n => n | None => Fin 0 end);
    [discriminate|].
  injection H as <-. unfold goodEntry. simpl. split; [|split].
  - apply clamp_range. exact HD.
  - unfold iconOf. destruct (raw_icon item) as [icon|]; [|reflexivity].
    destruct (allowedIcon icon) eqn:E; [exact E|reflexivity].
  - unfold labelOf. destruct (trim _); discriminate.
Qed.

Lemma entrySet_Forall (P : Entry -> Prop) (e : Entry) (m : list Entry) :
  P e -> Forall P m -> Forall P (entrySet e m).
Proof.
  intros He. induction 1 as [|x m Hx Hm IH]; simpl.
  - repeat constructor. exact He.
  - destruct (entry_sec x =? entry_sec e); constructor; assumption.
Qed.

Lemma dedupedEntries_good (trim : string -> string) (safeDuration : Z)
    (timeline : list RawEntry) :
  0 <= safeDuration ->
  Forall goodEntry (dedupedEntries trim safeDuration timeline).
Proof.
  intros HD. unfold dedupedEntries.
  eapply Permutation_Forall; [symmetry; apply sortBy_perm|].
  assert (Hn : Forall goodEntry (normalizedEntries trim safeDuration timeline)).
  { unfold normalizedEntries.
    eapply Permutation_Forall; [symmetry; apply sortBy_perm|].
    apply filterMap_Forall. intros x y _ H. eapply cleanEntry_good; eauto. }
  assert (Hgen : forall l m, Forall goodEntry l -> Forall goodEntry m ->
            Forall goodEntry (fold_left (fun m e => entrySet e m) l m)).
  { induction l as [|e l IH]; intros m Hl Hm; simpl; [exact Hm|].
    inversion Hl; subst. apply IH; [assumption|].
    apply entrySet_Forall; assumption. }
  apply Hgen; [exact Hn|constructor].
Qed.

Lemma sortBy_bySecOfEntry_sorted (l : list Entry) :
  StronglySorted entrySecLe (sortBy bySecOfEntry l).
Proof.
  apply sortBy_sorted; unfold bySecOfEntry, entrySecLe; intros.
  - lia.
  - apply Z.ltb_ge in H. exact H.
  - apply Z.ltb_lt in H. lia.
Qed.

Lemma sortBy_fixed {A} (after : A -> A -> bool) (l : list A) :
  StronglySorted (fun a b => after a b = false) l -> sortBy after l = l.
Proof.
  induction 1 as [|x l Hl IH Hx]; [reflexivity|].
  change (sortBy after (x :: l)) with (insertBy after x (sortBy after l)).
  rewrite IH. destruct l as [|y l']; [reflexivity|]. simpl.
  inversion Hx as [|? ? Hxy _]; subst. rewrite Hxy. reflexivity.
Qed.

Lemma timelineLabelFromMood_good (value : Z) :
  allowedIcon (snd (timelineLabelFromMood value)) = true
  /\ fst (timelineLabelFromMood value) <> EmptyString.
Proof.
  unfold timelineLabelFromMood.
  destruct (85 <=? value); [split; [reflexivity|discriminate]|].
  destruct (70 <=? value); [split; [reflexivity|discriminate]|].
  destruct (55 <=? value); [split; [reflexivity|discriminate]|].
  destruct (40 <=? value); split; try reflexivity; discriminate.
Qed.

Lemma backfill_inv (safeDuration targetCount : Z) (candidates : list MoodSample) :
  targetCount <= 20 ->
  forall entries,
    Forall goodEntry entries -> (List.length entries <= 20)%nat ->
    Forall goodEntry (backfill safeDuration targetCount candidates entries)
    /\ (List.length (backfill safeDuration targetCount candidates entries)
        <= 20)%nat.
Proof.
  intros Ht. induction candidates as [|c rest IH]; intros entries Hg Hl; simpl.
  - split; assumption.
  - destruct (targetCount <=? Z.of_nat (List.length entries)) eqn:E;
      [split; assumption|].
    apply Z.leb_gt in E.
    destruct ((sample_name c <? 0) || (safeDuration <? sample_name c)) eqn:Er;
      [apply IH; assumption|].
    destruct (secExistsNearby entries (sample_name c) 12);
      [apply IH; assumption|].
    apply orb_false_iff in Er as [Er _]. apply Z.ltb_ge in Er.
    destruct (timelineLabelFromMood_good (sample_value c)) as [Hi Hlbl].
    apply IH.
    + apply Forall_app. split; [exact Hg|]. repeat constructor; assumption.
    + rewrite length_app. simpl. lia.
Qed.

Lemma fillerLoop_inv (safeDuration : Z) (attemptsLeft : nat) :
  0 <= safeDuration ->
  forall fillerIndex entries,
    0 <= fillerIndex ->
    Forall goodEntry entries -> (List.length entries <= 20)%nat ->
    Forall goodEntry (fillerLoop attemptsLeft safeDuration fillerIndex entries)
    /\ (List.length (fillerLoop attemptsLeft safeDuration fillerIndex entries)
        <= 20)%nat.
Proof.
  intros HD. induction attemptsLeft as [|n IH];
    intros fillerIndex entries Hf Hg Hl; simpl.
  - split; assumption.
  - destruct (Z.of_nat (List.length entries) <? 15) eqn:E;
      [|split; assumption].
    apply Z.ltb_lt in E.
    destruct (secExistsNearby entries _ 8); [apply IH; try assumption; lia|].
    apply IH; [lia| |rewrite length_app; simpl; lia].
    apply Forall_app. split; [exact Hg|]. repeat constructor; simpl.
    + apply round_nonneg. unfold Qdiv. apply Qmult_le_0_compat; [|discriminate].
      change 0%Q with (inject_Z 0). rewrite <- Zle_Qle. nia.
    + apply storyBeat_nonempty.
Qed.

Lemma denseLoop_spec (safeDuration : Z) (fuel : nat) :
  0 <= safeDuration ->
  forall entries,
    (15 <= List.length entries + fuel)%nat ->
    exists r,
      denseLoop fuel safeDuration entries = Some r
      /\ (15 <= List.length r)%nat
      /\ ((List.length entries <= 20)%nat -> (List.length r <= 20)%nat)
      /\ (Forall goodEntry entries -> Forall goodEntry r)
      /\ ((15 <= List.length entries)%nat -> r = entries).
Proof.
  intros HD. induction fuel as [|fuel IH]; intros entries Hfuel.
  - simpl. replace (Z.of_nat (List.length entries) <? 15) with false
      by (symmetry; apply Z.ltb_ge; lia).
    exists entries. repeat split; auto. lia.
  - cbn [denseLoop]. destruct (Z.of_nat (List.length entries) <? 15) eqn:E.
    + apply Z.ltb_lt in E.
      destruct (IH (entries ++ [mkEntry (JS.clamp (Z.of_nat (List.length entries) - 1)
                                                  0 safeDuration)
                                        (storyBeat entries) "timeline"%string]))
        as [r [Hr [H15 [H20 [Hg _]]]]].
      { rewrite length_app. simpl. lia. }
      exists r. split; [exact Hr|]. split; [exact H15|]. split; [|split].
      * intros _. apply H20. rewrite length_app. simpl. lia.
      * intros Hge. apply Hg. apply Forall_app. split; [exact Hge|].
        repeat constructor; simpl.
        -- apply clamp_range. exact HD.
        -- apply storyBeat_nonempty.
      * intros. lia.
    + apply Z.ltb_ge in E. exists entries. repeat split; auto. lia.
Qed.

Lemma sorted_map {A B} (R : B -> B -> Prop) (f : A -> B) (l : list A) :
  StronglySorted (fun a b => R (f a) (f b)) l -> StronglySorted R (map f l).
Proof.
  induction 1 as [|x l Hl IH Hx]; simpl; constructor; [exact IH|].
  apply Forall_map. exact Hx.
Qed.

Lemma timelineTarget_range (safeDuration : Z) :
  15 <= timelineTargetOf safeDuration <= 20.
Proof. unfold timelineTargetOf. apply clamp_range. lia. Qed.

Lemma normalizeTimeline_shape (trim : string -> string)
    (timeline : list RawEntry) (moodData : list MoodSample) (videoDuration : Q) :
  exists out,
    normalizeTimeline trim timeline moodData videoDuration = Some out
    /\ (15 <= List.length out <= 20)%nat
    /\ Forall goodTimelineEntry out
    /\ StronglySorted timeLe out.
Proof.
  unfold normalizeTimeline. cbv zeta.
  pose proof (safeDuration_pos videoDuration) as HD.
  set (D := safeDurationOf videoDuration) in *.
  pose proof (timelineTarget_range D) as Ht.
  destruct (thin_spec (dedupedEntries trim D timeline))
    as [e1 [H1 [Hl1 [HP1 _]]]].
  rewrite H1.
  pose proof (HP1 _ (dedupedEntries_good trim D timeline ltac:(lia))) as Hg1.
  set (e2 := if Z.of_nat (List.length e1) <? 15
             then backfill D (timelineTargetOf D) (sortBy byInterest moodData) e1
             else e1).
  assert (H2 : Forall goodEntry e2 /\ (List.length e2 <= 20)%nat).
  { unfold e2. destruct (Z.of_nat (List.length e1) <? 15).
    - apply backfill_inv; [lia|exact Hg1|lia].
    - split; [exact Hg1|lia]. }
  destruct H2 as [Hg2 Hl2].
  destruct (fillerLoop_inv D 300 ltac:(lia) 1 e2 ltac:(lia) Hg2 Hl2)
    as [Hg3 Hl3].
  destruct (denseLoop_spec D 15 ltac:(lia) (fillerLoop 300 D 1 e2) ltac:(lia))
    as [e4 [H4 [Hl4 [Hu4 [Hg4 _]]]]].
  rewrite H4.
  destruct (thin_spec (sortBy bySecOfEntry e4)) as [e5 [H5 [Hl5 [HP5 [HS5 _]]]]].
  rewrite H5. eexists. split; [reflexivity|].
  assert (Hg5 : Forall goodEntry e5).
  { apply HP5. eapply Permutation_Forall; [symmetry; apply sortBy_perm|].
    apply Hg4, Hg3. }
  split; [|split].
  - rewrite length_map, Hl5, (Permutation_length (sortBy_perm _ e4)).
    specialize (Hu4 Hl3). lia.
  - apply Forall_map. eapply Forall_impl; [|exact Hg5].
    intros e [Hs [Hi Hlbl]]. unfold goodTimelineEntry, toTimelineEntry. simpl.
    rewrite stamp_Z by exact Hs. auto.
  - apply sorted_map.
    pose proof (HS5 _ (sortBy_bySecOfEntry_sorted e4)) as Hs5.
    clear -Hs5 Hg5. induction Hs5 as [|x l Hl IH Hx]; constructor.
    + apply IH. inversion Hg5; assumption.
    + inversion Hg5 as [|? ? [Hx0 _] Hgl]; subst.
      rewrite Forall_forall in *. intros y Hy.
      destruct (Hgl y Hy) as [Hy0 _]. specialize (Hx y Hy).
      unfold timeLe, toTimelineEntry, entrySecLe in *. simpl.
      rewrite !stamp_Z by assumption. exact Hx.
Qed.

Lemma fillerLoop_full (attemptsLeft : nat) (safeDuration fillerIndex : Z)
    (entries : list Entry) :
  (15 <= List.length entries)%nat ->
  fillerLoop attemptsLeft safeDuration fillerIndex entries = entries.
Proof.
  intros H. destruct attemptsLeft; [reflexivity|]. cbn [fillerLoop].
  replace (Z.of_nat (List.length entries) <? 15) with false
    by (symmetry; apply Z.ltb_ge; lia).
  reflexivity.
Qed.

Lemma dedupedEntries_fixed (trim : string -> string) (safeDuration : Z)
    (timeline : list RawEntry) :
  sortBy bySecOfEntry (dedupedEntries trim safeDuration timeline)
  = dedupedEntries trim safeDuration timeline.
Proof.
  apply sortBy_fixed. unfold dedupedEntries.
  apply sortBy_sorted; unfold bySecOfEntry; intros.
  - apply Z.ltb_ge in H, H0. apply Z.ltb_ge. lia.
  - exact H.
  - apply Z.ltb_lt in H. apply Z.ltb_ge. lia.
Qed.

(** The normalizer always returns, and what it returns has between 15
    and 20 entries, ordered in time, each with a time that is not
    negative, an icon of the allowed set and a label that is not empty. *)
Theorem timeline_always_well_formed (trim : string -> string)
    (timeline : list RawEntry) (moodData : list MoodSample) (videoDuration : Q) :
  exists out,
    normalizeTimeline trim timeline moodData videoDuration = Some out
    /\ (15 <= List.length out <= 20)%nat
    /\ Forall goodTimelineEntry out
    /\ StronglySorted timeLe out.
Proof. apply normalizeTimeline_shape. Qed.

(** A timeline that has between 15 and 20 usable entries at distinct
    seconds is returned as it is, cleaned and ordered: nothing is added
    from the mood curve and no placeholder is invented. *)
Theorem timeline_of_right_size_passes_through (trim : string -> string)
    (timeline : list RawEntry) (moodData : list MoodSample) (videoDuration : Q) :
  let entries := dedupedEntries trim (safeDurationOf videoDuration) timeline in
  (15 <= List.length entries <= 20)%nat ->
  normalizeTimeline trim timeline moodData videoDuration
  = Some (map toTimelineEntry entries).
Proof.
  intros entries Hlen. unfold normalizeTimeline. cbv zeta. fold entries.
  pose proof (safeDuration_pos videoDuration) as HD.
  destruct (thin_spec entries) as [e1 [H1 [_ [_ [_ Hsame]]]]].
  rewrite H1, (Hsame ltac:(lia)).
  replace (Z.of_nat (List.length entries) <? 15) with false
    by (symmetry; apply Z.ltb_ge; lia).
  rewrite fillerLoop_full by lia.
  destruct (denseLoop_spec (safeDurationOf videoDuration) 15 ltac:(lia)
                           entries ltac:(lia))
    as [e4 [H4 [_ [_ [_ Hsame4]]]]].
  rewrite H4, (Hsame4 ltac:(lia)).
  unfold entries at 1. rewrite dedupedEntries_fixed. fold entries.
  rewrite H1, (Hsame ltac:(lia)). reflexivity.
Qed.

Lemma timeline_of_right_size_passes_through_witness :
  normalizeTimeline (fun s => s) fifteenBeats [] 200
  = Some (map toTimelineEntry
              (dedupedEntries (fun s => s) (safeDurationOf 200) fifteenBeats)).
Proof.
  apply (timeline_of_right_size_passes_through (fun s => s) fifteenBeats [] 200).
  vm_compute. lia.
Defined.

(** ** The whole selection *)

Lemma ensureFriends_keeps D b friends hs u :
  covered u hs -> covered u (ensureFriendsInHighlights friends hs D b).
Proof.
  intros H. unfold ensureFriendsInHighlights. destruct friends; [exact H|].
  apply merge_sort_covers, friendsLoop_keeps, H.
Qed.










(** ** The highlight view of an annotation list *)

Lemma filterMap_filter {A B} (f : A -> option B) (keep : A -> bool)
    (l : list A) :
  (forall x, keep x = isSome (f x)) ->
  List.length (filterMap f l) = List.length (filter keep l)
  /\ Forall2 (fun x y => f x = Some y) (filter keep l) (filterMap f l).
Proof.
  intros H. induction l as [|x l [IHl IHF]]; simpl.
  - split; [reflexivity|constructor].
  - rewrite H. destruct (f x) as [y|] eqn:E; simpl.
    + split; [f_equal; exact IHl|constructor; assumption].
    + split; assumption.
Qed.

Lemma filterMap_sorted {A B} (R : A -> A -> Prop) (R' : B -> B -> Prop)
    (f : A -> option B) (l : list A) :
  (forall a b a' b', R a b -> f a = Some a' -> f b = Some b' -> R' a' b') ->
  StronglySorted R l -> StronglySorted R' (filterMap f l).
Proof.
  intros H. induction 1 as [|x l Hl IH Hx]; simpl; [constructor|].
  destruct (f x) as [x'|] eqn:E; [|exact IH].
  constructor; [exact IH|].
  apply filterMap_Forall. intros y y' Hy Ey.
  rewrite Forall_forall in Hx. eapply H; eauto.
Qed.

Lemma inCut_mapItem {P} (highlights : list Segment) (item : Item P) :
  inCut highlights item = isSome (mapItem highlights item).
Proof.
  unfold inCut, itemSource, mapItem. destruct (timeField item) as [t|];
    [|reflexivity].
  pose proof (mapLoop_none_iff highlights (sourceTime item t) 0) as H.
  fold (mapToHighlightTime (sourceTime item t) highlights) in H.
  destruct (mapToHighlightTime (sourceTime item t) highlights) as [m|]; simpl.
  - destruct (existsb (covers (sourceTime item t)) highlights);
      [reflexivity|].
    destruct H as [_ H]. discriminate (H eq_refl).
  - apply H. reflexivity.
Qed.

(** The highlight view keeps, in their order, exactly the items whose
    source time some clip spans: each of them appears once, with its
    payload, its source time in the original-time field and the image of
    that time in the cut as its time. *)
Theorem highlight_view_keeps_what_is_in_the_cut {P} (arr : list (Item P))
    (highlights : list Segment) :
  Forall2 (fun item item' =>
             payload item' = payload item
             /\ originalField item' = itemSource item
             /\ (exists t, itemSource item = Some t
                           /\ timeField item' = mapToHighlightTime t highlights)
             /\ isSome (timeField item') = true)
          (filter (inCut highlights) arr)
          (mapAndFilterForHighlight arr highlights).
Proof.
  unfold mapAndFilterForHighlight. destruct highlights as [|h hs].
  - replace (filter (inCut []) arr) with (@nil (Item P)); [constructor|].
    induction arr as [|x arr IH]; [reflexivity|]. simpl.
    unfold inCut at 1. destruct (itemSource x); exact IH.
  - destruct (filterMap_filter (mapItem (h :: hs)) (inCut (h :: hs)) arr
                (inCut_mapItem (h :: hs))) as [_ HF].
    eapply Forall2_impl; [|exact HF]. intros item item' Hm.
    unfold mapItem in Hm. unfold itemSource.
    destruct (timeField item) as [t|]; [|discriminate].
    destruct (mapToHighlightTime (sourceTime item t) (h :: hs)) as [m|] eqn:E;
      [|discriminate].
    injection Hm as <-. simpl. repeat split.
    exists (sourceTime item t). split; [reflexivity|]. symmetry. exact E.
Qed.

Lemma mapItem_source {P} (highlights : list Segment) (item item' : Item P) :
  mapItem highlights item = Some item' ->
  exists t m, itemSource item = Some t
              /\ mapToHighlightTime t highlights = Some m
              /\ timeField item' = Some m.
Proof.
  unfold mapItem, itemSource. destruct (timeField item) as [t|];
    [|discriminate].
  destruct (mapToHighlightTime (sourceTime item t) highlights) as [m|] eqn:E;
    [|discriminate].
  intros H. injection H as <-. exists (sourceTime item t), m.
  repeat split. exact E.
Qed.

(** On a cut of well-formed clips sorted by start, the highlight view of
    a list ordered by source time is ordered by mapped time. *)
Theorem highlight_view_preserves_order {P} (arr : list (Item P))
    (highlights : list Segment) :
  sortedByStart highlights -> Forall wellFormed highlights ->
  StronglySorted (orderedBy itemSource) arr ->
  StronglySorted (orderedBy timeField)
                 (mapAndFilterForHighlight arr highlights).
Proof.
  intros Hs Hwf Harr. unfold mapAndFilterForHighlight.
  destruct highlights as [|h hs]; [constructor|].
  apply (filterMap_sorted (orderedBy itemSource)); [|exact Harr].
  intros a b a' b' Hab Ha Hb x y Hx Hy.
  apply mapItem_source in Ha as [ta [ma [Hta [Hma Hfa]]]].
  apply mapItem_source in Hb as [tb [mb [Htb [Hmb Hfb]]]].
  rewrite Hfa in Hx. rewrite Hfb in Hy.
  injection Hx as <-. injection Hy as <-.
  specialize (Hab ta tb Hta Htb).
  destruct (Z.eq_dec ta tb) as [->|Hne].
  - rewrite Hma in Hmb. injection Hmb as <-. lia.
  - unfold mapToHighlightTime in Hma, Hmb.
    apply (mapLoop_monotone (h :: hs) 0 ta tb ma mb); try assumption; lia.
Qed.

Lemma highlight_view_preserves_order_witness :
  StronglySorted (orderedBy timeField)
                 (mapAndFilterForHighlight threeItems
                    [candidate 0 10; candidate 57 64]).
Proof.
  apply (highlight_view_preserves_order threeItems
           [candidate 0 10; candidate 57 64]).
  - repeat constructor; unfold startLe; simpl; lia.
  - repeat constructor; unfold wellFormed; simpl; lia.
  - assert (Hpair : forall (a b : Z) (u v : string), a <= b ->
              orderedBy itemSource (mkItem (Some a) None false u)
                                   (mkItem (Some b) None false v)).
    { intros a b u v Hab x y Hx Hy. unfold itemSource in Hx, Hy.
      simpl in Hx, Hy. injection Hx as <-. injection Hy as <-. exact Hab. }
    unfold threeItems.
    repeat (constructor; try (apply Hpair; lia)).
Defined.

(** ** Re-running a coverage pass *)

Lemma sortBy_byStart_fixed (hs : list Segment) :
  sortedByStart hs -> sortBy byStart hs = hs.
Proof.
  intros H. apply sortBy_fixed.
  induction H as [|x l Hl IH Hx]; constructor; [exact IH|].
  eapply Forall_impl; [|exact Hx]. intros y Hy.
  unfold byStart, startLe in *. apply Z.ltb_ge. exact Hy.
Qed.

Lemma merge_fixed (l : list Segment) :
  ForallOrdPairs gapBefore l -> mergeOverlappingSegments l = l.
Proof.
  intros H. destruct l as [|s [|s' rest]]; try reflexivity.
  unfold mergeOverlappingSegments. apply mergeLoop_apart. exact H.
Qed.

Lemma merge_sort_fixed (hs : list Segment) :
  Canonical hs -> mergeOverlappingSegments (sortBy byStart hs) = hs.
Proof.
  intros [Hs Hg]. rewrite sortBy_byStart_fixed by exact Hs.
  apply merge_fixed, Hg.
Qed.

Lemma fold_fixed {E} (step : list Segment -> E -> list Segment)
    (events : list E) (segs : list Segment) :
  (forall e, In e events -> step segs e = segs) ->
  fold_left step events segs = segs.
Proof.
  induction events as [|e events IH]; intros H; simpl; [reflexivity|].
  rewrite (H e (or_introl eq_refl)). apply IH.
  intros e' He'. apply H. right. exact He'.
Qed.

Lemma ensureFriends_fixed D b friends hs :
  Canonical hs ->
  (forall friend ts, In friend friends -> In ts (allTimestamps friend) ->
                     covered (timeOr0 (ts_time ts)) hs) ->
  ensureFriendsInHighlights friends hs D b = hs.
Proof.
  intros Hc Hall. unfold ensureFriendsInHighlights.
  destruct friends as [|f0 fs] eqn:Ef; [reflexivity|]. rewrite <- Ef in *.
  unfold friendsLoop. rewrite fold_fixed; [apply merge_sort_fixed, Hc|].
  intros f Hf. apply fold_fixed. intros ts Hts. unfold friendStep.
  specialize (Hall f ts Hf Hts). unfold covered in Hall. rewrite Hall.
  reflexivity.
Qed.

Lemma ensureFood_fixed D b habits hs :
  Canonical hs ->
  (forall habit t, In habit habits -> habit_timestamp habit = Some t ->
                   covered t hs) ->
  ensureFoodInHighlights habits hs D b = hs.
Proof.
  intros Hc Hall. unfold ensureFoodInHighlights.
  destruct habits as [|h0 hs0] eqn:Eh; [reflexivity|]. rewrite <- Eh in *.
  rewrite fold_fixed; [apply merge_sort_fixed, Hc|].
  intros habit Hin. unfold foodStep.
  destruct (habit_timestamp habit) as [t|] eqn:Et; [|reflexivity].
  specialize (Hall habit t Hin Et). unfold covered in Hall. rewrite Hall.
  reflexivity.
Qed.

Lemma ensureSafety_fixed D b alerts hs :
  Canonical hs ->
  (forall alert t, In alert alerts -> alert_timestamp alert = Some t ->
                   covered t hs) ->
  ensureSafetyAlertsInHighlights alerts hs D b = hs.
Proof.
  intros Hc Hall. unfold ensureSafetyAlertsInHighlights.
  destruct alerts as [|a0 as0] eqn:Ea; [reflexivity|]. rewrite <- Ea in *.
  rewrite fold_fixed; [apply merge_sort_fixed, Hc|].
  intros alert Hin. unfold safetyStep.
  destruct (alert_timestamp alert) as [t|] eqn:Et; [|reflexivity].
  specialize (Hall alert t Hin Et). unfold covered in Hall. rewrite Hall.
  reflexivity.
Qed.

(** A cut that is sorted, with gaps of more than 2 seconds between its
    clips, and that already spans every event of a class, is returned
    unchanged by the pass of that class (subjects, feeding, alerts). *)
Theorem covering_cut_left_alone (videoDuration : Q) (b : Z)
    (hs : list Segment) (friends : list Friend) (habits : list Habit)
    (alerts : list Alert) :
  Canonical hs ->
  ((forall friend ts, In friend friends -> In ts (allTimestamps friend) ->
                      covered (timeOr0 (ts_time ts)) hs) ->
   ensureFriendsInHighlights friends hs videoDuration b = hs)
  /\ ((forall habit t, In habit habits -> habit_timestamp habit = Some t ->
                       covered t hs) ->
      ensureFoodInHighlights habits hs videoDuration b = hs)
  /\ ((forall alert t, In alert alerts -> alert_timestamp alert = Some t ->
                       covered t hs) ->
      ensureSafetyAlertsInHighlights alerts hs videoDuration b = hs).
Proof.
  intros Hc. split; [|split]; intros Hall.
  - apply ensureFriends_fixed; assumption.
  - apply ensureFood_fixed; assumption.
  - apply ensureSafety_fixed; assumption.
Qed.


Lemma covering_cut_left_alone_witness :
  Canonical coveringCut
  /\ ensureFriendsInHighlights [rexAtOneMinute] coveringCut 90 3 = coveringCut
  /\ ensureFoodInHighlights [feedingAtForty] coveringCut 90 3 = coveringCut
  /\ ensureSafetyAlertsInHighlights [dangerAtEighty] coveringCut 90 3
     = coveringCut.
Proof.
  assert (Hc : Canonical coveringCut)
    by (split; repeat constructor; unfold startLe, gapBefore; simpl; lia).
  split; [exact Hc|].
  destruct (covering_cut_left_alone 90 3 coveringCut
              [rexAtOneMinute] [feedingAtForty] [dangerAtEighty] Hc)
    as (Hfriends & Hfood & Hsafety).
  split; [|split].
  - apply Hfriends. intros friend ts [<-|[]] [<-|[]]. reflexivity.
  - apply Hfood. intros habit t [<-|[]] Ht. injection Ht as <-. reflexivity.
  - apply Hsafety. intros alert t [<-|[]] Ht. injection Ht as <-. reflexivity.
Defined.

